(** * A virtual buddy allocator (buddy.h): embedding and verification

    The allocator of [buddy.h] keeps a binary tree of heap-allocated
    [BuddyNode]s linked by [left], [right] and [parent] pointers.  The
    embedding keeps the pointers: nodes live in a store indexed by
    addresses, [NULL] is [None], [malloc] hands out a fresh address and
    [free] removes the cell, so that a dereference of [NULL] or of a
    released node is a visible [Crash].  The recursive C functions become
    fuelled fixpoints in an error monad. *)

From Stdlib Require Import ZArith Lia.
From stdpp Require Import base option list gmap.

Open Scope Z_scope.

Set Warnings "-clear-no-such-hyp".

(** Let [lia] reason about the halvings [sz / 2]. *)
Ltac Zify.zify_post_hook ::= Z.to_euclidean_division_equations.

(** * The embedding *)

(** ** Machine integers *)

(** [size_t] is taken to be 64 bits wide; the only operation of the source
    that can wrap is the addition in [buf_node_new]. *)
Definition SIZE_MAX : Z := 2 ^ 64 - 1.

Definition wrap (x : Z) : Z := x mod (SIZE_MAX + 1).

(** ** Data model *)

Inductive BuddyNodeType :=
  | NODE_TYPE_FREE
  | NODE_TYPE_SPLIT
  | NODE_TYPE_OCCUPIED.

#[global] Instance BuddyNodeType_eq_dec : EqDecision BuddyNodeType.
Proof. solve_decision. Defined.

(** Addresses of heap cells; a pointer is an optional address. *)
Abbreviation addr := nat (only parsing).
Abbreviation ptr := (option nat) (only parsing).
Abbreviation NULL := (@None nat) (only parsing).

Record BuddyNode := mkNode {
  node_type : BuddyNodeType;
  node_offset : Z;
  node_size : Z;
  node_left : ptr;
  node_right : ptr;
  node_parent : ptr
}.

Record BuddyAllocation := mkAlloc {
  alloc_offset : Z;
  alloc_size : Z;
  alloc_node : ptr
}.

#[global] Instance BuddyNode_eq_dec : EqDecision BuddyNode.
Proof. solve_decision. Defined.

#[global] Instance BuddyAllocation_eq_dec : EqDecision BuddyAllocation.
Proof. solve_decision. Defined.

Definition with_type (ty : BuddyNodeType) (n : BuddyNode) : BuddyNode :=
  mkNode ty (node_offset n) (node_size n) (node_left n) (node_right n)
         (node_parent n).

Definition with_left (p : ptr) (n : BuddyNode) : BuddyNode :=
  mkNode (node_type n) (node_offset n) (node_size n) p (node_right n)
         (node_parent n).

Definition with_right (p : ptr) (n : BuddyNode) : BuddyNode :=
  mkNode (node_type n) (node_offset n) (node_size n) (node_left n) p
         (node_parent n).

(** ** The store *)

(** [cells] holds the live nodes, [brk] is the next address [malloc] will
    return.  The root node is embedded in the [BuddyBuffer] structure, so
    the address of the buffer is the address of its root. *)
Record mem := mkMem {
  cells : gmap addr BuddyNode;
  brk : addr
}.

Definition mem_empty : mem := mkMem ∅ 0%nat.

(** Outcome of running a piece of the C code. *)
Inductive result (A : Type) :=
  | Ret (a : A)      (* normal return *)
  | Crash            (* undefined behaviour: NULL or dangling dereference *)
  | OutOfFuel.       (* the recursion budget of the model is exhausted *)
Arguments Ret {A} a.
Arguments Crash {A}.
Arguments OutOfFuel {A}.

#[global] Instance result_ret : MRet result := @Ret.
#[global] Instance result_bind : MBind result := λ A B f r,
  match r with
  | Ret a => f a
  | Crash => Crash
  | OutOfFuel => OutOfFuel
  end.

(** [*p] *)
Definition load (m : mem) (p : ptr) : result BuddyNode :=
  match p with
  | None => Crash
  | Some a => match cells m !! a with Some n => Ret n | None => Crash end
  end.

(** [*p = f( *p )] *)
Definition update (m : mem) (p : ptr) (f : BuddyNode → BuddyNode) : result mem :=
  n ← load m p;
  match p with
  | Some a => Ret (mkMem (<[a := f n]> (cells m)) (brk m))
  | None => Crash
  end.

(** [malloc] followed by the initialisation of the new cell with [n].  It
    never fails and never returns an address that was handed out before,
    so a pointer to a released node stays dangling. *)
Definition malloc (m : mem) (n : BuddyNode) : mem * nat :=
  (mkMem (<[brk m := n]> (cells m)) (S (brk m)), brk m).

(** [free(p)] *)
Definition mfree (m : mem) (p : ptr) : result mem :=
  match p with
  | None => Ret m
  | Some a =>
      match cells m !! a with
      | Some _ => Ret (mkMem (delete a (cells m)) (brk m))
      | None => Crash
      end
  end.

(** ** The operations of buddy.h *)

(** The fixpoints below follow the C functions statement by statement;
    a field is read from the store where the source reads it.  [fuel]
    bounds the depth of the recursion. *)

(** [buddy_buf_new]: returns the address of the buffer, which is the
    address of the root node. *)
Definition buddy_buf_new (m : mem) (size : Z) : mem * nat :=
  let root := mkNode NODE_TYPE_FREE 0 size NULL NULL NULL in
  malloc m root.

(** [destroy_buf_node]: both subtrees first, then the node itself unless
    it has no parent. *)
Fixpoint destroy_buf_node (fuel : nat) (m : mem) (node : ptr) : result mem :=
  match fuel with
  | O => OutOfFuel
  | S fuel =>
      n ← load m node;
      m ← (match node_left n with
           | Some _ => destroy_buf_node fuel m (node_left n)
           | None => Ret m
           end);
      n ← load m node;
      m ← (match node_right n with
           | Some _ => destroy_buf_node fuel m (node_right n)
           | None => Ret m
           end);
      n ← load m node;
      match node_parent n with
      | Some _ =>
          p ← load m (node_parent n);
          m ← (if bool_decide (node_left p = node)
               then update m (node_parent n) (with_left NULL)
               else update m (node_parent n) (with_right NULL));
          mfree m node
      | None => Ret m
      end
  end.

(** [buddy_buf_destroy]: [destroy_buf_node(&buf->root); free(buf);] *)
Definition buddy_buf_destroy (fuel : nat) (m : mem) (buf : nat) : result mem :=
  m ← destroy_buf_node fuel m (Some buf);
  mfree m (Some buf).

(** [buf_node_new]: the sum that gives the offset is computed in
    [size_t]. *)
Definition buf_node_new (m : mem) (parent : ptr) (left : bool)
  : result (mem * nat) :=
  p ← load m parent;
  let node :=
    mkNode NODE_TYPE_FREE
           (wrap (node_offset p + (if left then 0 else node_size p / 2)))
           (node_size p / 2) NULL NULL parent in
  Ret (malloc m node).

(** [alloc_buf_node]: returns the store, the contents of the caller's
    [*alloc] and the C return value (0 or 1). *)
Fixpoint alloc_buf_node (fuel : nat) (m : mem) (node : ptr) (size : Z)
    (alloc : BuddyAllocation) : result (mem * BuddyAllocation * Z) :=
  match fuel with
  | O => OutOfFuel
  | S fuel =>
      n ← load m node;
      match node_type n with
      | NODE_TYPE_FREE =>
          if node_size n / 2 >=? size then
            m ← update m node (with_type NODE_TYPE_SPLIT);
            '(m, new_node) ← buf_node_new m node true;
            m ← update m node (with_left (Some new_node));
            alloc_buf_node fuel m (Some new_node) size alloc
          else if node_size n >=? size then
            m ← update m node (with_type NODE_TYPE_OCCUPIED);
            n ← load m node;
            let allocation := mkAlloc (node_offset n) (node_size n) node in
            Ret (m, allocation, 1)
          else Ret (m, alloc, 0)
      | NODE_TYPE_SPLIT =>
          if node_size n / 2 <? size then Ret (m, alloc, 0)
          else
            match node_left n with
            | Some _ =>
                '(m, alloc, r) ← alloc_buf_node fuel m (node_left n) size alloc;
                if negb (r =? 0) then Ret (m, alloc, 1)
                else
                  n ← load m node;
                  match node_right n with
                  | Some _ =>
                      '(m, alloc, r) ←
                        alloc_buf_node fuel m (node_right n) size alloc;
                      if negb (r =? 0) then Ret (m, alloc, 1)
                      else Ret (m, alloc, 0)
                  | None =>
                      '(m, new_node) ← buf_node_new m node false;
                      m ← update m node (with_right (Some new_node));
                      alloc_buf_node fuel m (Some new_node) size alloc
                  end
            | None =>
                '(m, new_node) ← buf_node_new m node true;
                m ← update m node (with_left (Some new_node));
                alloc_buf_node fuel m (Some new_node) size alloc
            end
      | NODE_TYPE_OCCUPIED => Ret (m, alloc, 0)
      end
  end.

(** [buddy_buf_alloc]: [alloc_buf_node(&buf->root, size, alloc)] *)
Definition buddy_buf_alloc (fuel : nat) (m : mem) (buf : nat) (size : Z)
    (alloc : BuddyAllocation) : result (mem * BuddyAllocation * Z) :=
  alloc_buf_node fuel m (Some buf) size alloc.

(** One conjunct of [can_coalesce]:
    [p == NULL || p->type == NODE_TYPE_FREE] *)
Definition null_or_free (m : mem) (p : ptr) : result bool :=
  match p with
  | None => Ret true
  | Some _ => c ← load m p; Ret (bool_decide (node_type c = NODE_TYPE_FREE))
  end.

(** [node_update]: the two conjuncts of [can_coalesce] are evaluated left
    to right, the second only if the first holds; [parent] is read before
    the node is destroyed. *)
Fixpoint node_update (fuel : nat) (m : mem) (node : ptr) : result mem :=
  match fuel with
  | O => OutOfFuel
  | S fuel =>
      n ← load m node;
      match node_type n with
      | NODE_TYPE_FREE =>
          match node_parent n with
          | Some _ =>
              let parent := node_parent n in
              p ← load m parent;
              m ← (if bool_decide (node_left p = node)
                   then destroy_buf_node fuel m (node_left p)
                   else destroy_buf_node fuel m (node_right p));
              node_update fuel m parent
          | None => Ret m
          end
      | NODE_TYPE_SPLIT =>
          cl ← null_or_free m (node_left n);
          can_coalesce ← (if (cl : bool) then null_or_free m (node_right n)
                          else Ret false);
          if (can_coalesce : bool) then
            let parent := node_parent n in
            m ← destroy_buf_node fuel m node;
            node_update fuel m parent
          else Ret m
      | NODE_TYPE_OCCUPIED => Ret m
      end
  end.

(** [buddy_buf_free]: [alloc.node->type = NODE_TYPE_FREE;
    node_update(alloc.node);] *)
Definition buddy_buf_free (fuel : nat) (m : mem) (alloc : BuddyAllocation)
  : result mem :=
  m ← update m (alloc_node alloc) (with_type NODE_TYPE_FREE);
  node_update fuel m (alloc_node alloc).

(** The node [buf_node_new] creates below the node [n] at address [p]. *)
Definition fresh_node (p : nat) (n : BuddyNode) (left : bool) : BuddyNode :=
  mkNode NODE_TYPE_FREE
    (wrap (node_offset n + (if left then 0 else node_size n / 2)))
    (node_size n / 2) NULL NULL (Some p).

(** The store primitives are only unfolded through their lemmas. *)
#[global] Arguments load : simpl never.
#[global] Arguments update : simpl never.
#[global] Arguments mfree : simpl never.
#[global] Arguments buf_node_new : simpl never.
#[global] Arguments null_or_free : simpl never.

(** * The vocabulary of the specification *)

(** ** Partition trees and their representation in the store *)

(** The shape of the pointer structure: which node lives at which address,
    its state and its two subtrees.  Offsets and sizes are not stored in
    the tree: they follow from the position, see [rep]. *)
Inductive atree :=
  | ALeaf                                   (* an absent child, [NULL] *)
  | ANode (a : nat) (ty : BuddyNodeType) (l r : atree).

Definition root_ptr (t : atree) : ptr :=
  match t with
  | ALeaf => None
  | ANode a _ _ _ => Some a
  end.

Fixpoint addrs (t : atree) : list nat :=
  match t with
  | ALeaf => []
  | ANode a _ l r => a :: addrs l ++ addrs r
  end.

(** [rep h par off sz t]: the store [h] holds the tree [t] below the parent
    pointer [par], the root of [t] covering [off, off + sz). *)
Fixpoint rep (h : gmap nat BuddyNode) (par : ptr) (off sz : Z) (t : atree)
  : Prop :=
  match t with
  | ALeaf => True
  | ANode a ty l r =>
      h !! a = Some (mkNode ty off sz (root_ptr l) (root_ptr r) par) ∧
      rep h (Some a) off (sz / 2) l ∧
      rep h (Some a) (off + sz / 2) (sz / 2) r
  end.

(** Between two calls of the interface no node below the root is free,
    only split nodes have children, and every split node has one. *)
Fixpoint settled (t : atree) : Prop :=
  match t with
  | ALeaf => True
  | ANode _ ty l r =>
      match ty with
      | NODE_TYPE_FREE => False
      | NODE_TYPE_SPLIT =>
          settled l ∧ settled r ∧ (is_Some (root_ptr l) ∨ is_Some (root_ptr r))
      | NODE_TYPE_OCCUPIED => l = ALeaf ∧ r = ALeaf
      end
  end.

Definition free_leaf (t : atree) : Prop :=
  ∃ a, t = ANode a NODE_TYPE_FREE ALeaf ALeaf.

(** The occupied partitions of a tree: address, offset and size. *)
Fixpoint occ (off sz : Z) (t : atree) : list (nat * (Z * Z)) :=
  match t with
  | ALeaf => []
  | ANode a ty l r =>
      (if bool_decide (ty = NODE_TYPE_OCCUPIED) then [(a, (off, sz))] else [])
        ++ occ off (sz / 2) l ++ occ (off + sz / 2) (sz / 2) r
  end.

(** Recursion budget that suffices below a node of size [sz]. *)
Definition depth_bound (sz : Z) : nat := S (Z.to_nat (Z.log2 sz)).

(** Number of levels of a tree. *)
Fixpoint height (t : atree) : nat :=
  match t with
  | ALeaf => O
  | ANode _ _ l r => S (Nat.max (height l) (height r))
  end.

(** [buddy_buf_free] first overwrites the state of the node it is given. *)
Fixpoint mark (a : nat) (t : atree) : atree :=
  match t with
  | ALeaf => ALeaf
  | ANode b ty l r =>
      if decide (b = a) then ANode b NODE_TYPE_FREE l r
      else ANode b ty (mark a l) (mark a r)
  end.

(** ** Conditions on the allocation descent *)

(** What [alloc_buf_node] needs of the subtree [t] it is called on. *)
Record alloc_pre (m : mem) (par : ptr) (off sz : Z) (t : atree) : Prop := {
  pre_rep : rep (cells m) par off sz t;
  pre_nodup : NoDup (addrs t);
  pre_below : ∀ b, b ∈ addrs t → (b < brk m)%nat;
  pre_shape : settled t ∨ free_leaf t;
  pre_off : 0 ≤ off;
  pre_sz : 0 ≤ sz;
  pre_max : off + sz ≤ SIZE_MAX
}.

(** What a successful [alloc_buf_node] establishes: the subtree [t] of the
    store [m] became [t'] in [m'], and [al] was granted. *)
Record alloc_post (m : mem) (par : ptr) (off sz size : Z) (t : atree)
    (m' : mem) (al : BuddyAllocation) (t' : atree) : Prop := {
  ap_root : root_ptr t' = root_ptr t;
  ap_rep : rep (cells m') par off sz t';
  ap_nodup : NoDup (addrs t');
  ap_below : ∀ b, b ∈ addrs t' → (b < brk m')%nat;
  ap_brk : (brk m ≤ brk m')%nat;
  ap_settled : settled t';
  ap_frame : ∀ b, b ∉ addrs t' → cells m' !! b = cells m !! b;
  ap_old : ∀ b, b ∈ addrs t → b ∈ addrs t';
  ap_new : ∀ b, b ∈ addrs t' → b ∈ addrs t ∨ (brk m ≤ b)%nat;
  ap_occ : ∃ c, alloc_node al = Some c ∧
    occ off sz t' ≡ₚ (c, (alloc_offset al, alloc_size al)) :: occ off sz t;
  ap_size : size ≤ alloc_size al
}.

(** [alloc_buf_node], run with [fuel], meets its specification on every
    subtree that is shallow enough. *)
Definition alloc_ok (fuel : nat) : Prop :=
  ∀ a ty l r m par off sz size out,
    alloc_pre m par off sz (ANode a ty l r) → 1 ≤ size →
    (depth_bound sz ≤ fuel)%nat →
    alloc_buf_node fuel m (Some a) size out = Ret (m, out, 0) ∨
    ∃ m' al t',
      alloc_buf_node fuel m (Some a) size out = Ret (m', al, 1) ∧
      alloc_post m par off sz size (ANode a ty l r) m' al t'.

(** ** Conditions on teardown and fix-up *)

(** The parent's cell once its link to [p] has been cleared. *)
Definition unlink (p : ptr) (qn : BuddyNode) : BuddyNode :=
  match p with
  | None => qn
  | Some _ =>
      if bool_decide (node_left qn = p) then with_left NULL qn
      else with_right NULL qn
  end.

(** [m'] is [m] without the subtree [t] that hung below the node [q]. *)
Record destroy_post (m : mem) (t : atree) (q : nat) (qn : BuddyNode)
    (m' : mem) : Prop := {
  dp_brk : brk m' = brk m;
  dp_gone : ∀ b, b ∈ addrs t → cells m' !! b = None;
  dp_parent : cells m' !! q = Some (unlink (root_ptr t) qn);
  dp_frame : ∀ b, b ∉ addrs t → b ≠ q → cells m' !! b = cells m !! b
}.

(** [r'] returns whatever [r] returns. *)
Definition res_le {A} (r r' : result A) : Prop := ∀ a, r = Ret a → r' = Ret a.

(** [pending a t]: the tree [t] is settled but for the leaf at [a], which
    [buddy_buf_free] has just marked free. *)
Inductive pending (a : nat) : atree → Prop :=
  | pending_here : pending a (ANode a NODE_TYPE_FREE ALeaf ALeaf)
  | pending_left b l r :
      pending a l → settled r → pending a (ANode b NODE_TYPE_SPLIT l r)
  | pending_right b l r :
      settled l → pending a r → pending a (ANode b NODE_TYPE_SPLIT l r).

(** The node above [t], if any, is not part of [t] and points to it. *)
Definition linked (m : mem) (par : ptr) (t : atree) : Prop :=
  match par with
  | Some q =>
      (q ∉ addrs t) ∧
      (∃ qn, cells m !! q = Some qn ∧
             (node_left qn = root_ptr t ∨ node_right qn = root_ptr t))
  | None => True
  end.

(** The fix-up came to rest inside [t], which became [t']. *)
Record stop_post (m : mem) (par : ptr) (off sz : Z) (t : atree)
    (m' : mem) (t' : atree) : Prop := {
  sp_root : root_ptr t' = root_ptr t;
  sp_rep : rep (cells m') par off sz t';
  sp_shape : settled t' ∨ (par = None ∧ free_leaf t');
  sp_nodup : NoDup (addrs t');
  sp_sub : ∀ b, b ∈ addrs t' → b ∈ addrs t;
  sp_brk : brk m' = brk m;
  sp_frame : ∀ b, b ∉ addrs t → cells m' !! b = cells m !! b;
  sp_gone : ∀ b, b ∈ addrs t → b ∉ addrs t' → cells m' !! b = None;
  sp_cell : ∀ b, b ∈ addrs t' → ∃ n, cells m !! b = Some n ∧
    (cells m' !! b = Some n ∨ cells m' !! b = Some (with_left NULL n) ∨
     cells m' !! b = Some (with_right NULL n));
  sp_occ : occ off sz t' = occ off sz t
}.

Definition ascent_stop (a : nat) (m : mem) (par : ptr) (off sz : Z)
    (t : atree) (k : nat) : Prop :=
  ∃ m' t',
    (∀ f, node_update (k + f) m (Some a) = Ret m') ∧
    stop_post m par off sz t m' t'.

(** The fix-up released all of [t] and went on at the node above; when
    there is none it dereferences [NULL]. *)
Definition ascent_exit (a : nat) (m : mem) (par : ptr) (off sz : Z)
    (t : atree) (k : nat) : Prop :=
  occ off sz t = [] ∧
  match par with
  | Some q =>
      ∃ qn m', cells m !! q = Some qn ∧
        (∀ f, (1 ≤ f)%nat →
           node_update (k + f) m (Some a) = node_update f m' (Some q)) ∧
        destroy_post m t q qn m'
  | None =>
      ∃ m', ∀ f, (1 ≤ f)%nat →
        node_update (k + f) m (Some a) = node_update f m' NULL
  end.

(** The store right after [buddy_buf_free] has marked the node at [a]. *)
Definition marked (m : mem) (a : nat) (n : BuddyNode) : mem :=
  mkMem (<[a := with_type NODE_TYPE_FREE n]> (cells m)) (brk m).

(** ** The allocator invariant *)

(** [t] is the partition tree of the allocator at [buf] over a span of
    [total] units, and the store holds nothing else. *)
Record buddy_inv (total : Z) (m : mem) (buf : nat) (t : atree) : Prop := {
  inv_root : root_ptr t = Some buf;
  inv_rep : rep (cells m) None 0 total t;
  inv_nodup : NoDup (addrs t);
  inv_below : ∀ b, b ∈ addrs t → (b < brk m)%nat;
  inv_dom : ∀ b, is_Some (cells m !! b) → b ∈ addrs t;
  inv_shape : settled t ∨ free_leaf t
}.

(** The states an allocator over [total] units can be in: those that
    [buddy_buf_new], [buddy_buf_alloc] with a positive size and
    [buddy_buf_free] on an occupied node of the allocator lead to. *)
Inductive reachable (total : Z) : mem → nat → Prop :=
  | reach_new m buf :
      buddy_buf_new mem_empty total = (m, buf) → reachable total m buf
  | reach_alloc m buf fuel size out m' out' r :
      reachable total m buf → 1 ≤ size →
      buddy_buf_alloc fuel m buf size out = Ret (m', out', r) →
      reachable total m' buf
  | reach_free m buf fuel al a n m' :
      reachable total m buf →
      alloc_node al = Some a → cells m !! a = Some n →
      node_type n = NODE_TYPE_OCCUPIED →
      buddy_buf_free fuel m al = Ret m' →
      reachable total m' buf.

(** ** Paths, ranges and runs *)

(** Following [left] ([true]) and [right] ([false]) links from [p]. *)
Fixpoint walk (h : gmap nat BuddyNode) (p : ptr) (path : list bool) : ptr :=
  match path with
  | [] => p
  | d :: path' =>
      match p with
      | None => None
      | Some a =>
          match h !! a with
          | None => None
          | Some n => walk h (if d then node_left n else node_right n) path'
          end
      end
  end.

(** Two half-open ranges, given as (offset, size), do not overlap. *)
Definition apart (x y : Z * Z) : Prop :=
  x.1 + x.2 ≤ y.1 ∨ y.1 + y.2 ≤ x.1.

Fixpoint pairwise_apart (l : list (Z * Z)) : Prop :=
  match l with
  | [] => True
  | x :: l' => Forall (apart x) l' ∧ pairwise_apart l'
  end.

Definition within (off sz : Z) (x : Z * Z) : Prop :=
  off ≤ x.1 ∧ x.1 + x.2 ≤ off + sz.

Definition range (al : BuddyAllocation) : Z * Z :=
  (alloc_offset al, alloc_size al).

(** A sequence of allocation requests, each into the caller's [out];
    the allocations that were granted are collected in order. *)
Fixpoint run_allocs (fuel : nat) (m : mem) (buf : nat) (sizes : list Z)
    (out : BuddyAllocation) : result (mem * list BuddyAllocation) :=
  match sizes with
  | [] => Ret (m, [])
  | size :: sizes' =>
      '(m, al, r) ← buddy_buf_alloc fuel m buf size out;
      '(m, als) ← run_allocs fuel m buf sizes' out;
      Ret (m, if r =? 0 then als else al :: als)
  end.

(** The contents of an output variable the caller has not written yet. *)
Definition out0 : BuddyAllocation := mkAlloc 0 0 NULL.

(** What a call returned, for naming the states of an example run. *)
Definition mem_of (r : result (mem * BuddyAllocation * Z)) : mem :=
  match r with Ret (m, _, _) => m | _ => mem_empty end.

Definition alloc_of (r : result (mem * BuddyAllocation * Z)) : BuddyAllocation :=
  match r with Ret (_, al, _) => al | _ => out0 end.

Definition freed (r : result mem) : mem :=
  match r with Ret m => m | _ => mem_empty end.

(** A run on a span of 1024 units: two requests of 200 units, the first
    one freed again, then a request of 256 units. *)
Definition run0 : mem := (buddy_buf_new mem_empty 1024).1.
Definition run1 : mem := mem_of (buddy_buf_alloc 11 run0 0 200 out0).
Definition got1 : BuddyAllocation := alloc_of (buddy_buf_alloc 11 run0 0 200 out0).
Definition run2 : mem := mem_of (buddy_buf_alloc 11 run1 0 200 out0).
Definition got2 : BuddyAllocation := alloc_of (buddy_buf_alloc 11 run1 0 200 out0).
Definition run3 : mem := freed (buddy_buf_free 11 run2 got1).
Definition run4 : mem := mem_of (buddy_buf_alloc 11 run3 0 256 out0).
Definition got4 : BuddyAllocation := alloc_of (buddy_buf_alloc 11 run3 0 256 out0).

(** A run on a span of 4 units: a request of 2 units, then one of 1 unit,
    which is freed again.  [mid2] is the store in which the fix-up of that
    free visits the split node at address 2, the parent of the freed
    node. *)
Definition small0 : mem := (buddy_buf_new mem_empty 4).1.
Definition small1 : mem := mem_of (buddy_buf_alloc 3 small0 0 2 out0).
Definition small2 : mem := mem_of (buddy_buf_alloc 3 small1 0 1 out0).
Definition small_got : BuddyAllocation :=
  alloc_of (buddy_buf_alloc 3 small1 0 1 out0).
Definition mid2 : mem :=
  freed (destroy_buf_node 3
           (marked small2 3 (mkNode NODE_TYPE_OCCUPIED 2 1 NULL NULL (Some 2%nat)))
           (Some 3%nat)).
Definition small3 : mem := freed (buddy_buf_free 3 small2 small_got).

(** ** Conditions used by the further properties *)

(** [malloc] returns an address that is not in use. *)
Definition fresh_brk (m : mem) : Prop :=
  ∀ b, is_Some (cells m !! b) → (b < brk m)%nat.

(** The occupied nodes of [m] are found unchanged in [m']. *)
Definition keeps_occupied (m m' : mem) : Prop :=
  fresh_brk m' ∧
  ∀ c cn, cells m !! c = Some cn → node_type cn = NODE_TYPE_OCCUPIED →
          cells m' !! c = Some cn.

(** The handle [al] that a request of [size] units returned describes an
    occupied node of [m'] that was not occupied in [m]; the node is the
    smallest halving that holds the request. *)
Definition granted (m m' : mem) (size : Z) (al : BuddyAllocation) : Prop :=
  ∃ c cn, alloc_node al = Some c ∧ cells m' !! c = Some cn ∧
    node_type cn = NODE_TYPE_OCCUPIED ∧
    node_offset cn = alloc_offset al ∧ node_size cn = alloc_size al ∧
    size ≤ alloc_size al ∧ alloc_size al / 2 < size ∧
    (∀ cn0, cells m !! c = Some cn0 → node_type cn0 ≠ NODE_TYPE_OCCUPIED).

(** What a [buddy_buf_free] of the occupied node [n] at [a] that returns
    has done to the store. *)
Record free_post (m : mem) (buf a : nat) (n : BuddyNode) (m' : mem)
    : Prop := {
  fp_brk : brk m' = brk m;
  fp_sub : ∀ b, is_Some (cells m' !! b) → is_Some (cells m !! b);
  fp_keep : ∀ c cn, c ≠ a → cells m !! c = Some cn →
    node_type cn = NODE_TYPE_OCCUPIED → cells m' !! c = Some cn;
  fp_only : ∀ c cn, cells m' !! c = Some cn →
    node_type cn = NODE_TYPE_OCCUPIED → c ≠ a ∧ cells m !! c = Some cn;
  fp_cell : ∀ b bn', b ≠ a → cells m' !! b = Some bn' →
    ∃ bn, cells m !! b = Some bn ∧
      (bn' = bn ∨ bn' = with_left NULL bn ∨ bn' = with_right NULL bn);
  fp_gone : a ≠ buf → cells m' !! a = None;
  fp_root : a = buf → m' = marked m a n
}.

(** Whether the descent of [alloc_buf_node] finds a place for [size] units
    in the tree [t] of [sz] units: a free node that is large enough, or an
    absent child of a split node whose half is large enough. *)
Fixpoint has_room (size sz : Z) (t : atree) : bool :=
  match t with
  | ALeaf => true
  | ANode _ ty l r =>
      match ty with
      | NODE_TYPE_FREE => size <=? sz
      | NODE_TYPE_SPLIT =>
          (size <=? sz / 2) &&
          (has_room size (sz / 2) l || has_room size (sz / 2) r)
      | NODE_TYPE_OCCUPIED => false
      end
  end.

(** [malloc] returns an unused address and free nodes have no children:
    this holds between calls and for the nodes [buf_node_new] creates. *)
Definition tidy (m : mem) : Prop :=
  fresh_brk m ∧
  ∀ b bn, cells m !! b = Some bn → node_type bn = NODE_TYPE_FREE →
          node_left bn = None ∧ node_right bn = None.

(** A link [p] of a cell of [m] is found as [p1] later: the same, or a
    node created since in place of [NULL]. *)
Definition link_grown (m : mem) (p p1 : ptr) : Prop :=
  p1 = p ∨ (p = None ∧ ∃ x, p1 = Some x ∧ (brk m ≤ x)%nat).

Definition cell_grown (m : mem) (bn bn1 : BuddyNode) : Prop :=
  node_offset bn1 = node_offset bn ∧ node_size bn1 = node_size bn ∧
  node_parent bn1 = node_parent bn ∧
  (node_type bn ≠ NODE_TYPE_FREE → node_type bn1 = node_type bn) ∧
  link_grown m (node_left bn) (node_left bn1) ∧
  link_grown m (node_right bn) (node_right bn1).

(** What [alloc_buf_node] can have done to the store [m] when it has
    become [m1]: old cells keep their place and their links, new cells
    link to new cells only. *)
Record grows (m m1 : mem) : Prop := {
  gr_tidy : tidy m1;
  gr_brk : (brk m ≤ brk m1)%nat;
  gr_old : ∀ b bn, cells m !! b = Some bn →
    ∃ bn1, cells m1 !! b = Some bn1 ∧ cell_grown m bn bn1;
  gr_new : ∀ b bn1, cells m1 !! b = Some bn1 → cells m !! b = None →
    (brk m ≤ b)%nat ∧
    ∀ x, node_left bn1 = Some x ∨ node_right bn1 = Some x → (brk m ≤ x)%nat
}.

(** The run on 1024 units, continued: the block of 256 units is freed
    again. *)
Definition run5 : mem := freed (buddy_buf_free 11 run4 got4).

(** The number of units the nodes at the addresses [cs] cover. *)
Definition units (h : gmap nat BuddyNode) (cs : list nat) : Z :=
  foldr (λ c acc, match h !! c with Some n => node_size n | None => 0 end + acc)
        0 cs.

(** [slot off sz d x]: [x] is the offset of one of the partitions that
    [d] halvings cut out of the partition of [sz] units at [off]. *)
Fixpoint slot (off sz : Z) (d : nat) (x : Z) : Prop :=
  match d with
  | O => x = off
  | S d => slot off (sz / 2) d x ∨ slot (off + sz / 2) (sz / 2) d x
  end.

(** The range [x] overlaps one of the occupied partitions in [l]. *)
Definition blocked (l : list (nat * (Z * Z))) (x : Z * Z) : Prop :=
  ∃ e, e ∈ l ∧ ¬ apart x e.2.

(** * Lemmas *)

(** ** Basic facts about the store *)

Lemma bind_Ret {A B} (a : A) (f : A → result B) : (Ret a ≫= f) = f a.
Proof. reflexivity. Qed.

Lemma bind_inv {A B} (r : result A) (f : A → result B) (b : B) :
  (r ≫= f) = Ret b → ∃ a, r = Ret a ∧ f a = Ret b.
Proof. destruct r; simpl; intros H; try discriminate; eauto. Qed.

Lemma load_Some m a n : cells m !! a = Some n → load m (Some a) = Ret n.
Proof. intros H. unfold load. by rewrite H. Qed.

Lemma load_inv m p n :
  load m p = Ret n → ∃ a, p = Some a ∧ cells m !! a = Some n.
Proof.
  unfold load. destruct p as [a|]; [|discriminate].
  destruct (cells m !! a) eqn:E; [|discriminate].
  intros [= ->]. eauto.
Qed.

Lemma update_Some m a n f :
  cells m !! a = Some n →
  update m (Some a) f = Ret (mkMem (<[a := f n]> (cells m)) (brk m)).
Proof. intros H. unfold update. by rewrite (load_Some _ _ _ H). Qed.

Lemma update_inv m p f m' :
  update m p f = Ret m' →
  ∃ a n, p = Some a ∧ cells m !! a = Some n ∧
         m' = mkMem (<[a := f n]> (cells m)) (brk m).
Proof.
  unfold update. intros H. apply bind_inv in H as (n & Hl & H).
  apply load_inv in Hl as (a & -> & Hl). injection H as <-. eauto.
Qed.

Lemma buf_node_new_inv m p left m' c :
  buf_node_new m p left = Ret (m', c) →
  ∃ a n, p = Some a ∧ cells m !! a = Some n ∧ c = brk m ∧
    m' = mkMem (<[brk m :=
            mkNode NODE_TYPE_FREE
              (wrap (node_offset n + (if left then 0 else node_size n / 2)))
              (node_size n / 2) NULL NULL (Some a)]> (cells m)) (S (brk m)).
Proof.
  unfold buf_node_new. intros H. apply bind_inv in H as (n & Hl & H).
  apply load_inv in Hl as (a & -> & Hl). injection H as <- <-.
  exists a, n. done.
Qed.

Lemma buf_node_new_Some m a n left :
  cells m !! a = Some n →
  buf_node_new m (Some a) left =
    Ret (mkMem (<[brk m := fresh_node a n left]> (cells m)) (S (brk m)), brk m).
Proof. intros H. unfold buf_node_new. by rewrite (load_Some _ _ _ H). Qed.

Lemma wrap_id x : 0 ≤ x ≤ SIZE_MAX → wrap x = x.
Proof. intros H. unfold wrap. apply Z.mod_small. lia. Qed.

Lemma mfree_Some m a n :
  cells m !! a = Some n →
  mfree m (Some a) = Ret (mkMem (delete a (cells m)) (brk m)).
Proof. intros H. unfold mfree. by rewrite H. Qed.

(** ** A failed allocation leaves no trace *)

(** A free node that is large enough never reports failure. *)
Lemma alloc_free_node_fits fuel : ∀ m a n size out m' out' r,
  cells m !! a = Some n → node_type n = NODE_TYPE_FREE → size ≤ node_size n →
  alloc_buf_node fuel m (Some a) size out = Ret (m', out', r) → r = 1.
Proof.
  induction fuel as [|fuel IH]; intros m a n size out m' out' r Ha Hty Hsz H;
    [discriminate|].
  simpl in H. rewrite (load_Some _ _ _ Ha) in H. simpl in H. rewrite Hty in H.
  destruct (node_size n / 2 >=? size) eqn:Hhalf.
  - rewrite (update_Some _ _ _ _ Ha) in H. simpl in H.
    erewrite buf_node_new_Some in H by apply lookup_insert_eq. simpl in H.
    apply bind_inv in H as (m1 & Hu & H).
    apply update_inv in Hu as (b & nb & [= <-] & Hb & ->). simpl in *.
    apply Z.geb_le in Hhalf.
    destruct (decide (brk m = a)) as [Heq|Hne].
    + rewrite Heq in *. rewrite lookup_insert_eq in Hb. injection Hb as <-.
      eapply IH in H; [done|apply lookup_insert_eq|done|simpl; lia].
    + rewrite lookup_insert_ne, lookup_insert_eq in Hb by done.
      injection Hb as <-.
      eapply IH in H; [done| | |].
      * simpl. rewrite lookup_insert_ne by done. apply lookup_insert_eq.
      * done.
      * simpl. lia.
  - destruct (node_size n >=? size) eqn:Hfull.
    + rewrite (update_Some _ _ _ _ Ha) in H. simpl in H.
      erewrite load_Some in H by apply lookup_insert_eq. by injection H.
    + rewrite Z.geb_leb in Hfull. apply Z.leb_gt in Hfull. lia.
Qed.

(** Hence a child that is materialised for a request of at most half the
    parent's size is always allocated into. *)
Lemma alloc_new_child_fits fuel m a n (left : bool) size out m' out' r :
  cells m !! a = Some n → size ≤ node_size n / 2 →
  (buf_node_new m (Some a) left ≫= λ '(m1, new_node),
     update m1 (Some a)
       ((if left then with_left else with_right) (Some new_node)) ≫= λ m2,
     alloc_buf_node fuel m2 (Some new_node) size out) = Ret (m', out', r) →
  r = 1.
Proof.
  intros Ha Hsz H.
  rewrite (buf_node_new_Some _ _ _ _ Ha) in H. simpl in H.
  apply bind_inv in H as (m1 & Hu & H).
  apply update_inv in Hu as (b & nb & [= <-] & Hb & ->). simpl in *.
  destruct (decide (a = brk m)) as [->|Hne].
  - rewrite lookup_insert_eq in Hb. injection Hb as <-.
    eapply alloc_free_node_fits in H; [done|apply lookup_insert_eq| |].
    + by destruct left.
    + by destruct left.
  - eapply alloc_free_node_fits in H; [done| | |].
    + simpl. rewrite lookup_insert_ne by done. apply lookup_insert_eq.
    + done.
    + done.
Qed.

(** If [alloc_buf_node] returns 0, nothing was written: neither a node
    nor the caller's [*alloc]. *)
Lemma alloc_fail_unchanged fuel : ∀ m p size out m' out',
  alloc_buf_node fuel m p size out = Ret (m', out', 0) → m' = m ∧ out' = out.
Proof.
  induction fuel as [|fuel IH]; intros m p size out m' out' H; [discriminate|].
  simpl in H. apply bind_inv in H as (n & Hl & H).
  apply load_inv in Hl as (a & -> & Ha).
  destruct (node_type n) eqn:Hty.
  - destruct (node_size n / 2 >=? size) eqn:Hhalf.
    + rewrite (update_Some _ _ _ _ Ha) in H. simpl in H.
      apply Z.geb_le in Hhalf.
      apply (alloc_new_child_fits _ _ _ (with_type NODE_TYPE_SPLIT n) true)
        in H; [discriminate|apply lookup_insert_eq|done].
    + destruct (node_size n >=? size).
      * rewrite (update_Some _ _ _ _ Ha) in H. simpl in H.
        erewrite load_Some in H by apply lookup_insert_eq. discriminate.
      * by injection H as <- <-.
  - destruct (node_size n / 2 <? size) eqn:Hhalf; [by injection H as <- <-|].
    apply Z.ltb_ge in Hhalf.
    destruct (node_left n) as [l|] eqn:Hleft.
    + apply bind_inv in H as ([[m1 out1] r1] & H1 & H).
      destruct (r1 =? 0) eqn:Hr1; simpl in H; [|discriminate].
      apply Z.eqb_eq in Hr1 as ->.
      apply IH in H1 as [-> ->].
      rewrite (load_Some _ _ _ Ha) in H. simpl in H.
      destruct (node_right n) as [r|] eqn:Hright.
      * apply bind_inv in H as ([[m2 out2] r2] & H2 & H).
        destruct (r2 =? 0) eqn:Hr2; simpl in H; [|discriminate].
        apply Z.eqb_eq in Hr2 as ->.
        apply IH in H2 as [-> ->]. by injection H as <- <-.
      * by apply (alloc_new_child_fits _ _ _ n false) in H.
    + by apply (alloc_new_child_fits _ _ _ n true) in H.
  - by injection H as <- <-.
Qed.

(** ** Facts about the representation *)

Lemma depth_bound_half sz :
  1 ≤ sz / 2 → (S (depth_bound (sz / 2)) ≤ depth_bound sz)%nat.
Proof.
  intros H. unfold depth_bound.
  assert (2 ≤ sz) as Hsz by lia.
  assert (1 ≤ Z.log2 sz) as Hlog.
  { apply Z.log2_le_pow2; [lia|]. change (2 ^ 1) with 2. lia. }
  assert (Z.log2 (sz / 2) = Z.log2 sz - 1).
  { replace (sz / 2) with (Z.shiftr sz 1)
      by (rewrite Z.shiftr_div_pow2 by lia; reflexivity).
    rewrite Z.log2_shiftr by lia. lia. }
  assert (0 ≤ Z.log2 (sz / 2)) by apply Z.log2_nonneg.
  lia.
Qed.

Lemma rep_frame h h' par off sz t :
  rep h par off sz t → (∀ b, b ∈ addrs t → h' !! b = h !! b) →
  rep h' par off sz t.
Proof.
  revert par off sz. induction t as [|a ty l IHl r IHr]; intros par off sz;
    [done|].
  simpl. intros (Ha & Hl & Hr) Hf. split_and!.
  - rewrite Hf; [done|set_solver].
  - apply IHl; [done|]. intros b Hb. apply Hf. set_solver.
  - apply IHr; [done|]. intros b Hb. apply Hf. set_solver.
Qed.

Lemma rep_is_Some h par off sz t b :
  rep h par off sz t → b ∈ addrs t → is_Some (h !! b).
Proof.
  revert par off sz. induction t as [|a ty l IHl r IHr]; intros par off sz;
    simpl; [set_solver|].
  intros (Ha & Hl & Hr) Hb.
  apply elem_of_cons in Hb as [->|Hb]; [eauto|].
  apply elem_of_app in Hb as [Hb|Hb]; eauto.
Qed.

(** ** Specification of the allocation descent *)

(** The post-condition can be read against an earlier store, as long as
    the steps in between only touched the subtree. *)
Lemma alloc_post_transfer m0 t0 m par off sz size t m' al t' :
  alloc_post m par off sz size t m' al t' →
  root_ptr t = root_ptr t0 →
  (∀ b, b ∉ addrs t → cells m !! b = cells m0 !! b) →
  (∀ b, b ∈ addrs t0 → b ∈ addrs t) →
  (∀ b, b ∈ addrs t → b ∈ addrs t0 ∨ (brk m0 ≤ b)%nat) →
  (brk m0 ≤ brk m)%nat →
  occ off sz t = occ off sz t0 →
  alloc_post m0 par off sz size t0 m' al t'.
Proof.
  intros
    [ap_root0 ap_rep0 ap_nodup0 ap_below0 ap_brk0 ap_settled0 ap_frame0 ap_old0
     ap_new0 (c & Hc & Hp) ap_size0]
    Hroot Hfr Hold Hnew Hbrk Hocc.
  split; try done.
  - congruence.
  - lia.
  - intros b Hb. rewrite ap_frame0 by done. apply Hfr. naive_solver.
  - naive_solver.
  - intros b Hb. destruct (ap_new0 b Hb) as [H|H]; [|right; lia].
    naive_solver.
  - exists c. by rewrite <- Hocc.
Qed.

(** A successful descent into the left (right) child of a split node is a
    successful descent for the node itself. *)
Lemma graft_left m par off sz size a l r m' al l' :
  cells m !! a =
    Some (mkNode NODE_TYPE_SPLIT off sz (root_ptr l) (root_ptr r) par) →
  rep (cells m) (Some a) (off + sz / 2) (sz / 2) r →
  NoDup (a :: addrs l ++ addrs r) →
  (∀ b, b ∈ a :: addrs l ++ addrs r → (b < brk m)%nat) →
  settled r → is_Some (root_ptr l) →
  alloc_post m (Some a) off (sz / 2) size l m' al l' →
  alloc_post m par off sz size (ANode a NODE_TYPE_SPLIT l r)
    m' al (ANode a NODE_TYPE_SPLIT l' r).
Proof.
  intros Ha Hr Hnd Hlt Hsr Hsome
    [ap_root0 ap_rep0 ap_nodup0 ap_below0 ap_brk0 ap_settled0 ap_frame0 ap_old0
     ap_new0 (c & Hc & Hp) ap_size0].
  apply NoDup_cons in Hnd as [Hal Hnd].
  apply NoDup_app in Hnd as (Hndl & Hlr & Hndr).
  assert (Hout : ∀ b, (b < brk m)%nat → b ∉ addrs l → b ∉ addrs l').
  { intros b Hb Hbl Hbl'. destruct (ap_new0 b Hbl'); [done|lia]. }
  assert (Ha' : a ∉ addrs l').
  { apply Hout; [apply Hlt|]; set_solver. }
  assert (Hr' : ∀ b, b ∈ addrs r → b ∉ addrs l').
  { intros b Hb. apply Hout; [apply Hlt|]; set_solver. }
  split; simpl.
  - done.
  - split_and!; [|done|].
    + rewrite ap_frame0, ap_root0 by done. done.
    + eapply rep_frame; [done|]. intros b Hb. apply ap_frame0. auto.
  - apply NoDup_cons. split.
    + rewrite elem_of_app. intros [?|?]; [done|]. set_solver.
    + apply NoDup_app. split_and!; [done| |done].
      intros b Hb Hbr. by apply (Hr' b).
  - intros b Hb. apply elem_of_cons in Hb as [->|Hb].
    + pose proof (Hlt a ltac:(set_solver)). lia.
    + apply elem_of_app in Hb as [Hb|Hb]; [auto|].
      pose proof (Hlt b ltac:(set_solver)). lia.
  - done.
  - split_and!; [done|done|]. left. by rewrite ap_root0.
  - intros b Hb. apply ap_frame0. set_solver.
  - intros b. rewrite !elem_of_cons, !elem_of_app.
    intros [?|[?|?]]; auto.
  - intros b. rewrite !elem_of_cons, !elem_of_app.
    intros [?|[?|?]]; [naive_solver| |naive_solver].
    destruct (ap_new0 b); naive_solver.
  - exists c. split; [done|].
    by rewrite Hp.
  - done.
Qed.

Lemma graft_right m par off sz size a l r m' al r' :
  cells m !! a =
    Some (mkNode NODE_TYPE_SPLIT off sz (root_ptr l) (root_ptr r) par) →
  rep (cells m) (Some a) off (sz / 2) l →
  NoDup (a :: addrs l ++ addrs r) →
  (∀ b, b ∈ a :: addrs l ++ addrs r → (b < brk m)%nat) →
  settled l → is_Some (root_ptr r) →
  alloc_post m (Some a) (off + sz / 2) (sz / 2) size r m' al r' →
  alloc_post m par off sz size (ANode a NODE_TYPE_SPLIT l r)
    m' al (ANode a NODE_TYPE_SPLIT l r').
Proof.
  intros Ha Hl Hnd Hlt Hsl Hsome
    [ap_root0 ap_rep0 ap_nodup0 ap_below0 ap_brk0 ap_settled0 ap_frame0 ap_old0
     ap_new0 (c & Hc & Hp) ap_size0].
  apply NoDup_cons in Hnd as [Hal Hnd].
  apply NoDup_app in Hnd as (Hndl & Hlr & Hndr).
  assert (Hout : ∀ b, (b < brk m)%nat → b ∉ addrs r → b ∉ addrs r').
  { intros b Hb Hbl Hbl'. destruct (ap_new0 b Hbl'); [done|lia]. }
  assert (Ha' : a ∉ addrs r').
  { apply Hout; [apply Hlt|]; set_solver. }
  assert (Hl' : ∀ b, b ∈ addrs l → b ∉ addrs r').
  { intros b Hb. apply Hout; [apply Hlt|]; set_solver. }
  split; simpl.
  - done.
  - split_and!; [| |done].
    + rewrite ap_frame0, ap_root0 by done. done.
    + eapply rep_frame; [done|]. intros b Hb. apply ap_frame0. auto.
  - apply NoDup_cons. split.
    + rewrite elem_of_app. intros [?|?]; [|done]. set_solver.
    + apply NoDup_app. split_and!; [done| |done].
      intros b Hb Hbr. by apply (Hl' b).
  - intros b Hb. apply elem_of_cons in Hb as [->|Hb].
    + pose proof (Hlt a ltac:(set_solver)). lia.
    + apply elem_of_app in Hb as [Hb|Hb]; [|auto].
      pose proof (Hlt b ltac:(set_solver)). lia.
  - done.
  - split_and!; [done|done|]. right. by rewrite ap_root0.
  - intros b Hb. apply ap_frame0. set_solver.
  - intros b. rewrite !elem_of_cons, !elem_of_app.
    intros [?|[?|?]]; auto.
  - intros b. rewrite !elem_of_cons, !elem_of_app.
    intros [?|[?|?]]; [naive_solver|naive_solver|].
    destruct (ap_new0 b); naive_solver.
  - exists c. split; [done|].
    rewrite Hp. simpl. by rewrite Permutation_middle.
  - done.
Qed.

(** Materialising the absent left child of a split node and descending
    into it. *)
Lemma alloc_absent_left fuel m a par off sz r size out :
  alloc_ok fuel →
  cells m !! a = Some (mkNode NODE_TYPE_SPLIT off sz NULL (root_ptr r) par) →
  rep (cells m) (Some a) (off + sz / 2) (sz / 2) r →
  NoDup (a :: addrs r) →
  (∀ b, b ∈ a :: addrs r → (b < brk m)%nat) →
  settled r →
  1 ≤ size → size ≤ sz / 2 → 0 ≤ off → off + sz ≤ SIZE_MAX →
  (depth_bound sz ≤ S fuel)%nat →
  ∃ m' al l',
    (buf_node_new m (Some a) true ≫= λ '(m1, new_node),
       update m1 (Some a) (with_left (Some new_node)) ≫= λ m2,
       alloc_buf_node fuel m2 (Some new_node) size out) = Ret (m', al, 1) ∧
    alloc_post m par off sz size (ANode a NODE_TYPE_SPLIT ALeaf r)
      m' al (ANode a NODE_TYPE_SPLIT l' r).
Proof.
  intros IH Ha Hr Hnd Hlt Hsr Hsize Hhalf Hoff Hmax Hfuel.
  assert (Hac : a ≠ brk m) by (pose proof (Hlt a ltac:(set_solver)); lia).
  rewrite (buf_node_new_Some _ _ _ _ Ha). simpl.
  erewrite update_Some by (simpl; rewrite lookup_insert_ne by done; exact Ha).
  simpl. set (c := brk m) in *.
  set (n := mkNode NODE_TYPE_SPLIT off sz NULL (root_ptr r) par) in *.
  set (m2 := mkMem _ _).
  assert (Hfresh : fresh_node a n true
                   = mkNode NODE_TYPE_FREE off (sz / 2) NULL NULL (Some a)).
  { unfold fresh_node. simpl. rewrite Z.add_0_r, wrap_id by lia. done. }
  assert (Hc2 : cells m2 !! c
                = Some (mkNode NODE_TYPE_FREE off (sz / 2) NULL NULL (Some a))).
  { simpl. rewrite lookup_insert_ne by done.
    rewrite lookup_insert_eq. by rewrite Hfresh. }
  assert (Hfr : ∀ b, b ≠ a → b ≠ c → cells m2 !! b = cells m !! b).
  { intros b ??. simpl. by rewrite !lookup_insert_ne. }
  assert (Hcr : c ∉ addrs r).
  { intros Hin. pose proof (Hlt c ltac:(set_solver)). lia. }
  apply NoDup_cons in Hnd as [Har Hndr].
  set (lc := ANode c NODE_TYPE_FREE ALeaf ALeaf).
  destruct (IH c NODE_TYPE_FREE ALeaf ALeaf m2 (Some a) off (sz / 2) size out)
    as [Hfail|(m' & al & l' & Hok & Hpost)].
  { split; simpl; try lia.
    - done.
    - apply NoDup_singleton.
    - intros b Hb. apply list_elem_of_singleton in Hb as ->. lia.
    - right. by exists c. }
  { done. }
  { pose proof (depth_bound_half sz). lia. }
  { eapply alloc_free_node_fits in Hfail; [discriminate|exact Hc2|done|].
    simpl. lia. }
  exists m', al, l'. split; [done|].
  apply (alloc_post_transfer m (ANode a NODE_TYPE_SPLIT ALeaf r) m2 _ _ _ _
           (ANode a NODE_TYPE_SPLIT lc r)).
  - apply graft_left; try done.
    + simpl. by rewrite lookup_insert_eq.
    + eapply rep_frame; [exact Hr|]. intros b Hb. apply Hfr; set_solver.
    + simpl. apply NoDup_cons. split; [set_solver|].
      apply NoDup_cons. split; [done|done].
    + intros b Hb. simpl in *.
      apply elem_of_cons in Hb as [->|Hb]; [pose proof (Hlt a); set_solver by lia|].
      apply elem_of_cons in Hb as [->|Hb]; [lia|].
      pose proof (Hlt b ltac:(set_solver)). lia.
  - done.
  - intros b Hb. apply Hfr; set_solver.
  - set_solver.
  - intros b. simpl. rewrite !elem_of_cons.
    intros [?|[?|?]]; [auto| |auto]. right. subst b. unfold c. lia.
  - simpl. lia.
  - done.
Qed.

(** The same for the right child. *)
Lemma alloc_absent_right fuel m a par off sz l size out :
  alloc_ok fuel →
  cells m !! a = Some (mkNode NODE_TYPE_SPLIT off sz (root_ptr l) NULL par) →
  rep (cells m) (Some a) off (sz / 2) l →
  NoDup (a :: addrs l) →
  (∀ b, b ∈ a :: addrs l → (b < brk m)%nat) →
  settled l →
  1 ≤ size → size ≤ sz / 2 → 0 ≤ off → off + sz ≤ SIZE_MAX →
  (depth_bound sz ≤ S fuel)%nat →
  ∃ m' al r',
    (buf_node_new m (Some a) false ≫= λ '(m1, new_node),
       update m1 (Some a) (with_right (Some new_node)) ≫= λ m2,
       alloc_buf_node fuel m2 (Some new_node) size out) = Ret (m', al, 1) ∧
    alloc_post m par off sz size (ANode a NODE_TYPE_SPLIT l ALeaf)
      m' al (ANode a NODE_TYPE_SPLIT l r').
Proof.
  intros IH Ha Hl Hnd Hlt Hsl Hsize Hhalf Hoff Hmax Hfuel.
  assert (Hac : a ≠ brk m) by (pose proof (Hlt a ltac:(set_solver)); lia).
  rewrite (buf_node_new_Some _ _ _ _ Ha). simpl.
  erewrite update_Some by (simpl; rewrite lookup_insert_ne by done; exact Ha).
  simpl. set (c := brk m) in *.
  set (n := mkNode NODE_TYPE_SPLIT off sz (root_ptr l) NULL par) in *.
  set (m2 := mkMem _ _).
  assert (Hfresh : fresh_node a n false
            = mkNode NODE_TYPE_FREE (off + sz / 2) (sz / 2) NULL NULL (Some a)).
  { unfold fresh_node. simpl. rewrite wrap_id by lia. done. }
  assert (Hc2 : cells m2 !! c
     = Some (mkNode NODE_TYPE_FREE (off + sz / 2) (sz / 2) NULL NULL (Some a))).
  { simpl. rewrite lookup_insert_ne by done.
    rewrite lookup_insert_eq. by rewrite Hfresh. }
  assert (Hfr : ∀ b, b ≠ a → b ≠ c → cells m2 !! b = cells m !! b).
  { intros b ??. simpl. by rewrite !lookup_insert_ne. }
  assert (Hcl : c ∉ addrs l).
  { intros Hin. pose proof (Hlt c ltac:(set_solver)). lia. }
  apply NoDup_cons in Hnd as [Hal Hndl].
  set (rc := ANode c NODE_TYPE_FREE ALeaf ALeaf).
  destruct (IH c NODE_TYPE_FREE ALeaf ALeaf m2 (Some a) (off + sz / 2)
              (sz / 2) size out)
    as [Hfail|(m' & al & r' & Hok & Hpost)].
  { split; simpl; try lia.
    - done.
    - apply NoDup_singleton.
    - intros b Hb. apply list_elem_of_singleton in Hb as ->. lia.
    - right. by exists c. }
  { done. }
  { pose proof (depth_bound_half sz). lia. }
  { eapply alloc_free_node_fits in Hfail; [discriminate|exact Hc2|done|].
    simpl. lia. }
  exists m', al, r'. split; [done|].
  apply (alloc_post_transfer m (ANode a NODE_TYPE_SPLIT l ALeaf) m2 _ _ _ _
           (ANode a NODE_TYPE_SPLIT l rc)).
  - apply graft_right; try done.
    + simpl. by rewrite lookup_insert_eq.
    + eapply rep_frame; [exact Hl|]. intros b Hb. apply Hfr; set_solver.
    + simpl. apply NoDup_cons. split; [set_solver|].
      apply NoDup_app. split_and!; [done|set_solver|apply NoDup_singleton].
    + intros b Hb. simpl in *.
      apply elem_of_cons in Hb as [->|Hb]; [pose proof (Hlt a); set_solver by lia|].
      apply elem_of_app in Hb as [Hb|Hb];
        [pose proof (Hlt b ltac:(set_solver)); lia|].
      apply list_elem_of_singleton in Hb as ->. lia.
  - done.
  - intros b Hb. apply Hfr; set_solver.
  - set_solver.
  - intros b. simpl. rewrite !elem_of_cons, !elem_of_app.
    rewrite list_elem_of_singleton.
    intros [?|[?|?]]; [auto|auto|]. right. subst b. unfold c. lia.
  - simpl. lia.
  - simpl. by rewrite !app_nil_r.
Qed.

Lemma settled_not_free_leaf a ty l r :
  settled (ANode a ty l r) ∨ free_leaf (ANode a ty l r) →
  match ty with
  | NODE_TYPE_FREE => l = ALeaf ∧ r = ALeaf
  | NODE_TYPE_SPLIT => settled l ∧ settled r
  | NODE_TYPE_OCCUPIED => l = ALeaf ∧ r = ALeaf
  end.
Proof.
  intros [H|(b & H)].
  - destruct ty; simpl in H; tauto.
  - by injection H as -> -> -> ->.
Qed.

Lemma alloc_ok_all fuel : alloc_ok fuel.
Proof.
  induction fuel as [|fuel IH]; intros a ty l r m par off sz size out
    [Hrep Hnd Hlt Hshape Hoff Hsz Hmax] Hsize Hfuel.
  { unfold depth_bound in Hfuel. lia. }
  destruct Hrep as (Ha & Hl & Hr).
  apply settled_not_free_leaf in Hshape.
  simpl alloc_buf_node. rewrite (load_Some _ _ _ Ha). simpl.
  destruct ty.
  - (* NODE_TYPE_FREE *)
    destruct Hshape as [-> ->]. simpl in *.
    destruct (sz / 2 >=? size) eqn:Hhalf.
    + apply Z.geb_le in Hhalf.
      rewrite (update_Some _ _ _ _ Ha). simpl.
      set (m1 := mkMem _ _).
      destruct (alloc_absent_left fuel m1 a par off sz ALeaf size out)
        as (m' & al & l' & Heq & Hpost); try done.
      { simpl. by rewrite lookup_insert_eq. }
      simpl in Heq. rewrite Heq. right. eexists m', al, _. split; [done|].
      eapply alloc_post_transfer; [exact Hpost|done| |done|auto|done|done].
      intros b Hb. simpl. apply lookup_insert_ne. set_solver.
    + destruct (sz >=? size) eqn:Hfull; [|by left].
      apply Z.geb_le in Hfull.
      rewrite (update_Some _ _ _ _ Ha). simpl.
      erewrite load_Some by apply lookup_insert_eq. simpl.
      right. eexists _, _, (ANode a NODE_TYPE_OCCUPIED ALeaf ALeaf).
      split; [done|]. split; simpl; try done.
      * by rewrite lookup_insert_eq.
      * intros b Hb. apply lookup_insert_ne. set_solver.
      * auto.
      * by exists a.
  - (* NODE_TYPE_SPLIT *)
    destruct Hshape as [Hsl Hsr].
    destruct (sz / 2 <? size) eqn:Hhalf; [by left|].
    apply Z.ltb_ge in Hhalf.
    assert (Hfuel' : (depth_bound (sz / 2) ≤ fuel)%nat).
    { pose proof (depth_bound_half sz). lia. }
    pose proof Hnd as Hnd0.
    simpl in Hnd. apply NoDup_cons in Hnd as [Hal Hnd].
    apply NoDup_app in Hnd as (Hndl & Hlr & Hndr).
    destruct l as [|la tyl ll lr]; simpl.
    + destruct (alloc_absent_left fuel m a par off sz r size out)
        as (m' & al & l' & Heq & Hpost); try done.
      simpl in Heq. rewrite Heq. right. by eexists m', al, _.
    + destruct (IH la tyl ll lr m (Some a) off (sz / 2) size out)
        as [Hfail|(m' & al & l' & Heq & Hpost)]; [|done|done|..].
      { split; try done; [|by left|lia..].
        intros b Hb. apply Hlt. set_solver. }
      * rewrite Hfail. simpl. rewrite (load_Some _ _ _ Ha). simpl.
        destruct r as [|ra tyr rl rr]; simpl.
        -- destruct (alloc_absent_right fuel m a par off sz
                       (ANode la tyl ll lr) size out)
             as (m' & al & r' & Heq & Hpost); try done.
           { simpl in Hnd0. by rewrite app_nil_r in Hnd0. }
           { intros b Hb. apply Hlt. set_solver. }
           simpl in Heq. rewrite Heq. right. by eexists m', al, _.
        -- destruct (IH ra tyr rl rr m (Some a) (off + sz / 2) (sz / 2)
                       size out)
             as [Hfail2|(m' & al & r' & Heq & Hpost)]; [|done|done|..].
           { split; try done; [|by left|lia..].
             intros b Hb. apply Hlt. set_solver. }
           ++ rewrite Hfail2. simpl. by left.
           ++ rewrite Heq. simpl. right. eexists m', al, _. split; [done|].
              by apply graft_right.
      * rewrite Heq. simpl. right. eexists m', al, _. split; [done|].
        by apply graft_left.
  - (* NODE_TYPE_OCCUPIED *)
    by left.
Qed.

(** ** Specification of [destroy_buf_node] *)

Lemma destroy_spec t : ∀ fuel m q qn off sz,
  (height t ≤ fuel)%nat →
  rep (cells m) (Some q) off sz t → NoDup (addrs t) → q ∉ addrs t →
  cells m !! q = Some qn →
  ∃ m',
    match root_ptr t with
    | Some _ => destroy_buf_node fuel m (root_ptr t)
    | None => Ret m
    end = Ret m' ∧
    destroy_post m t q qn m'.
Proof.
  induction t as [|a ty l IHl r IHr]; intros fuel m q qn off sz Hfuel Hrep Hnd
    Hq Hqn; simpl.
  { exists m. split; [done|]. split; simpl; [done|set_solver|done|done]. }
  destruct fuel as [|fuel]; [simpl in Hfuel; lia|].
  simpl in Hfuel. destruct Hrep as (Ha & Hl & Hr).
  apply NoDup_cons in Hnd as [Hal Hnd].
  apply NoDup_app in Hnd as (Hndl & Hlr & Hndr).
  rewrite elem_of_app in Hal.
  assert (Hqa : q ≠ a) by set_solver.
  set (n := mkNode ty off sz (root_ptr l) (root_ptr r) (Some q)) in *.
  simpl. rewrite (load_Some _ _ _ Ha). simpl.
  (* the left subtree *)
  destruct (IHl fuel m a n off (sz / 2)) as (m1 & -> & [Hb1 Hg1 Hp1 Hf1]);
    [lia|done|done|tauto|done|].
  simpl. rewrite (load_Some _ _ _ Hp1). simpl.
  set (n1 := unlink (root_ptr l) n) in *.
  assert (Hn1 : node_left n1 = None ∧ node_right n1 = root_ptr r ∧
                node_parent n1 = Some q).
  { unfold n1, unlink. destruct (root_ptr l) eqn:E; [|done].
    by rewrite bool_decide_eq_true_2. }
  destruct Hn1 as (Hn1l & Hn1r & Hn1p). rewrite Hn1r.
  (* the right subtree *)
  destruct (IHr fuel m1 a n1 (off + sz / 2) (sz / 2))
    as (m2 & -> & [Hb2 Hg2 Hp2 Hf2]); [lia| |done|tauto|done|].
  { eapply rep_frame; [exact Hr|]. intros b Hb. apply Hf1; [|set_solver].
    intros Hbl. by apply (Hlr b). }
  simpl. rewrite (load_Some _ _ _ Hp2). simpl.
  set (n2 := unlink (root_ptr r) n1) in *.
  assert (Hn2 : node_parent n2 = Some q).
  { unfold n2, unlink. destruct (root_ptr r); [|done]. by case_bool_decide. }
  rewrite Hn2.
  (* unlink from the parent and release *)
  assert (Hq2 : cells m2 !! q = Some qn).
  { rewrite Hf2, Hf1 by set_solver. done. }
  rewrite (load_Some _ _ _ Hq2). simpl.
  assert (Hup : (if bool_decide (node_left qn = Some a)
                 then update m2 (Some q) (with_left NULL)
                 else update m2 (Some q) (with_right NULL))
                = Ret (mkMem (<[q := unlink (Some a) qn]> (cells m2)) (brk m2))).
  { unfold unlink. case_bool_decide; by rewrite (update_Some _ _ _ _ Hq2). }
  rewrite Hup. simpl.
  erewrite mfree_Some by (simpl; rewrite lookup_insert_ne by done; exact Hp2).
  eexists. split; [done|]. split; simpl.
  - congruence.
  - intros b Hb. apply elem_of_cons in Hb as [->|Hb].
    { apply lookup_delete_eq. }
    rewrite lookup_delete_ne by set_solver.
    rewrite lookup_insert_ne by set_solver.
    apply elem_of_app in Hb as [Hb|Hb]; [|by apply Hg2].
    rewrite Hf2; [by apply Hg1| |set_solver].
    intros Hbr. by apply (Hlr b).
  - rewrite lookup_delete_ne by done. apply lookup_insert_eq.
  - intros b Hb Hbq. rewrite lookup_delete_ne by set_solver.
    rewrite lookup_insert_ne by done.
    rewrite Hf2, Hf1 by set_solver. done.
Qed.

(** ** More fuel never changes a result *)

Lemma res_le_refl {A} (r : result A) : res_le r r.
Proof. by intros a. Qed.

Lemma res_le_bind {A B} (r r' : result A) (k k' : A → result B) :
  res_le r r' → (∀ a, res_le (k a) (k' a)) → res_le (r ≫= k) (r' ≫= k').
Proof.
  intros Hr Hk b H. apply bind_inv in H as (a & Ha & H).
  rewrite (Hr _ Ha). simpl. by apply Hk.
Qed.

Ltac res_le_step IH :=
  first
    [ apply res_le_refl
    | apply IH; lia
    | apply res_le_bind; [|intros ?]
    | match goal with
      | |- res_le (match ?x with _ => _ end) _ => destruct x
      end ].

Lemma destroy_buf_node_mono fuel : ∀ fuel' m p,
  (fuel ≤ fuel')%nat →
  res_le (destroy_buf_node fuel m p) (destroy_buf_node fuel' m p).
Proof.
  induction fuel as [|fuel IH]; intros fuel' m p Hle; [by intros ?|].
  destruct fuel' as [|fuel']; [lia|]. simpl.
  repeat res_le_step IH.
Qed.

Lemma alloc_buf_node_mono fuel : ∀ fuel' m p size out,
  (fuel ≤ fuel')%nat →
  res_le (alloc_buf_node fuel m p size out)
         (alloc_buf_node fuel' m p size out).
Proof.
  induction fuel as [|fuel IH]; intros fuel' m p size out Hle; [by intros ?|].
  destruct fuel' as [|fuel']; [lia|]. simpl.
  repeat res_le_step IH.
Qed.

Lemma node_update_mono fuel : ∀ fuel' m p,
  (fuel ≤ fuel')%nat →
  res_le (node_update fuel m p) (node_update fuel' m p).
Proof.
  induction fuel as [|fuel IH]; intros fuel' m p Hle; [by intros ?|].
  destruct fuel' as [|fuel']; [lia|]. simpl.
  repeat first [ apply destroy_buf_node_mono; lia | res_le_step IH ].
Qed.

(** ** Specification of the upward fix-up *)

Lemma null_or_free_None m : null_or_free m NULL = Ret true.
Proof. reflexivity. Qed.

Lemma null_or_free_Some m c cn :
  cells m !! c = Some cn →
  null_or_free m (Some c) = Ret (bool_decide (node_type cn = NODE_TYPE_FREE)).
Proof. intros H. unfold null_or_free. by rewrite (load_Some _ _ _ H). Qed.

Lemma node_update_null fuel m : node_update (S fuel) m NULL = Crash.
Proof. reflexivity. Qed.

Lemma node_update_free_root fuel m a n :
  cells m !! a = Some n → node_type n = NODE_TYPE_FREE →
  node_parent n = None →
  node_update (S fuel) m (Some a) = Ret m.
Proof.
  intros Ha Hty Hp. simpl. rewrite (load_Some _ _ _ Ha). simpl.
  by rewrite Hty, Hp.
Qed.

Lemma node_update_free_child fuel m a n q qn :
  cells m !! a = Some n → node_type n = NODE_TYPE_FREE →
  node_parent n = Some q → cells m !! q = Some qn →
  node_left qn = Some a ∨ node_right qn = Some a →
  node_update (S fuel) m (Some a) =
    destroy_buf_node fuel m (Some a) ≫= λ m', node_update fuel m' (Some q).
Proof.
  intros Ha Hty Hp Hq Hlink. simpl. rewrite (load_Some _ _ _ Ha). simpl.
  rewrite Hty, Hp. rewrite (load_Some _ _ _ Hq). simpl.
  case_bool_decide as Hl.
  - by rewrite Hl.
  - destruct Hlink as [? | ->]; done.
Qed.

Lemma node_update_split fuel m b n :
  cells m !! b = Some n → node_type n = NODE_TYPE_SPLIT →
  node_update (S fuel) m (Some b) =
    cl ← null_or_free m (node_left n);
    can_coalesce ← (if (cl : bool) then null_or_free m (node_right n)
                    else Ret false);
    if (can_coalesce : bool) then
      m' ← destroy_buf_node fuel m (Some b);
      node_update fuel m' (node_parent n)
    else Ret m.
Proof.
  intros Hb Hty. simpl. rewrite (load_Some _ _ _ Hb). simpl. by rewrite Hty.
Qed.

Lemma destroy_childless_root fuel m b n :
  cells m !! b = Some n → node_left n = None → node_right n = None →
  node_parent n = None →
  destroy_buf_node (S fuel) m (Some b) = Ret m.
Proof.
  intros Hb Hl Hr Hp. simpl. rewrite (load_Some _ _ _ Hb). simpl.
  rewrite Hl. simpl. rewrite (load_Some _ _ _ Hb). simpl.
  rewrite Hr. simpl. rewrite (load_Some _ _ _ Hb). simpl. by rewrite Hp.
Qed.

Lemma pending_root a t : pending a t → ∃ b ty l r, t = ANode b ty l r.
Proof. destruct 1; eauto. Qed.

Lemma pending_in a t : pending a t → a ∈ addrs t.
Proof. induction 1; simpl; set_solver. Qed.

Lemma ascent_here a m par off sz :
  let t := ANode a NODE_TYPE_FREE ALeaf ALeaf in
  rep (cells m) par off sz t → linked m par t →
  ascent_stop a m par off sz t 1 ∨ ascent_exit a m par off sz t 1.
Proof.
  intros t (Ha & _ & _) Hlink. simpl in Ha.
  destruct par as [q|].
  - right. destruct Hlink as (Hq & qn & Hqn & Hl). split; [done|].
    destruct (destroy_spec t 1 m q qn off sz) as (m' & Hd & Hpost);
      [simpl; lia|by split|apply NoDup_singleton|done|done|].
    simpl in Hd. exists qn, m'. split_and!; [done| |done].
    intros f Hf. change (1 + f)%nat with (S f).
    erewrite node_update_free_child by done.
    apply (destroy_buf_node_mono 1 f) in Hd; [|lia]. by rewrite Hd.
  - left. exists m, t. split.
    + intros f. change (1 + f)%nat with (S f).
      by erewrite node_update_free_root.
    + split; try done.
      * right. split; [done|]. by exists a.
      * apply NoDup_singleton.
      * intros b Hb. apply list_elem_of_singleton in Hb as ->. eauto.
Qed.

(** A split node with a child that is not free is left alone. *)
Lemma node_update_split_busy fuel m b n c cn :
  cells m !! b = Some n → node_type n = NODE_TYPE_SPLIT →
  cells m !! c = Some cn → node_type cn ≠ NODE_TYPE_FREE →
  node_left n = Some c ∨
  (node_right n = Some c ∧
   (node_left n = None ∨ ∃ l ln, node_left n = Some l ∧ cells m !! l = Some ln)) →
  node_update (S fuel) m (Some b) = Ret m.
Proof.
  intros Hb Hty Hc Hcn Hlink. rewrite (node_update_split _ _ _ _ Hb Hty).
  destruct Hlink as [Hl|[Hr [Hl|(l & ln & Hl & Hln)]]]; rewrite Hl.
  - rewrite (null_or_free_Some _ _ _ Hc). simpl.
    by rewrite bool_decide_eq_false_2.
  - rewrite null_or_free_None. simpl. rewrite Hr.
    rewrite (null_or_free_Some _ _ _ Hc). simpl.
    by rewrite bool_decide_eq_false_2.
  - rewrite (null_or_free_Some _ _ _ Hln). simpl.
    destruct (bool_decide (node_type ln = NODE_TYPE_FREE)); [|done].
    rewrite Hr. rewrite (null_or_free_Some _ _ _ Hc). simpl.
    by rewrite bool_decide_eq_false_2.
Qed.

(** A split node without children is released; the fix-up goes on above
    it, also when there is nothing above. *)
Lemma node_update_split_alone m b par off sz :
  let t := ANode b NODE_TYPE_SPLIT ALeaf ALeaf in
  rep (cells m) par off sz t → linked m par t →
  match par with
  | Some q =>
      ∃ qn m', cells m !! q = Some qn ∧
        (∀ f, (1 ≤ f)%nat →
           node_update (S f) m (Some b) = node_update f m' (Some q)) ∧
        destroy_post m t q qn m'
  | None =>
      ∀ f, (1 ≤ f)%nat → node_update (S f) m (Some b) = node_update f m NULL
  end.
Proof.
  intros t Hrep Hlink. pose proof Hrep as (Hb & _ & _). simpl in Hb.
  assert (Hstep : ∀ f, node_update (S f) m (Some b) =
            destroy_buf_node f m (Some b) ≫= λ m', node_update f m' par).
  { intros f. erewrite node_update_split; [|done|done]. by simpl. }
  destruct par as [q|].
  - destruct Hlink as (Hq & qn & Hqn & _).
    destruct (destroy_spec t 1 m q qn off sz) as (m' & Hd & Hpost);
      [simpl; lia|done|apply NoDup_singleton|done|done|].
    simpl in Hd. exists qn, m'. split_and!; [done| |done].
    intros f Hf. rewrite Hstep.
    apply (destroy_buf_node_mono 1 f) in Hd; [|lia]. by rewrite Hd.
  - intros f Hf. rewrite Hstep. destruct f as [|f]; [lia|].
    by erewrite destroy_childless_root.
Qed.

Lemma ascent_stop_left a b l r m par off sz k :
  let t := ANode b NODE_TYPE_SPLIT l r in
  rep (cells m) par off sz t → NoDup (addrs t) → settled r →
  is_Some (root_ptr l) →
  ascent_stop a m (Some b) off (sz / 2) l k →
  ascent_stop a m par off sz t (S k).
Proof.
  intros t (Hb & Hl & Hr) Hnd Hsr Hsome (m' & l' & Heq & Hsp).
  destruct Hsp as [Hroot Hrep Hshape Hnd' Hsub Hbrk Hframe Hgone Hcell Hocc].
  simpl in Hnd. apply NoDup_cons in Hnd as [Hbl Hnd].
  apply NoDup_app in Hnd as (Hndl & Hlr & Hndr).
  rewrite elem_of_app in Hbl.
  exists m', (ANode b NODE_TYPE_SPLIT l' r). split.
  { intros f. rewrite Nat.add_succ_comm. apply Heq. }
  split; simpl.
  - done.
  - split_and!; [|done|].
    + rewrite Hframe, Hroot by tauto. done.
    + eapply rep_frame; [exact Hr|]. intros x Hx. apply Hframe.
      intros Hxl. by apply (Hlr x).
  - left. split_and!; [by destruct Hshape as [?|[? _]]|done|].
    left. by rewrite Hroot.
  - apply NoDup_cons. split.
    + rewrite elem_of_app. intros [?|?]; [|tauto]. apply Hbl. auto.
    + apply NoDup_app. split_and!; [done| |done].
      intros x Hx. apply Hlr. auto.
  - intros x. rewrite !elem_of_cons, !elem_of_app. intros [?|[?|?]]; auto.
  - done.
  - intros x Hx. apply Hframe. set_solver.
  - intros x Hx Hx'. apply Hgone; set_solver.
  - intros x Hx. apply elem_of_cons in Hx as [->|Hx].
    { eexists. split; [exact Hb|]. left. rewrite Hframe by tauto. done. }
    apply elem_of_app in Hx as [Hx|Hx]; [by apply Hcell|].
    destruct (rep_is_Some _ _ _ _ _ x Hr Hx) as [n Hn].
    exists n. split; [done|]. left. rewrite Hframe; [done|].
    intros Hxl. by apply (Hlr x).
  - by rewrite Hocc.
Qed.

Lemma ascent_stop_right a b l r m par off sz k :
  let t := ANode b NODE_TYPE_SPLIT l r in
  rep (cells m) par off sz t → NoDup (addrs t) → settled l →
  is_Some (root_ptr r) →
  ascent_stop a m (Some b) (off + sz / 2) (sz / 2) r k →
  ascent_stop a m par off sz t (S k).
Proof.
  intros t (Hb & Hl & Hr) Hnd Hsl Hsome (m' & r' & Heq & Hsp).
  destruct Hsp as [Hroot Hrep Hshape Hnd' Hsub Hbrk Hframe Hgone Hcell Hocc].
  simpl in Hnd. apply NoDup_cons in Hnd as [Hbl Hnd].
  apply NoDup_app in Hnd as (Hndl & Hlr & Hndr).
  rewrite elem_of_app in Hbl.
  exists m', (ANode b NODE_TYPE_SPLIT l r'). split.
  { intros f. rewrite Nat.add_succ_comm. apply Heq. }
  split; simpl.
  - done.
  - split_and!; [| |done].
    + rewrite Hframe, Hroot by tauto. done.
    + eapply rep_frame; [exact Hl|]. intros x Hx. apply Hframe.
      intros Hxr. by apply (Hlr x).
  - left. split_and!; [done|by destruct Hshape as [?|[? _]]|].
    right. by rewrite Hroot.
  - apply NoDup_cons. split.
    + rewrite elem_of_app. intros [?|?]; [tauto|]. apply Hbl. auto.
    + apply NoDup_app. split_and!; [done| |done].
      intros x Hx Hx'. apply (Hlr x); auto.
  - intros x. rewrite !elem_of_cons, !elem_of_app. intros [?|[?|?]]; auto.
  - done.
  - intros x Hx. apply Hframe. set_solver.
  - intros x Hx Hx'. apply Hgone; set_solver.
  - intros x Hx. apply elem_of_cons in Hx as [->|Hx].
    { eexists. split; [exact Hb|]. left. rewrite Hframe by tauto. done. }
    apply elem_of_app in Hx as [Hx|Hx]; [|by apply Hcell].
    destruct (rep_is_Some _ _ _ _ _ x Hl Hx) as [n Hn].
    exists n. split; [done|]. left. rewrite Hframe; [done|].
    intros Hxr. by apply (Hlr x).
  - by rewrite Hocc.
Qed.

Lemma settled_root_not_free a ty l r :
  settled (ANode a ty l r) → ty ≠ NODE_TYPE_FREE.
Proof. by destruct ty. Qed.

Lemma ascent_exit_left a b l r m par off sz k :
  let t := ANode b NODE_TYPE_SPLIT l r in
  rep (cells m) par off sz t → NoDup (addrs t) → linked m par t →
  settled r → is_Some (root_ptr l) →
  ascent_exit a m (Some b) off (sz / 2) l k →
  ascent_stop a m par off sz t (S k) ∨ ascent_exit a m par off sz t (S k).
Proof.
  intros t (Hb & Hl & Hr) Hnd Hlink Hsr [la Hla]
    (Hocc & qn & m1 & Hqn & Heq & [Hbrk Hgone Hpar Hframe]).
  rewrite Hb in Hqn. injection Hqn as <-.
  rewrite Hla in Hb, Hpar. unfold unlink in Hpar. simpl in Hpar.
  rewrite bool_decide_eq_true_2 in Hpar by done.
  unfold with_left in Hpar. simpl in Hpar.
  simpl in Hnd. apply NoDup_cons in Hnd as [Hbl Hnd].
  apply NoDup_app in Hnd as (Hndl & Hlr & Hndr).
  rewrite elem_of_app in Hbl.
  destruct r as [|rb tyr rl rr].
  - (* no sibling: the node is released as well *)
    right. set (tb := ANode b NODE_TYPE_SPLIT ALeaf ALeaf).
    assert (Hrep1 : rep (cells m1) par off sz tb) by (by split).
    assert (Hlink1 : linked m1 par tb).
    { destruct par as [q|]; [|done].
      destruct Hlink as (Hq & qn & Hqn & Hlk). simpl in Hq.
      split; [set_solver|]. exists qn. split; [|done].
      rewrite Hframe; set_solver. }
    pose proof (node_update_split_alone m1 b par off sz Hrep1 Hlink1) as Hstep.
    split; [simpl; by rewrite Hocc|].
    destruct par as [q|].
    + destruct Hstep as (qn & m2 & Hqn & Heq2 & [Hbrk2 Hgone2 Hpar2 Hframe2]).
      destruct Hlink as (Hq & _). simpl in Hq.
      exists qn, m2. split_and!.
      * rewrite <- Hqn. symmetry. apply Hframe; set_solver.
      * intros f Hf. rewrite Nat.add_succ_comm, Heq by lia. by apply Heq2.
      * split; simpl.
        -- congruence.
        -- intros x Hx. destruct (decide (x = b)) as [->|Hxb].
           { apply Hgone2. set_solver. }
           rewrite Hframe2 by set_solver. apply Hgone. set_solver.
        -- done.
        -- intros x Hx Hxq. rewrite Hframe2 by set_solver.
           apply Hframe; set_solver.
    + exists m1. intros f Hf.
      rewrite Nat.add_succ_comm, Heq by lia. by apply Hstep.
  - (* the sibling is in use: the fix-up stops here *)
    left. destruct Hr as (Hrb & Hrl & Hrr).
    assert (Hrb1 : cells m1 !! rb = cells m !! rb).
    { apply Hframe; [|set_solver]. intros Hx. apply (Hlr rb Hx). set_solver. }
    exists m1, (ANode b NODE_TYPE_SPLIT ALeaf (ANode rb tyr rl rr)). split.
    { intros f. rewrite Nat.add_succ_comm, Heq by lia.
      eapply (node_update_split_busy _ _ _ _ rb); [exact Hpar|done| | |].
      - by rewrite Hrb1.
      - simpl. by eapply settled_root_not_free.
      - right. by split; [|left]. }
    assert (Hfr : ∀ x, x ∈ addrs (ANode rb tyr rl rr) →
                       cells m1 !! x = cells m !! x).
    { intros x Hx. apply Hframe; [|set_solver].
      intros Hxl. by apply (Hlr x). }
    split.
    + done.
    + split_and!; [done|done|].
      eapply rep_frame; [by split_and!|done].
    + left. split_and!; [done|done|]. right. by eexists.
    + simpl. apply NoDup_cons. split; [tauto|done].
    + intros x. simpl. rewrite !elem_of_cons, !elem_of_app, !elem_of_cons.
      rewrite !elem_of_app. tauto.
    + done.
    + intros x Hx. apply Hframe; set_solver.
    + intros x Hx Hx'. apply Hgone. set_solver.
    + intros x Hx. change (x ∈ b :: addrs (ANode rb tyr rl rr)) in Hx.
      apply elem_of_cons in Hx as [->|Hx].
      { eexists. split; [exact Hb|]. right; left. exact Hpar. }
      destruct (rep_is_Some (cells m) (Some b) (off + sz / 2) (sz / 2)
                  (ANode rb tyr rl rr) x) as [n Hn]; [by split_and!|done|].
      exists n. split; [done|]. left. by rewrite Hfr.
    + simpl. simpl in Hocc. by rewrite Hocc.
Qed.

Lemma ascent_exit_right a b l r m par off sz k :
  let t := ANode b NODE_TYPE_SPLIT l r in
  rep (cells m) par off sz t → NoDup (addrs t) → linked m par t →
  settled l → is_Some (root_ptr r) →
  ascent_exit a m (Some b) (off + sz / 2) (sz / 2) r k →
  ascent_stop a m par off sz t (S k) ∨ ascent_exit a m par off sz t (S k).
Proof.
  intros t (Hb & Hl & Hr) Hnd Hlink Hsl [ra Hra]
    (Hocc & qn & m1 & Hqn & Heq & [Hbrk Hgone Hpar Hframe]).
  rewrite Hb in Hqn. injection Hqn as <-.
  simpl in Hnd. apply NoDup_cons in Hnd as [Hbl Hnd].
  apply NoDup_app in Hnd as (Hndl & Hlr & Hndr).
  rewrite elem_of_app in Hbl.
  assert (Hra_in : ra ∈ addrs r).
  { destruct r; simpl in *; [done|]. injection Hra as ->. set_solver. }
  assert (Hne : root_ptr l ≠ Some ra).
  { destruct l; simpl; [done|]. intros [= ->]. apply (Hlr ra); set_solver. }
  rewrite Hra in Hb, Hpar. unfold unlink in Hpar. simpl in Hpar.
  rewrite bool_decide_eq_false_2 in Hpar by done.
  unfold with_right in Hpar. simpl in Hpar.
  destruct l as [|lb tyl ll lr].
  - (* no sibling: the node is released as well *)
    right. set (tb := ANode b NODE_TYPE_SPLIT ALeaf ALeaf).
    assert (Hrep1 : rep (cells m1) par off sz tb) by (by split).
    assert (Hlink1 : linked m1 par tb).
    { destruct par as [q|]; [|done].
      destruct Hlink as (Hq & qn & Hqn & Hlk). simpl in Hq.
      split; [set_solver|]. exists qn. split; [|done].
      rewrite Hframe; set_solver. }
    pose proof (node_update_split_alone m1 b par off sz Hrep1 Hlink1) as Hstep.
    split; [simpl; by rewrite Hocc|].
    destruct par as [q|].
    + destruct Hstep as (qn & m2 & Hqn & Heq2 & [Hbrk2 Hgone2 Hpar2 Hframe2]).
      destruct Hlink as (Hq & _). simpl in Hq.
      exists qn, m2. split_and!.
      * rewrite <- Hqn. symmetry. apply Hframe; set_solver.
      * intros f Hf. rewrite Nat.add_succ_comm, Heq by lia. by apply Heq2.
      * split; simpl.
        -- congruence.
        -- intros x Hx. destruct (decide (x = b)) as [->|Hxb].
           { apply Hgone2. set_solver. }
           rewrite Hframe2 by set_solver. apply Hgone. set_solver.
        -- done.
        -- intros x Hx Hxq. rewrite Hframe2 by set_solver.
           apply Hframe; set_solver.
    + exists m1. intros f Hf.
      rewrite Nat.add_succ_comm, Heq by lia. by apply Hstep.
  - (* the sibling is in use: the fix-up stops here *)
    left. destruct Hl as (Hlb & Hll & Hlr').
    assert (Hfr : ∀ x, x ∈ addrs (ANode lb tyl ll lr) →
                       cells m1 !! x = cells m !! x).
    { intros x Hx. apply Hframe; [|set_solver].
      intros Hxr. by apply (Hlr x). }
    exists m1, (ANode b NODE_TYPE_SPLIT (ANode lb tyl ll lr) ALeaf). split.
    { intros f. rewrite Nat.add_succ_comm, Heq by lia.
      eapply (node_update_split_busy _ _ _ _ lb); [exact Hpar|done| | |].
      - rewrite Hfr; [done|set_solver].
      - simpl. by eapply settled_root_not_free.
      - by left. }
    split.
    + done.
    + split_and!; [done| |done].
      eapply rep_frame; [by split_and!|done].
    + left. split_and!; [done|done|]. left. by eexists.
    + simpl. apply NoDup_cons. rewrite app_nil_r. split; [tauto|done].
    + intros x. simpl. set_solver.
    + done.
    + intros x Hx. apply Hframe; set_solver.
    + intros x Hx Hx'. apply Hgone. set_solver.
    + intros x Hx. simpl in Hx. rewrite app_nil_r in Hx.
      change (x ∈ b :: addrs (ANode lb tyl ll lr)) in Hx.
      apply elem_of_cons in Hx as [->|Hx].
      { eexists. split; [exact Hb|]. right; right. exact Hpar. }
      destruct (rep_is_Some (cells m) (Some b) off (sz / 2)
                  (ANode lb tyl ll lr) x) as [n Hn]; [by split_and!|done|].
      exists n. split; [done|]. left. by rewrite Hfr.
    + simpl. simpl in Hocc. by rewrite Hocc.
Qed.

(** The fix-up started at a freshly freed leaf of [t] either comes to rest
    inside [t] or releases all of [t] and continues above it. *)
Lemma ascent a t :
  pending a t → ∀ m par off sz,
  rep (cells m) par off sz t → NoDup (addrs t) → linked m par t →
  ∃ k, (1 ≤ k ≤ height t)%nat ∧
       (ascent_stop a m par off sz t k ∨ ascent_exit a m par off sz t k).
Proof.
  induction 1 as [|b l r Hp IH Hsr|b l r Hsl Hp IH];
    intros m par off sz Hrep Hnd Hlink.
  - exists 1%nat. split; [simpl; lia|]. by apply ascent_here.
  - pose proof Hrep as (Hb & Hl & Hr). pose proof Hnd as Hnd0.
    simpl in Hnd0. apply NoDup_cons in Hnd0 as [Hbl Hnd0].
    apply NoDup_app in Hnd0 as (Hndl & _ & _). rewrite elem_of_app in Hbl.
    destruct (IH m (Some b) off (sz / 2)) as (k & Hk & [Hstop|Hexit]);
      [done|done|split; [tauto|eauto]|..].
    + exists (S k). split; [simpl; lia|]. left.
      apply ascent_stop_left; try done.
      destruct (pending_root _ _ Hp) as (?&?&?&?&->). by eexists.
    + exists (S k). split; [simpl; lia|].
      apply ascent_exit_left; try done.
      destruct (pending_root _ _ Hp) as (?&?&?&?&->). by eexists.
  - pose proof Hrep as (Hb & Hl & Hr). pose proof Hnd as Hnd0.
    simpl in Hnd0. apply NoDup_cons in Hnd0 as [Hbl Hnd0].
    apply NoDup_app in Hnd0 as (_ & _ & Hndr). rewrite elem_of_app in Hbl.
    destruct (IH m (Some b) (off + sz / 2) (sz / 2))
      as (k & Hk & [Hstop|Hexit]); [done|done|split; [tauto|eauto]|..].
    + exists (S k). split; [simpl; lia|]. left.
      apply ascent_stop_right; try done.
      destruct (pending_root _ _ Hp) as (?&?&?&?&->). by eexists.
    + exists (S k). split; [simpl; lia|].
      apply ascent_exit_right; try done.
      destruct (pending_root _ _ Hp) as (?&?&?&?&->). by eexists.
Qed.

(** ** Marking the freed node *)

Lemma mark_root a t : root_ptr (mark a t) = root_ptr t.
Proof. destruct t; simpl; [done|]. by case_decide. Qed.

Lemma mark_addrs a t : addrs (mark a t) = addrs t.
Proof.
  induction t as [|b ty l IHl r IHr]; simpl; [done|].
  case_decide; simpl; [done|]. by rewrite IHl, IHr.
Qed.

Lemma mark_notin a t : a ∉ addrs t → mark a t = t.
Proof.
  induction t as [|b ty l IHl r IHr]; simpl; [done|].
  intros Ha. case_decide; [set_solver|].
  rewrite IHl, IHr; set_solver.
Qed.

Lemma mark_rep h par off sz t a n :
  rep h par off sz t → NoDup (addrs t) → h !! a = Some n →
  rep (<[a := with_type NODE_TYPE_FREE n]> h) par off sz (mark a t).
Proof.
  revert par off sz. induction t as [|b ty l IHl r IHr]; intros par off sz;
    simpl; [done|].
  intros (Hb & Hl & Hr) Hnd Ha.
  apply NoDup_cons in Hnd as [Hbl Hnd].
  apply NoDup_app in Hnd as (Hndl & Hlr & Hndr).
  rewrite elem_of_app in Hbl.
  case_decide as Hba; simpl.
  - subst b. rewrite Hb in Ha. injection Ha as <-.
    split_and!; [by rewrite lookup_insert_eq|..].
    + eapply rep_frame; [exact Hl|]. intros x Hx.
      apply lookup_insert_ne. set_solver.
    + eapply rep_frame; [exact Hr|]. intros x Hx.
      apply lookup_insert_ne. set_solver.
  - rewrite !mark_root. split_and!; [|by apply IHl|by apply IHr].
    by rewrite lookup_insert_ne.
Qed.

Lemma mark_pending h par off sz t a n :
  rep h par off sz t → NoDup (addrs t) → settled t → a ∈ addrs t →
  h !! a = Some n → node_type n = NODE_TYPE_OCCUPIED →
  pending a (mark a t).
Proof.
  revert par off sz. induction t as [|b ty l IHl r IHr]; intros par off sz;
    simpl; [set_solver|].
  intros (Hb & Hl & Hr) Hnd Hs Hin Ha Hty.
  apply NoDup_cons in Hnd as [Hbl Hnd].
  apply NoDup_app in Hnd as (Hndl & Hlr & Hndr).
  rewrite elem_of_app in Hbl.
  case_decide as Hba.
  - subst b. rewrite Hb in Ha. injection Ha as <-. simpl in Hty. subst ty.
    destruct Hs as [-> ->]. constructor.
  - apply elem_of_cons in Hin as [->|Hin]; [done|].
    destruct ty; [done| |destruct Hs as [-> ->]; set_solver].
    destruct Hs as (Hsl & Hsr & _).
    apply elem_of_app in Hin as [Hin|Hin].
    + rewrite (mark_notin a r) by (intros ?; by apply (Hlr a)).
      apply pending_left; [|done]. by eapply IHl.
    + rewrite (mark_notin a l) by (intros ?; by apply (Hlr a)).
      apply pending_right; [done|]. by eapply IHr.
Qed.

(** ** The invariant holds in every reachable state *)

Lemma buddy_inv_new total m buf :
  buddy_buf_new mem_empty total = (m, buf) →
  buddy_inv total m buf (ANode buf NODE_TYPE_FREE ALeaf ALeaf).
Proof.
  intros [= <- <-]. split; simpl.
  - done.
  - split_and!; [|done|done]. apply lookup_insert_eq.
  - apply NoDup_singleton.
  - intros b Hb. apply list_elem_of_singleton in Hb as ->. lia.
  - intros b [n Hb]. destruct (decide (b = 0%nat)) as [->|Hne]; [set_solver|].
    by rewrite lookup_insert_ne, lookup_empty in Hb.
  - right. by eexists.
Qed.

Lemma buddy_inv_pre total m buf t :
  0 ≤ total ≤ SIZE_MAX → buddy_inv total m buf t →
  ∃ ty l r, t = ANode buf ty l r ∧ alloc_pre m None 0 total t.
Proof.
  intros Htot [Hroot Hrep Hnd Hlt Hdom Hshape].
  destruct t as [|b ty l r]; [done|]. injection Hroot as ->.
  exists ty, l, r. split; [done|]. split; try done; lia.
Qed.

(** Allocation on a state that satisfies the invariant: it returns, and
    the invariant holds again. *)
Lemma buddy_inv_alloc total m buf t fuel size out :
  0 ≤ total ≤ SIZE_MAX → buddy_inv total m buf t → 1 ≤ size →
  (depth_bound total ≤ fuel)%nat →
  buddy_buf_alloc fuel m buf size out = Ret (m, out, 0) ∨
  ∃ m' al t',
    buddy_buf_alloc fuel m buf size out = Ret (m', al, 1) ∧
    buddy_inv total m' buf t' ∧
    alloc_post m None 0 total size t m' al t'.
Proof.
  intros Htot Hinv Hsize Hfuel.
  destruct (buddy_inv_pre _ _ _ _ Htot Hinv) as (ty & l & r & -> & Hpre).
  destruct (alloc_ok_all fuel buf ty l r m None 0 total size out Hpre Hsize
              Hfuel) as [Hfail|(m' & al & t' & Heq & Hpost)]; [by left|].
  right. exists m', al, t'. split_and!; [done| |done].
  destruct Hinv as [Hroot Hrep Hnd Hlt Hdom Hshape].
  pose proof Hpost as
    [Hroot' Hrep' Hnd' Hlt' Hbrk Hset Hframe Hold Hnew _ _].
  split; try done.
  - intros b Hb. destruct (decide (b ∈ addrs t')) as [|Hnin]; [done|].
    rewrite Hframe in Hb by done. auto.
  - by left.
Qed.

Lemma buddy_buf_free_unfold fuel m al a n :
  alloc_node al = Some a → cells m !! a = Some n →
  buddy_buf_free fuel m al = node_update fuel (marked m a n) (Some a).
Proof.
  intros Hal Ha. unfold buddy_buf_free. rewrite Hal.
  by rewrite (update_Some _ _ _ _ Ha).
Qed.

(** Freeing an occupied node of a state that satisfies the invariant
    either re-establishes the invariant or, when the fix-up would have to
    release the root, runs into the [NULL] parent of the root. *)
Lemma buddy_inv_free total m buf t al a n :
  buddy_inv total m buf t →
  alloc_node al = Some a → cells m !! a = Some n →
  node_type n = NODE_TYPE_OCCUPIED →
  ∃ k, (1 ≤ k ≤ height t)%nat ∧
    ((∃ m' t',
        (∀ f, buddy_buf_free (k + f) m al = Ret m') ∧
        buddy_inv total m' buf t' ∧
        stop_post (marked m a n) None 0 total (mark a t) m' t') ∨
     (occ 0 total (mark a t) = [] ∧
      ∃ m', ∀ f, (1 ≤ f)%nat →
        buddy_buf_free (k + f) m al = node_update f m' NULL)).
Proof.
  intros [Hroot Hrep Hnd Hlt Hdom Hshape] Hal Ha Hty.
  assert (Hin : a ∈ addrs t) by (apply Hdom; eauto).
  assert (Hset : settled t).
  { destruct Hshape as [|(b & ->)]; [done|].
    apply list_elem_of_singleton in Hin as ->.
    destruct Hrep as (Hb & _). rewrite Hb in Ha. injection Ha as <-. done. }
  set (m0 := marked m a n).
  assert (Hrep0 : rep (cells m0) None 0 total (mark a t)) by by apply mark_rep.
  assert (Hnd0 : NoDup (addrs (mark a t))) by by rewrite mark_addrs.
  assert (Hpend : pending a (mark a t)) by by eapply mark_pending.
  destruct (ascent a (mark a t) Hpend m0 None 0 total Hrep0 Hnd0 I)
    as (k & Hk & Hcase).
  assert (Hh : height (mark a t) = height t).
  { clear. induction t as [|b ty l IHl r IHr]; simpl; [done|].
    case_decide; simpl; [done|]. by rewrite IHl, IHr. }
  exists k. split; [lia|].
  destruct Hcase as [(m' & t' & Heq & Hsp)|(Hocc & Heq)].
  - left. exists m', t'. split_and!; [|  |done].
    { intros f. by rewrite (buddy_buf_free_unfold _ _ _ _ _ Hal Ha). }
    destruct Hsp as [Hroot' Hrep' Hshape' Hnd' Hsub Hbrk Hframe Hgone _ _].
    rewrite mark_addrs in *. rewrite mark_root in Hroot'.
    split.
    + congruence.
    + done.
    + done.
    + intros b Hb. rewrite Hbrk. simpl. auto.
    + intros b Hb. destruct (decide (b ∈ addrs t')) as [|Hnin]; [done|].
      destruct (decide (b ∈ addrs t)) as [Hbt|Hbt].
      * rewrite Hgone in Hb by done. by destruct Hb.
      * rewrite Hframe in Hb by done. simpl in Hb.
        rewrite lookup_insert_ne in Hb by set_solver. by apply Hdom in Hb.
    + destruct Hshape' as [?|[_ ?]]; auto.
  - right. split; [done|]. destruct Heq as [m' Heq]. exists m'. intros f Hf.
    rewrite (buddy_buf_free_unfold _ _ _ _ _ Hal Ha). by apply Heq.
Qed.

(** Every reachable state satisfies the invariant. *)
Lemma reachable_inv total m buf :
  0 ≤ total ≤ SIZE_MAX → reachable total m buf → ∃ t, buddy_inv total m buf t.
Proof.
  intros Htot. induction 1 as
    [m buf Hnew|m buf fuel size out m' out' r _ [t IH] Hsize Hal
    |m buf fuel al a n m' _ [t IH] Hal Ha Hty Hfree].
  - eexists. by apply buddy_inv_new.
  - set (fuel' := (fuel `max` depth_bound total)%nat).
    apply (alloc_buf_node_mono fuel fuel') in Hal; [|lia].
    destruct (buddy_inv_alloc total m buf t fuel' size out)
      as [Hfail|(m1 & al & t' & Heq & Hinv & _)]; [done|done|done|lia|..];
      unfold buddy_buf_alloc in *.
    + rewrite Hfail in Hal. injection Hal as <- <- <-. eauto.
    + rewrite Heq in Hal. injection Hal as <- <- <-. eauto.
  - destruct (buddy_inv_free total m buf t al a n IH Hal Ha Hty)
      as (k & Hk & [(m1 & t' & Heq & Hinv & _)|(_ & mx & Hcrash)]).
    + unfold buddy_buf_free in Hfree, Heq.
      specialize (Heq fuel).
      apply bind_inv in Hfree as (m0 & Hu & Hfree).
      rewrite Hu in Heq. simpl in Heq.
      apply (node_update_mono fuel (k + fuel)) in Hfree; [|lia].
      rewrite Hfree in Heq. injection Heq as <-. eauto.
    + unfold buddy_buf_free in Hfree, Hcrash.
      specialize (Hcrash (S fuel) ltac:(lia)).
      apply bind_inv in Hfree as (m0 & Hu & Hfree).
      rewrite Hu in Hcrash. simpl in Hcrash.
      apply (node_update_mono fuel (k + S fuel)) in Hfree; [|lia].
      rewrite Hfree in Hcrash. discriminate.
Qed.

(** ** Sizes and offsets along the tree *)

Lemma rep_child h par off sz t a n :
  rep h par off sz t → a ∈ addrs t → h !! a = Some n →
  (∀ c, node_left n = Some c → ∃ cn,
     h !! c = Some cn ∧ node_size cn = node_size n / 2 ∧
     node_offset cn = node_offset n ∧ node_parent cn = Some a) ∧
  (∀ c, node_right n = Some c → ∃ cn,
     h !! c = Some cn ∧ node_size cn = node_size n / 2 ∧
     node_offset cn = node_offset n + node_size n / 2 ∧
     node_parent cn = Some a).
Proof.
  revert par off sz. induction t as [|b ty l IHl r IHr]; intros par off sz;
    simpl; [set_solver|].
  intros (Hb & Hl & Hr) Hin Ha.
  destruct (decide (a = b)) as [->|Hne].
  - rewrite Hb in Ha. injection Ha as <-. simpl. split; intros c Hc.
    + destruct l as [|c' tyl ll lr]; [done|]. injection Hc as ->.
      destruct Hl as (Hc & _). eauto.
    + destruct r as [|c' tyr rl rr]; [done|]. injection Hc as ->.
      destruct Hr as (Hc & _). eauto.
  - apply elem_of_cons in Hin as [?|Hin]; [done|].
    apply elem_of_app in Hin as [Hin|Hin]; eauto.
Qed.

Lemma rep_walk h path : ∀ par off sz t a n,
  rep h par off sz t → walk h (root_ptr t) path = Some a → h !! a = Some n →
  node_size n = sz / 2 ^ Z.of_nat (length path).
Proof.
  induction path as [|d path IH]; intros par off sz t a n Hrep Hw Ha.
  - simpl in *. destruct t as [|b ty l r]; [done|]. injection Hw as ->.
    destruct Hrep as (Hb & _). rewrite Hb in Ha. injection Ha as <-.
    simpl. by rewrite Z.div_1_r.
  - destruct t as [|b ty l r]; [done|]. destruct Hrep as (Hb & Hl & Hr).
    simpl in Hw. rewrite Hb in Hw. simpl in Hw.
    assert (Hpow : sz / 2 ^ Z.of_nat (length (d :: path))
                   = sz / 2 / 2 ^ Z.of_nat (length path)).
    { simpl length. rewrite Nat2Z.inj_succ, Z.pow_succ_r by lia.
      rewrite Z.div_div by lia. done. }
    rewrite Hpow. destruct d; eauto.
Qed.

Lemma rep_walk_to h par off sz t a :
  rep h par off sz t → a ∈ addrs t → ∃ path, walk h (root_ptr t) path = Some a.
Proof.
  revert par off sz. induction t as [|b ty l IHl r IHr]; intros par off sz;
    simpl; [set_solver|].
  intros (Hb & Hl & Hr) Hin.
  apply elem_of_cons in Hin as [->|Hin]; [by exists []|].
  apply elem_of_app in Hin as [Hin|Hin].
  - destruct (IHl _ _ _ Hl Hin) as [path Hp]. exists (true :: path).
    simpl. by rewrite Hb.
  - destruct (IHr _ _ _ Hr Hin) as [path Hp]. exists (false :: path).
    simpl. by rewrite Hb.
Qed.

(** Every node lies within the range of the tree it belongs to. *)
Lemma rep_bounds h par off sz t a n :
  rep h par off sz t → 0 ≤ sz → a ∈ addrs t → h !! a = Some n →
  off ≤ node_offset n ∧ 0 ≤ node_size n ∧
  node_offset n + node_size n ≤ off + sz.
Proof.
  revert par off sz. induction t as [|b ty l IHl r IHr]; intros par off sz;
    simpl; [set_solver|].
  intros (Hb & Hl & Hr) Hsz Hin Ha.
  destruct (decide (a = b)) as [->|Hne].
  - rewrite Hb in Ha. injection Ha as <-. simpl. lia.
  - apply elem_of_cons in Hin as [?|Hin]; [done|].
    apply elem_of_app in Hin as [Hin|Hin].
    + destruct (IHl _ _ _ Hl ltac:(lia) Hin Ha). lia.
    + destruct (IHr _ _ _ Hr ltac:(lia) Hin Ha). lia.
Qed.

(** ** Occupied partitions never overlap *)

Lemma apart_sym x y : apart x y → apart y x.
Proof. unfold apart. tauto. Qed.

Lemma pairwise_apart_app l1 l2 :
  pairwise_apart l1 → pairwise_apart l2 →
  (∀ x y, x ∈ l1 → y ∈ l2 → apart x y) →
  pairwise_apart (l1 ++ l2).
Proof.
  induction l1 as [|x l1 IH]; simpl; [done|].
  intros [Hx H1] H2 H12. split.
  - apply Forall_app. split; [done|].
    apply Forall_forall. intros y Hy. apply H12; [left|done].
  - apply IH; [done|done|]. intros ????. apply H12; [by right|done].
Qed.

Lemma pairwise_apart_perm l l' :
  l ≡ₚ l' → pairwise_apart l → pairwise_apart l'.
Proof.
  induction 1 as [|x l l' Hp IH|x y l|l l' l'' _ IH1 _ IH2]; simpl.
  - done.
  - intros [Hx Hl]. split; [by rewrite <- Hp|auto].
  - intros [Hy [Hx Hl]]. apply Forall_cons in Hy as [Hyx Hy].
    split_and!; [|done|done]. apply Forall_cons. split; [|done].
    by apply apart_sym.
  - auto.
Qed.

Lemma pairwise_apart_lookup l : ∀ i j x y,
  pairwise_apart l → i ≠ j → l !! i = Some x → l !! j = Some y → apart x y.
Proof.
  induction l as [|z l IH]; intros i j x y Hl Hij Hi Hj; [done|].
  destruct Hl as [Hz Hl]. rewrite Forall_forall in Hz.
  destruct i as [|i], j as [|j]; simpl in *.
  - done.
  - injection Hi as ->. apply Hz. by eapply list_elem_of_lookup_2.
  - injection Hj as ->. apply apart_sym, Hz. by eapply list_elem_of_lookup_2.
  - eapply (IH i j); eauto.
Qed.

Lemma occ_ranges t : ∀ off sz,
  settled t → 0 ≤ sz →
  Forall (within off sz) (occ off sz t).*2 ∧ pairwise_apart (occ off sz t).*2.
Proof.
  induction t as [|a ty l IHl r IHr]; intros off sz Hs Hsz; simpl; [done|].
  destruct ty; [done| |]; simpl.
  - destruct Hs as (Hsl & Hsr & _).
    destruct (IHl off (sz / 2) Hsl ltac:(lia)) as [Hwl Hal].
    destruct (IHr (off + sz / 2) (sz / 2) Hsr ltac:(lia)) as [Hwr Har].
    rewrite fmap_app. split.
    + apply Forall_app. split.
      * eapply Forall_impl; [exact Hwl|]. unfold within. intros x. lia.
      * eapply Forall_impl; [exact Hwr|]. unfold within. intros x. lia.
    + apply pairwise_apart_app; [done|done|].
      intros x y Hx Hy. rewrite Forall_forall in Hwl.
      rewrite Forall_forall in Hwr.
      specialize (Hwl x Hx). specialize (Hwr y Hy).
      unfold within, apart in *. lia.
  - destruct Hs as [-> ->]. simpl. split.
    + apply Forall_singleton. unfold within. simpl. lia.
    + done.
Qed.

Lemma run_allocs_inv total buf fuel out sizes : ∀ m t prev,
  0 ≤ total ≤ SIZE_MAX → (depth_bound total ≤ fuel)%nat →
  buddy_inv total m buf t →
  range <$> prev ≡ₚ (occ 0 total t).*2 →
  Forall (λ s, 1 ≤ s) sizes →
  ∃ m' als t',
    run_allocs fuel m buf sizes out = Ret (m', als) ∧
    buddy_inv total m' buf t' ∧
    range <$> (prev ++ als) ≡ₚ (occ 0 total t').*2 ∧
    Forall (λ al, 0 < alloc_size al) als.
Proof.
  induction sizes as [|size sizes IH]; intros m t prev Htot Hfuel Hinv Hprev Hs.
  { exists m, [], t. simpl. by rewrite app_nil_r. }
  apply Forall_cons in Hs as [Hsize Hs]. simpl.
  destruct (buddy_inv_alloc total m buf t fuel size out)
    as [Hfail|(m1 & al & t1 & Heq & Hinv1 & Hpost)]; [done..| |].
  - rewrite Hfail. simpl.
    destruct (IH m t prev) as (m' & als & t' & Hrun & Hinv' & Hals & Hpos);
      [done..|].
    rewrite Hrun. simpl. by exists m', als, t'.
  - rewrite Heq. simpl.
    destruct Hpost as [_ _ _ _ _ _ _ _ _ (c & Hc & Hocc) Hgr].
    destruct (IH m1 t1 (prev ++ [al]))
      as (m' & als & t' & Hrun & Hinv' & Hals & Hpos); [done..| |done|].
    { rewrite fmap_app, Hprev, Hocc. simpl.
      by rewrite <- Permutation_cons_append. }
    rewrite Hrun. simpl. exists m', (al :: als), t'. split_and!; [done..| |].
    + by rewrite cons_middle, app_assoc.
    + apply Forall_cons. split; [lia|done].
Qed.

(** ** The first allocation of a fresh allocator *)

(** Allocation below a free node halves until the request no longer fits
    in half of the partition. *)
Lemma alloc_fresh_grant fuel : ∀ m a n size out,
  cells m !! a = Some n → node_type n = NODE_TYPE_FREE →
  1 ≤ size ≤ node_size n → 0 ≤ node_offset n ≤ SIZE_MAX →
  (depth_bound (node_size n) ≤ fuel)%nat →
  ∃ m' c k,
    alloc_buf_node fuel m (Some a) size out =
      Ret (m', mkAlloc (node_offset n) (node_size n / 2 ^ k) (Some c), 1) ∧
    0 ≤ k ∧ size ≤ node_size n / 2 ^ k ∧ node_size n / 2 ^ (k + 1) < size.
Proof.
  induction fuel as [|fuel IH]; intros m a n size out Ha Hty Hsize Hoff Hfuel.
  { unfold depth_bound in Hfuel. lia. }
  simpl. rewrite (load_Some _ _ _ Ha). simpl. rewrite Hty.
  destruct (node_size n / 2 >=? size) eqn:Hhalf.
  - apply Z.geb_le in Hhalf.
    rewrite (update_Some _ _ _ _ Ha). simpl.
    erewrite buf_node_new_Some by apply lookup_insert_eq. simpl.
    set (fresh := fresh_node a (with_type NODE_TYPE_SPLIT n) true).
    set (h1 := <[brk m := fresh]> (<[a := _]> (cells m))).
    assert (∃ x, h1 !! a = Some x ∧
                 ∃ y, <[a := with_left (Some (brk m)) x]> h1 !! brk m = Some y ∧
                      node_type y = NODE_TYPE_FREE ∧
                      node_offset y = node_offset n ∧
                      node_size y = node_size n / 2) as (x & Hx & y & Hy & Hyt & Hyo & Hys).
    { assert (Hfo : node_offset fresh = node_offset n).
      { simpl. rewrite Z.add_0_r. by apply wrap_id. }
      unfold h1. destruct (decide (a = brk m)) as [->|Hne].
      - exists fresh. rewrite !lookup_insert_eq. split; [done|].
        eexists. split; [done|]. done.
      - rewrite lookup_insert_ne, lookup_insert_eq by done.
        eexists. split; [done|].
        rewrite lookup_insert_ne, lookup_insert_eq by done.
        eexists. split; [done|]. done. }
    erewrite update_Some by exact Hx. simpl.
    edestruct (IH (mkMem (<[a := with_left (Some (brk m)) x]> h1) (S (brk m)))
                 (brk m) y size out Hy Hyt)
      as (m' & c & k & Heq & Hk & Hle & Hlt).
    { lia. }
    { lia. }
    { rewrite Hys. pose proof (depth_bound_half (node_size n)). lia. }
    rewrite Heq, Hyo, Hys. exists m', c, (k + 1).
    assert (Hpow : ∀ j, 0 ≤ j →
              node_size n / 2 / 2 ^ j = node_size n / 2 ^ (j + 1)).
    { intros j Hj. rewrite Z.pow_add_r, Z.pow_1_r by lia.
      rewrite Z.div_div by lia. f_equal. lia. }
    rewrite Hys in Hle, Hlt. rewrite Hpow in Hle, Hlt by lia.
    rewrite !Hpow by lia. split_and!; [done|lia|done|done].
  - destruct (node_size n >=? size) eqn:Hfull.
    + rewrite (update_Some _ _ _ _ Ha). simpl.
      erewrite load_Some by apply lookup_insert_eq. simpl.
      rewrite Z.geb_leb in Hhalf. apply Z.leb_gt in Hhalf.
      eexists _, a, 0. rewrite Z.pow_0_r, Z.div_1_r. simpl.
      change (2 ^ 1) with 2. split_and!; [done|lia|lia|lia].
    + rewrite Z.geb_leb in Hfull. apply Z.leb_gt in Hfull. lia.
Qed.

Lemma halving_antitone total j k :
  0 ≤ total → 0 ≤ j ≤ k → total / 2 ^ k ≤ total / 2 ^ j.
Proof.
  intros Ht Hjk. apply Z.div_le_compat_l; [done|].
  split; [apply Z.pow_pos_nonneg; lia|].
  apply Z.pow_le_mono_r; lia.
Qed.

(** ** Occupied nodes and the links to them *)

Lemma occ_in h par off sz t c cn :
  rep h par off sz t → c ∈ addrs t → h !! c = Some cn →
  node_type cn = NODE_TYPE_OCCUPIED → ∃ x, (c, x) ∈ occ off sz t.
Proof.
  revert par off sz. induction t as [|b ty l IHl r IHr]; intros par off sz;
    simpl; [set_solver|].
  intros (Hb & Hl & Hr) Hin Hc Hty.
  destruct (decide (c = b)) as [->|Hne].
  - rewrite Hb in Hc. injection Hc as <-. simpl in Hty. subst ty.
    exists (off, sz). rewrite bool_decide_eq_true_2 by done. set_solver.
  - apply elem_of_cons in Hin as [?|Hin]; [done|].
    apply elem_of_app in Hin as [Hin|Hin].
    + destruct (IHl _ _ _ Hl Hin Hc Hty) as [x Hx]. exists x. set_solver.
    + destruct (IHr _ _ _ Hr Hin Hc Hty) as [x Hx]. exists x. set_solver.
Qed.

Lemma occ_addr off sz t c x : (c, x) ∈ occ off sz t → c ∈ addrs t.
Proof.
  revert off sz. induction t as [|b ty l IHl r IHr]; intros off sz; simpl;
    [set_solver|].
  rewrite !elem_of_app. intros [H|[H|H]].
  - case_bool_decide; [|set_solver].
    apply list_elem_of_singleton in H as [= -> _]. set_solver.
  - apply IHl in H. set_solver.
  - apply IHr in H. set_solver.
Qed.

Lemma occupied_is_leaf h par off sz t c cn :
  rep h par off sz t → settled t → c ∈ addrs t → h !! c = Some cn →
  node_type cn = NODE_TYPE_OCCUPIED →
  node_left cn = None ∧ node_right cn = None.
Proof.
  revert par off sz. induction t as [|b ty l IHl r IHr]; intros par off sz;
    simpl; [set_solver|].
  intros (Hb & Hl & Hr) Hs Hin Hc Hty.
  destruct (decide (c = b)) as [->|Hne].
  - rewrite Hb in Hc. injection Hc as <-. simpl in Hty. subst ty.
    by destruct Hs as [-> ->].
  - apply elem_of_cons in Hin as [?|Hin]; [done|].
    destruct ty; [done| |destruct Hs as [-> ->]; set_solver].
    destruct Hs as (Hsl & Hsr & _).
    apply elem_of_app in Hin as [Hin|Hin]; eauto.
Qed.

(** The parent pointer of a node of the tree leads to the node that links
    to it. *)
Lemma rep_parent h par off sz t c cn b :
  rep h par off sz t → c ∈ addrs t → h !! c = Some cn →
  node_parent cn = Some b →
  (root_ptr t = Some c ∧ par = Some b) ∨
  (b ∈ addrs t ∧ ∃ bn, h !! b = Some bn ∧
     (node_left bn = Some c ∨ node_right bn = Some c)).
Proof.
  revert par off sz. induction t as [|r0 ty l IHl r IHr]; intros par off sz;
    simpl; [set_solver|].
  intros (Hr0 & Hl & Hr) Hin Hc Hpar.
  destruct (decide (c = r0)) as [->|Hne].
  - rewrite Hr0 in Hc. injection Hc as <-. simpl in Hpar. by left.
  - right. apply elem_of_cons in Hin as [?|Hin]; [done|].
    apply elem_of_app in Hin as [Hin|Hin].
    + destruct (IHl _ _ _ Hl Hin Hc Hpar) as [[Hroot [= <-]]|(Hb & bn & ? & ?)].
      * split; [set_solver|]. eexists. split; [done|]. by left.
      * split; [set_solver|]. eauto.
    + destruct (IHr _ _ _ Hr Hin Hc Hpar) as [[Hroot [= <-]]|(Hb & bn & ? & ?)].
      * split; [set_solver|]. eexists. split; [done|]. by right.
      * split; [set_solver|]. eauto.
Qed.

Lemma with_left_leaf n : node_left n = None → with_left NULL n = n.
Proof. destruct n. simpl. by intros ->. Qed.

Lemma with_right_leaf n : node_right n = None → with_right NULL n = n.
Proof. destruct n. simpl. by intros ->. Qed.

Lemma occ_cell h par off sz t c x :
  rep h par off sz t → (c, x) ∈ occ off sz t →
  ∃ cn, h !! c = Some cn ∧ node_type cn = NODE_TYPE_OCCUPIED ∧
        x = (node_offset cn, node_size cn).
Proof.
  revert par off sz. induction t as [|b ty l IHl r IHr]; intros par off sz;
    simpl; [set_solver|].
  intros (Hb & Hl & Hr). rewrite !elem_of_app. intros [H|[H|H]]; eauto.
  case_bool_decide as Hty; [|set_solver].
  apply list_elem_of_singleton in H as [= -> ->]. subst ty. eauto.
Qed.

Lemma occ_mark_sub a off sz t c x :
  NoDup (addrs t) → (c, x) ∈ occ off sz (mark a t) →
  (c, x) ∈ occ off sz t ∧ c ≠ a.
Proof.
  revert off sz. induction t as [|b ty l IHl r IHr]; intros off sz; simpl;
    [set_solver|].
  intros Hnd. apply NoDup_cons in Hnd as [Hbl Hnd].
  apply NoDup_app in Hnd as (Hndl & Hlr & Hndr).
  rewrite elem_of_app in Hbl.
  case_decide as Hba; simpl; rewrite !elem_of_app.
  - subst b. intros [H|H].
    + split; [auto|]. intros ->. apply occ_addr in H. tauto.
    + split; [auto|]. intros ->. apply occ_addr in H. tauto.
  - intros [H|[H|H]].
    + split; [auto|]. case_bool_decide; [|set_solver].
      apply list_elem_of_singleton in H as [= -> _]. done.
    + destruct (IHl _ _ Hndl H). auto.
    + destruct (IHr _ _ Hndr H). auto.
Qed.

(** A settled tree holds an occupied node. *)
Lemma settled_occ off sz t :
  settled t → is_Some (root_ptr t) → occ off sz t ≠ [].
Proof.
  revert off sz. induction t as [|a ty l IHl r IHr]; intros off sz Hs Hsome;
    simpl; [by destruct Hsome|].
  destruct ty; [done| |done]. simpl.
  destruct Hs as (Hsl & Hsr & [Hl|Hr]).
  - specialize (IHl off (sz / 2) Hsl Hl).
    destruct (occ off (sz / 2) l); done.
  - specialize (IHr (off + sz / 2) (sz / 2) Hsr Hr).
    destruct (occ off (sz / 2) l); [|done].
    by destruct (occ (off + sz / 2) (sz / 2) r).
Qed.

(** ** Freeing the only allocation *)

(** When the node that is freed is the only occupied one and is not the
    root, every node up to the root is released and the fix-up is then
    called on the parent of the root, which is [NULL]. *)
Lemma free_sole_allocation total m buf t al a n :
  buddy_inv total m buf t →
  alloc_node al = Some a → cells m !! a = Some n →
  node_type n = NODE_TYPE_OCCUPIED → a ≠ buf →
  (∀ c cn, cells m !! c = Some cn → node_type cn = NODE_TYPE_OCCUPIED →
           c = a) →
  ∃ k m', ∀ f, (1 ≤ f)%nat →
    buddy_buf_free (k + f) m al = node_update f m' NULL.
Proof.
  intros Hinv Hal Ha Hn Hab Hsole.
  destruct (buddy_inv_free total m buf t al a n Hinv Hal Ha Hn)
    as (k & Hk & [(m' & t' & Heq & Hinv' & Hsp)|(_ & m' & Heq)]);
    [exfalso|by exists k, m'].
  destruct Hinv as [Hroot Hrep Hnd Hlt Hdom Hshape].
  destruct Hsp as [Hroot' Hrep' Hshape' _ Hsub _ _ _ Hcell Hocc].
  rewrite mark_root in Hroot'.
  assert (Hempty : occ 0 total (mark a t) = []).
  { destruct (occ 0 total (mark a t)) as [|[c x] o] eqn:E; [done|].
    destruct (occ_mark_sub a 0 total t c x Hnd) as [Hin Hca];
      [rewrite E; by left|].
    destruct (occ_cell _ _ _ _ _ _ _ Hrep Hin) as (cn & Hc & Hty & _).
    by specialize (Hsole c cn Hc Hty). }
  destruct Hshape' as [Hs|[_ (b & ->)]].
  - apply (settled_occ 0 total) in Hs; [congruence|].
    rewrite Hroot', Hroot. by eexists.
  - (* the root would have to be free already before the call *)
    simpl in Hroot'. rewrite Hroot in Hroot'. injection Hroot' as ->.
    destruct (Hcell buf ltac:(set_solver)) as (n0 & Hn0 & Hcases).
    destruct Hrep' as (Hb' & _).
    simpl in Hn0. rewrite lookup_insert_ne in Hn0 by done.
    assert (node_type n0 = NODE_TYPE_FREE) as Hfree.
    { destruct Hcases as [H|[H|H]]; rewrite Hb' in H; injection H as Hx;
        by rewrite <- Hx. }
    destruct Hshape as [Hs|(b & ->)].
    + destruct t as [|b ty l r]; [done|]. injection Hroot as ->.
      destruct Hrep as (Hb & _). rewrite Hb in Hn0. injection Hn0 as <-.
      simpl in Hfree. subst ty. done.
    + assert (a ∈ [b]) as Hin by (apply Hdom; eauto).
      apply list_elem_of_singleton in Hin. simpl in Hroot. congruence.
Qed.

(** ** A request of size 0 *)

(** The precondition [1 ≤ size] of the allocation is needed: below a free
    node a request of size 0 splits for ever, whatever the budget. *)
Lemma alloc_zero_diverges fuel : ∀ m a n out,
  cells m !! a = Some n → node_type n = NODE_TYPE_FREE → 0 ≤ node_size n →
  alloc_buf_node fuel m (Some a) 0 out = OutOfFuel.
Proof.
  induction fuel as [|fuel IH]; intros m a n out Ha Hty Hsz; [done|].
  simpl. rewrite (load_Some _ _ _ Ha). simpl. rewrite Hty.
  assert (Hge : (node_size n / 2 >=? 0) = true) by (apply Z.geb_le; lia).
  rewrite Hge. rewrite (update_Some _ _ _ _ Ha). simpl.
  erewrite buf_node_new_Some by apply lookup_insert_eq. simpl.
  set (fresh := fresh_node a (with_type NODE_TYPE_SPLIT n) true).
  destruct (decide (a = brk m)) as [->|Hne].
  - erewrite update_Some by (simpl; apply lookup_insert_eq). simpl.
    eapply IH; [simpl; apply lookup_insert_eq|done|simpl; lia].
  - erewrite update_Some
      by (simpl; rewrite lookup_insert_ne by done; apply lookup_insert_eq).
    simpl. eapply (IH _ _ fresh); [|done|simpl; lia].
    simpl. rewrite lookup_insert_ne by done. apply lookup_insert_eq.
Qed.

(** ** The example runs *)

Lemma run2_reachable : reachable 1024 run2 0.
Proof.
  apply (reach_alloc 1024 run1 0 11 200 out0 run2 got2 1);
    [|lia|vm_compute; reflexivity].
  apply (reach_alloc 1024 run0 0 11 200 out0 run1 got1 1);
    [|lia|vm_compute; reflexivity].
  apply reach_new. reflexivity.
Qed.

Lemma small2_reachable : reachable 4 small2 0.
Proof.
  apply (reach_alloc 4 small1 0 3 1 out0 small2 small_got 1);
    [|lia|vm_compute; reflexivity].
  apply (reach_alloc 4 small0 0 3 2 out0 small1
           (alloc_of (buddy_buf_alloc 3 small0 0 2 out0)) 1);
    [|lia|vm_compute; reflexivity].
  apply reach_new. reflexivity.
Qed.

Lemma small1_reachable : reachable 4 small1 0.
Proof.
  apply (reach_alloc 4 small0 0 3 2 out0 small1
           (alloc_of (buddy_buf_alloc 3 small0 0 2 out0)) 1);
    [|lia|vm_compute; reflexivity].
  apply reach_new. reflexivity.
Qed.

(** A request that fails: 600 units when two partitions of 256 units out
    of 1024 are occupied. *)
Lemma failed_alloc_example :
  buddy_buf_alloc 11 run2 0 600 out0 = Ret (run2, out0, 0).
Proof. vm_compute. reflexivity. Qed.

(** * The claims *)

(** C1 fails on the code.  On a fresh allocator the first request of a
    size of at most half the total is granted, but freeing it again
    releases every node up to the root and then runs the fix-up on the
    root's parent, which is [NULL]: the free crashes and never returns, so
    the round trip never gets to its final request for the whole span. *)
Theorem roundtrip_never_completes total size fuel out m buf :
  0 < total ≤ SIZE_MAX → 1 ≤ size ≤ total / 2 →
  (depth_bound total ≤ fuel)%nat →
  buddy_buf_new mem_empty total = (m, buf) →
  ∃ m1 al,
    buddy_buf_alloc fuel m buf size out = Ret (m1, al, 1) ∧
    (∃ k, ∀ f, (1 ≤ f)%nat → buddy_buf_free (k + f) m1 al = Crash) ∧
    (∀ fuel' m2, buddy_buf_free fuel' m1 al ≠ Ret m2).
Proof.
  intros Htot Hsize Hfuel Hnew.
  pose proof (buddy_inv_new _ _ _ Hnew) as Hinv0.
  injection Hnew as <- <-.
  set (root := mkNode NODE_TYPE_FREE 0 total NULL NULL NULL).
  set (m := (malloc mem_empty root).1) in *.
  destruct (alloc_fresh_grant fuel m 0%nat root size out)
    as (m1 & c & k & Hgrant & Hk & Hle & Hlt); simpl; try done; try lia.
  simpl in Hgrant, Hle, Hlt.
  destruct (buddy_inv_alloc total m 0%nat _ fuel size out ltac:(lia) Hinv0)
    as [Hfail|(m1' & al & t1 & Heq & Hinv1 & Hpost)]; [lia|done|..];
    unfold buddy_buf_alloc in *.
  { rewrite Hgrant in Hfail. discriminate. }
  rewrite Hgrant in Heq. injection Heq as <- <-.
  exists m1, (mkAlloc 0 (total / 2 ^ k) (Some c)). split; [done|].
  (* the granted partition is smaller than the span *)
  assert (Hsmall : total / 2 ^ k < total).
  { destruct (decide (k = 0)) as [->|Hk0].
    - change (2 ^ (0 + 1)) with 2 in Hlt. lia.
    - pose proof (halving_antitone total 1 k). change (2 ^ 1) with 2 in *.
      lia. }
  destruct Hpost as [_ _ _ _ _ _ _ _ _ (c' & [= <-] & Hocc) _].
  simpl in Hocc.
  pose proof Hinv1 as [Hroot1 Hrep1 Hnd1 Hlt1 Hdom1 Hshape1].
  assert (Hin : (c, (0, total / 2 ^ k)) ∈ occ 0 total t1).
  { rewrite Hocc. by left. }
  destruct (occ_cell _ _ _ _ _ _ _ Hrep1 Hin) as (cn & Hc & Hty & Hx).
  assert (Hc0 : c ≠ 0%nat).
  { intros ->. destruct t1 as [|b ty l r]; [done|]. injection Hroot1 as ->.
    destruct Hrep1 as (Hb & _). rewrite Hb in Hc. injection Hc as <-.
    simpl in Hx. injection Hx as Hx. lia. }
  assert (Hsole : ∀ c' cn', cells m1 !! c' = Some cn' →
                    node_type cn' = NODE_TYPE_OCCUPIED → c' = c).
  { intros c' cn' Hc' Hty'.
    destruct (occ_in _ _ _ _ _ c' cn' Hrep1 ltac:(eauto) Hc' Hty') as [x' Hx'].
    rewrite Hocc in Hx'. apply list_elem_of_singleton in Hx'. congruence. }
  destruct (free_sole_allocation total m1 0%nat t1
              (mkAlloc 0 (total / 2 ^ k) (Some c)) c cn Hinv1 eq_refl Hc Hty
              Hc0 Hsole) as (j & m0 & Hfree).
  split.
  - exists j. intros f Hf. rewrite Hfree by done. destruct f; [lia|done].
  - intros fuel' m2 Hret. specialize (Hfree (S fuel') ltac:(lia)).
    rewrite (buddy_buf_free_unfold _ _ (mkAlloc _ _ _) c cn eq_refl Hc) in Hret.
    rewrite (buddy_buf_free_unfold _ _ (mkAlloc _ _ _) c cn eq_refl Hc) in Hfree.
    apply (node_update_mono fuel' (j + S fuel')) in Hret; [|lia].
    rewrite Hret in Hfree. discriminate.
Qed.

Lemma roundtrip_never_completes_witness :
  ∃ m1 al,
    buddy_buf_alloc 11 (buddy_buf_new mem_empty 1024).1
      (buddy_buf_new mem_empty 1024).2 200 out0 = Ret (m1, al, 1) ∧
    (∃ k, ∀ f, (1 ≤ f)%nat → buddy_buf_free (k + f) m1 al = Crash) ∧
    (∀ fuel' m2, buddy_buf_free fuel' m1 al ≠ Ret m2).
Proof.
  apply (roundtrip_never_completes 1024 200 11 out0).
  - unfold SIZE_MAX. lia.
  - lia.
  - vm_compute. lia.
  - reflexivity.
Defined.

(** The round trip does work when the request is for more than half of
    the span, because then the root itself is occupied and freed. *)
Lemma roundtrip_more_than_half total size fuel out m buf :
  0 < total ≤ SIZE_MAX → total / 2 < size ≤ total → (1 ≤ fuel)%nat →
  buddy_buf_new mem_empty total = (m, buf) →
  ∃ m1 al m2 m3 al3,
    buddy_buf_alloc fuel m buf size out = Ret (m1, al, 1) ∧
    buddy_buf_free fuel m1 al = Ret m2 ∧
    buddy_buf_alloc fuel m2 buf total out = Ret (m3, al3, 1) ∧
    alloc_offset al3 = 0 ∧ alloc_size al3 = total.
Proof.
  intros Htot Hsize Hfuel [= <- <-]. destruct fuel as [|fuel]; [lia|].
  set (root := mkNode NODE_TYPE_FREE 0 total NULL NULL NULL).
  assert (Hge : ∀ s, total / 2 < s ≤ total →
            (total / 2 >=? s) = false ∧ (total >=? s) = true).
  { intros s Hs. rewrite !Z.geb_leb. split; [apply Z.leb_gt|apply Z.leb_le]; lia. }
  destruct (Hge size Hsize) as [Hh Hf].
  destruct (Hge total ltac:(lia)) as [Hh' Hf'].
  unfold buddy_buf_alloc, buddy_buf_free. simpl.
  erewrite load_Some by apply lookup_insert_eq. simpl. rewrite Hh, Hf.
  erewrite update_Some by apply lookup_insert_eq. simpl.
  erewrite load_Some by apply lookup_insert_eq. simpl.
  eexists _, _. eexists. eexists _, _. split; [reflexivity|]. simpl.
  erewrite update_Some by apply lookup_insert_eq. simpl.
  erewrite load_Some by apply lookup_insert_eq. simpl.
  split; [reflexivity|].
  erewrite load_Some by apply lookup_insert_eq. simpl. rewrite Hh', Hf'.
  erewrite update_Some by apply lookup_insert_eq. simpl.
  erewrite load_Some by apply lookup_insert_eq. simpl. done.
Qed.

(** C2 fails on the code.  In a reachable state in which the node to be
    freed is the only occupied node and is not the root, the fix-up
    releases every node on the way up, coalesces the root and then calls
    itself on the root's parent: [buddy_buf_free] ends in a call of
    [node_update] on [NULL], which dereferences it, and never returns. *)
Theorem fixup_reaches_null total m buf al a n :
  0 ≤ total ≤ SIZE_MAX → reachable total m buf →
  alloc_node al = Some a → cells m !! a = Some n →
  node_type n = NODE_TYPE_OCCUPIED → a ≠ buf →
  (∀ c cn, cells m !! c = Some cn → node_type cn = NODE_TYPE_OCCUPIED →
           c = a) →
  (∃ k m', ∀ f, (1 ≤ f)%nat →
     buddy_buf_free (k + f) m al = node_update f m' NULL ∧
     node_update f m' NULL = Crash) ∧
  (∀ fuel m', buddy_buf_free fuel m al ≠ Ret m').
Proof.
  intros Htot Hreach Hal Ha Hn Hab Hsole.
  destruct (reachable_inv _ _ _ Htot Hreach) as [t Hinv].
  destruct (free_sole_allocation total m buf t al a n Hinv Hal Ha Hn Hab Hsole)
    as (k & m0 & Heq).
  split.
  - exists k, m0. intros f Hf. split; [by apply Heq|].
    destruct f; [lia|done].
  - intros fuel m' Hfree. specialize (Heq (S fuel) ltac:(lia)).
    rewrite (buddy_buf_free_unfold _ _ _ _ _ Hal Ha) in Hfree.
    rewrite (buddy_buf_free_unfold _ _ _ _ _ Hal Ha) in Heq.
    apply (node_update_mono fuel (k + S fuel)) in Hfree; [|lia].
    rewrite Hfree in Heq. discriminate.
Qed.

Lemma fixup_reaches_null_witness :
  (∃ k m', ∀ f, (1 ≤ f)%nat →
     buddy_buf_free (k + f) small1 (mkAlloc 0 2 (Some 1%nat))
       = node_update f m' NULL ∧
     node_update f m' NULL = Crash) ∧
  (∀ fuel m', buddy_buf_free fuel small1 (mkAlloc 0 2 (Some 1%nat)) ≠ Ret m').
Proof.
  apply (fixup_reaches_null 4 small1 0 (mkAlloc 0 2 (Some 1%nat)) 1
           (mkNode NODE_TYPE_OCCUPIED 0 2 NULL NULL (Some 0%nat))).
  - unfold SIZE_MAX. lia.
  - exact small1_reachable.
  - reflexivity.
  - vm_compute. reflexivity.
  - reflexivity.
  - lia.
  - change (map_Forall (λ c cn, node_type cn = NODE_TYPE_OCCUPIED → c = 1%nat)
              (cells small1)).
    apply (bool_decide_unpack _). vm_compute. exact I.
Defined.

(** C3, as stated, fails: in the run [small0] to [small3] the fix-up
    visits the split node at address 2 when both its children are absent;
    afterwards that node is not a free node of the tree, it is gone, and
    the root's link to it is [NULL]. *)
Lemma coalesced_node_is_gone :
  reachable 4 small2 0 ∧
  small_got = mkAlloc 2 1 (Some 3%nat) ∧
  cells small2 !! 3%nat =
    Some (mkNode NODE_TYPE_OCCUPIED 2 1 NULL NULL (Some 2%nat)) ∧
  buddy_buf_free 3 small2 small_got = node_update 2 mid2 (Some 2%nat) ∧
  cells mid2 !! 2%nat =
    Some (mkNode NODE_TYPE_SPLIT 2 2 NULL NULL (Some 0%nat)) ∧
  node_update 2 mid2 (Some 2%nat) = Ret small3 ∧
  cells small3 !! 2%nat = None ∧
  ¬ (∃ n', cells small3 !! 2%nat = Some n' ∧ node_type n' = NODE_TYPE_FREE) ∧
  cells small3 !! 0%nat =
    Some (mkNode NODE_TYPE_SPLIT 0 4 (Some 1%nat) NULL NULL).
Proof.
  split_and!; try (vm_compute; reflexivity).
  - exact small2_reachable.
  - intros (n' & Hn' & _). vm_compute in Hn'. discriminate.
Qed.

(** C3, amended.  When the fix-up visits a split node that has a parent
    and whose children are both absent or free, it releases the whole
    subtree, the node itself included: the node and whatever hung below it
    are no longer in the store, the parent's link to the node is [NULL],
    nothing else changes, and the fix-up goes on at the parent. *)
Theorem coalesce_releases_node m b q qn off sz l r fuel :
  let t := ANode b NODE_TYPE_SPLIT l r in
  rep (cells m) (Some q) off sz t → NoDup (addrs t) → q ∉ addrs t →
  cells m !! q = Some qn →
  (l = ALeaf ∨ ∃ c cl cr, l = ANode c NODE_TYPE_FREE cl cr) →
  (r = ALeaf ∨ ∃ c cl cr, r = ANode c NODE_TYPE_FREE cl cr) →
  (height t ≤ fuel)%nat →
  ∃ m',
    node_update (S fuel) m (Some b) = node_update fuel m' (Some q) ∧
    (∀ x, x ∈ addrs t → cells m' !! x = None) ∧
    cells m' !! q = Some (unlink (Some b) qn) ∧
    (∀ x, x ∉ addrs t → x ≠ q → cells m' !! x = cells m !! x).
Proof.
  intros t Hrep Hnd Hq Hqn Hl Hr Hfuel.
  destruct (destroy_spec t fuel m q qn off sz Hfuel Hrep Hnd Hq Hqn)
    as (m' & Hd & [_ Hgone Hpar Hframe]).
  exists m'. split_and!; [|done..].
  destruct Hrep as (Hb & Hrl & Hrr).
  rewrite (node_update_split _ _ _ _ Hb eq_refl). simpl.
  assert (Hnl : null_or_free m (root_ptr l) = Ret true).
  { destruct Hl as [->|(c & cl & cr & ->)]; [done|].
    destruct Hrl as (Hc & _). simpl. by rewrite (null_or_free_Some _ _ _ Hc). }
  assert (Hnr : null_or_free m (root_ptr r) = Ret true).
  { destruct Hr as [->|(c & cl & cr & ->)]; [done|].
    destruct Hrr as (Hc & _). simpl. by rewrite (null_or_free_Some _ _ _ Hc). }
  rewrite Hnl. simpl. rewrite Hnr. simpl.
  simpl in Hd. by rewrite Hd.
Qed.

Lemma coalesce_releases_node_witness :
  ∃ m',
    node_update 2 mid2 (Some 2%nat) = node_update 1 m' (Some 0%nat) ∧
    (∀ x, x ∈ addrs (ANode 2 NODE_TYPE_SPLIT ALeaf ALeaf) →
          cells m' !! x = None) ∧
    cells m' !! 0%nat =
      Some (unlink (Some 2%nat)
              (mkNode NODE_TYPE_SPLIT 0 4 (Some 1%nat) (Some 2%nat) NULL)) ∧
    (∀ x, x ∉ addrs (ANode 2 NODE_TYPE_SPLIT ALeaf ALeaf) → x ≠ 0%nat →
          cells m' !! x = cells mid2 !! x).
Proof.
  apply (coalesce_releases_node mid2 2 0
           (mkNode NODE_TYPE_SPLIT 0 4 (Some 1%nat) (Some 2%nat) NULL)
           2 2 ALeaf ALeaf 1).
  - split_and!; [vm_compute; reflexivity|exact I|exact I].
  - apply NoDup_singleton.
  - simpl. intros H. apply list_elem_of_singleton in H. lia.
  - vm_compute. reflexivity.
  - by left.
  - by left.
  - simpl. lia.
Defined.

(** C4.  In every reachable state a split node with an occupied child is
    left as it is whenever the fix-up visits it; and a free of any other
    node returns and leaves that node split, with the same occupied child
    below it. *)
Theorem occupied_child_blocks_merge total m buf al a n b bn c cn :
  0 ≤ total ≤ SIZE_MAX → reachable total m buf →
  alloc_node al = Some a → cells m !! a = Some n →
  node_type n = NODE_TYPE_OCCUPIED →
  cells m !! b = Some bn → node_type bn = NODE_TYPE_SPLIT →
  node_left bn = Some c ∨ node_right bn = Some c →
  cells m !! c = Some cn → node_type cn = NODE_TYPE_OCCUPIED →
  (∀ fuel, node_update (S fuel) m (Some b) = Ret m) ∧
  (c ≠ a →
   ∃ m' bn',
     (∃ k, ∀ f, buddy_buf_free (k + f) m al = Ret m') ∧
     (∀ fuel m'', buddy_buf_free fuel m al = Ret m'' → m'' = m') ∧
     cells m' !! b = Some bn' ∧ node_type bn' = NODE_TYPE_SPLIT ∧
     (node_left bn' = Some c ∨ node_right bn' = Some c) ∧
     cells m' !! c = Some cn).
Proof.
  intros Htot Hreach Hal Ha Hn Hb Hbn Hlink Hc Hcn.
  destruct (reachable_inv _ _ _ Htot Hreach) as [t Hinv].
  pose proof Hinv as [Hroot Hrep Hnd Hlt Hdom Hshape].
  assert (Hbt : b ∈ addrs t) by eauto.
  assert (Hct : c ∈ addrs t) by eauto.
  destruct (rep_child _ _ _ _ _ b bn Hrep Hbt Hb) as [Hchl Hchr].
  split.
  - intros fuel. eapply (node_update_split_busy _ _ _ _ c); [done..| |].
    { by rewrite Hcn. }
    destruct Hlink as [?|Hr]; [by left|right]. split; [done|].
    destruct (node_left bn) as [l|] eqn:Hl; [right|by left].
    destruct (Hchl l eq_refl) as (ln & ? & _). eauto.
  - intros Hca.
    assert (Hs : settled t).
    { destruct Hshape as [|(x & ->)]; [done|].
      apply list_elem_of_singleton in Hct as ->.
      destruct Hrep as (Hx & _). rewrite Hx in Hc. by injection Hc as <-. }
    assert (Hpar : node_parent cn = Some b).
    { destruct Hlink as [Hl|Hr].
      - destruct (Hchl c Hl) as (cn' & Hc' & _ & _ & ?). congruence.
      - destruct (Hchr c Hr) as (cn' & Hc' & _ & _ & ?). congruence. }
    assert (Hba : b ≠ a) by (intros ->; congruence).
    destruct (occupied_is_leaf _ _ _ _ _ c cn Hrep Hs Hct Hc Hcn) as [Hcl Hcr].
    destruct (buddy_inv_free total m buf t al a n Hinv Hal Ha Hn)
      as (k & Hk & [(m' & t' & Heq & Hinv' & Hsp)|(Hocc & _)]).
    + destruct Hsp as [_ Hrep' _ _ _ _ _ _ Hcell Hocc].
      assert (Hc0 : cells (marked m a n) !! c = Some cn).
      { simpl. by rewrite lookup_insert_ne. }
      assert (Hb0 : cells (marked m a n) !! b = Some bn).
      { simpl. by rewrite lookup_insert_ne. }
      assert (Hct' : c ∈ addrs t').
      { destruct (occ_in (cells (marked m a n)) None 0 total (mark a t) c cn)
          as [x Hx]; [by apply mark_rep|by rewrite mark_addrs|done|done|].
        rewrite <- Hocc in Hx. by eapply occ_addr. }
      assert (Hc' : cells m' !! c = Some cn).
      { destruct (Hcell c Hct') as (n0 & Hn0 & Hcases).
        rewrite Hc0 in Hn0. injection Hn0 as <-.
        by rewrite with_left_leaf, with_right_leaf in Hcases; intuition. }
      destruct (rep_parent _ _ _ _ _ c cn b Hrep' Hct' Hc' Hpar)
        as [[_ ?]|(Hbt' & bn' & Hb' & Hlink')]; [done|].
      exists m', bn'. split_and!; [by exists k| |done| |done|done].
      * intros fuel m'' Hfree. specialize (Heq fuel).
        rewrite (buddy_buf_free_unfold _ _ _ _ _ Hal Ha) in Hfree.
        rewrite (buddy_buf_free_unfold _ _ _ _ _ Hal Ha) in Heq.
        apply (node_update_mono fuel (k + fuel)) in Hfree; [|lia].
        rewrite Heq in Hfree. by injection Hfree.
      * destruct (Hcell b Hbt') as (n0 & Hn0 & Hcases).
        rewrite Hb0 in Hn0. injection Hn0 as <-.
        destruct Hcases as [H|[H|H]]; rewrite Hb' in H; injection H as ->;
          done.
    + destruct (occ_in (cells (marked m a n)) None 0 total (mark a t) c cn)
        as [x Hx]; [by apply mark_rep|by rewrite mark_addrs| |done|].
      { simpl. by rewrite lookup_insert_ne. }
      rewrite Hocc in Hx. set_solver.
Qed.

Lemma occupied_child_blocks_merge_witness :
  (∀ fuel, node_update (S fuel) run2 (Some 1%nat) = Ret run2) ∧
  (3%nat ≠ 2%nat →
   ∃ m' bn',
     (∃ k, ∀ f, buddy_buf_free (k + f) run2 got1 = Ret m') ∧
     (∀ fuel m'', buddy_buf_free fuel run2 got1 = Ret m'' → m'' = m') ∧
     cells m' !! 1%nat = Some bn' ∧ node_type bn' = NODE_TYPE_SPLIT ∧
     (node_left bn' = Some 3%nat ∨ node_right bn' = Some 3%nat) ∧
     cells m' !! 3%nat =
       Some (mkNode NODE_TYPE_OCCUPIED 256 256 NULL NULL (Some 1%nat))).
Proof.
  apply (occupied_child_blocks_merge 1024 run2 0 got1 2
           (mkNode NODE_TYPE_OCCUPIED 0 256 NULL NULL (Some 1%nat)) 1
           (mkNode NODE_TYPE_SPLIT 0 512 (Some 2%nat) (Some 3%nat) (Some 0%nat))).
  - unfold SIZE_MAX. lia.
  - exact run2_reachable.
  - vm_compute. reflexivity.
  - vm_compute. reflexivity.
  - reflexivity.
  - vm_compute. reflexivity.
  - reflexivity.
  - right. reflexivity.
  - vm_compute. reflexivity.
  - reflexivity.
Defined.

(** C5.  On a fresh allocator over 1024 units two requests of 200 units
    are granted 256 units each, at offsets 0 and 256.  After the first one
    is freed, a request of 256 units is granted at offset 0 again, and the
    node of the second allocation is still occupied, with the offset and
    size it had. *)
Theorem partial_coalescing_scenario fuel :
  (11 ≤ fuel)%nat →
  buddy_buf_new mem_empty 1024 = (run0, 0%nat) ∧
  buddy_buf_alloc fuel run0 0 200 out0 = Ret (run1, got1, 1) ∧
  (alloc_offset got1 = 0 ∧ alloc_size got1 = 256) ∧
  buddy_buf_alloc fuel run1 0 200 out0 = Ret (run2, got2, 1) ∧
  (alloc_offset got2 = 256 ∧ alloc_size got2 = 256) ∧
  buddy_buf_free fuel run2 got1 = Ret run3 ∧
  buddy_buf_alloc fuel run3 0 256 out0 = Ret (run4, got4, 1) ∧
  (alloc_offset got4 = 0 ∧ alloc_size got4 = 256) ∧
  (∃ c n, alloc_node got2 = Some c ∧
     n = mkNode NODE_TYPE_OCCUPIED 256 256 NULL NULL (node_parent n) ∧
     cells run2 !! c = Some n ∧ cells run3 !! c = Some n ∧
     cells run4 !! c = Some n).
Proof.
  intros Hfuel.
  assert (Hu : update run2 (alloc_node got1) (with_type NODE_TYPE_FREE)
               = Ret (marked run2 2 (mkNode NODE_TYPE_OCCUPIED 0 256 NULL NULL
                                       (Some 1%nat))))
    by (vm_compute; reflexivity).
  split_and!.
  - vm_compute. reflexivity.
  - apply (alloc_buf_node_mono 11 fuel); [done|]. vm_compute. reflexivity.
  - vm_compute. reflexivity.
  - vm_compute. reflexivity.
  - apply (alloc_buf_node_mono 11 fuel); [done|]. vm_compute. reflexivity.
  - vm_compute. reflexivity.
  - vm_compute. reflexivity.
  - unfold buddy_buf_free. rewrite Hu, bind_Ret.
    apply (node_update_mono 11 fuel); [done|]. vm_compute. reflexivity.
  - apply (alloc_buf_node_mono 11 fuel); [done|]. vm_compute. reflexivity.
  - vm_compute. reflexivity.
  - vm_compute. reflexivity.
  - exists 3%nat, (mkNode NODE_TYPE_OCCUPIED 256 256 NULL NULL (Some 1%nat)).
    split_and!; vm_compute; reflexivity.
Qed.

Lemma partial_coalescing_scenario_witness :
  buddy_buf_new mem_empty 1024 = (run0, 0%nat) ∧
  buddy_buf_alloc 11 run0 0 200 out0 = Ret (run1, got1, 1) ∧
  (alloc_offset got1 = 0 ∧ alloc_size got1 = 256) ∧
  buddy_buf_alloc 11 run1 0 200 out0 = Ret (run2, got2, 1) ∧
  (alloc_offset got2 = 256 ∧ alloc_size got2 = 256) ∧
  buddy_buf_free 11 run2 got1 = Ret run3 ∧
  buddy_buf_alloc 11 run3 0 256 out0 = Ret (run4, got4, 1) ∧
  (alloc_offset got4 = 0 ∧ alloc_size got4 = 256) ∧
  (∃ c n, alloc_node got2 = Some c ∧
     n = mkNode NODE_TYPE_OCCUPIED 256 256 NULL NULL (node_parent n) ∧
     cells run2 !! c = Some n ∧ cells run3 !! c = Some n ∧
     cells run4 !! c = Some n).
Proof. apply (partial_coalescing_scenario 11). lia. Defined.

(** C6.  On a fresh allocator over [total > 0] units the first request of
    a size between 1 and [total] is granted; the granted offset is 0,
    hence a multiple of the granted size, and the granted size is the smallest
    value among [total], [total / 2], [total / 4], ... (repeated integer
    halving) that is still at least the requested size. *)
Theorem first_alloc_fit total size fuel out m buf :
  0 < total ≤ SIZE_MAX → 1 ≤ size ≤ total →
  (depth_bound total ≤ fuel)%nat →
  buddy_buf_new mem_empty total = (m, buf) →
  ∃ m' al,
    buddy_buf_alloc fuel m buf size out = Ret (m', al, 1) ∧
    alloc_offset al = 0 ∧
    (alloc_size al | alloc_offset al) ∧
    size ≤ alloc_size al ∧
    (∃ k, 0 ≤ k ∧ alloc_size al = total / 2 ^ k) ∧
    (∀ j, 0 ≤ j → size ≤ total / 2 ^ j → alloc_size al ≤ total / 2 ^ j).
Proof.
  intros Htot Hsize Hfuel [= <- <-].
  set (root := mkNode NODE_TYPE_FREE 0 total NULL NULL NULL).
  destruct (alloc_fresh_grant fuel (malloc mem_empty root).1 0%nat root size out)
    as (m' & c & k & Heq & Hk & Hle & Hlt); simpl; try done; try lia.
  subst root. simpl in *.
  exists m', (mkAlloc 0 (total / 2 ^ k) (Some c)). simpl.
  split_and!; [done|done|apply Z.divide_0_r|done|by exists k|].
  intros j Hj Hfit. destruct (decide (j ≤ k)) as [Hjk|Hjk].
  - apply halving_antitone; lia.
  - pose proof (halving_antitone total (k + 1) j). lia.
Qed.

Lemma first_alloc_fit_witness :
  ∃ m' al,
    buddy_buf_alloc 11 (buddy_buf_new mem_empty 1024).1
      (buddy_buf_new mem_empty 1024).2 200 out0 = Ret (m', al, 1) ∧
    alloc_offset al = 0 ∧
    (alloc_size al | alloc_offset al) ∧
    200 ≤ alloc_size al ∧
    (∃ k, 0 ≤ k ∧ alloc_size al = 1024 / 2 ^ k) ∧
    (∀ j, 0 ≤ j → 200 ≤ 1024 / 2 ^ j → alloc_size al ≤ 1024 / 2 ^ j).
Proof.
  apply (first_alloc_fit 1024 200 11 out0).
  - unfold SIZE_MAX. lia.
  - lia.
  - vm_compute. lia.
  - reflexivity.
Defined.

(** C7.  Starting from a fresh allocator, whatever sequence of requests
    (each of a positive size) is made without freeing anything, the calls
    all return, and the ranges [offset, offset + size) of the granted
    allocations lie within [0, total) and are pairwise non-overlapping. *)
Theorem allocations_disjoint total sizes fuel out m buf :
  0 ≤ total ≤ SIZE_MAX → Forall (λ s, 1 ≤ s) sizes →
  (depth_bound total ≤ fuel)%nat →
  buddy_buf_new mem_empty total = (m, buf) →
  ∃ m' als,
    run_allocs fuel m buf sizes out = Ret (m', als) ∧
    (∀ al, al ∈ als →
       0 ≤ alloc_offset al ∧ 0 < alloc_size al ∧
       alloc_offset al + alloc_size al ≤ total) ∧
    (∀ i j a b, i ≠ j → als !! i = Some a → als !! j = Some b →
       alloc_offset a + alloc_size a ≤ alloc_offset b ∨
       alloc_offset b + alloc_size b ≤ alloc_offset a).
Proof.
  intros Htot Hsizes Hfuel Hnew.
  destruct (run_allocs_inv total buf fuel out sizes m
              (ANode buf NODE_TYPE_FREE ALeaf ALeaf) [])
    as (m' & als & t' & Hrun & Hinv & Hperm & Hpos);
    [done|done|by apply buddy_inv_new|done|done|].
  simpl in Hperm. exists m', als. split; [done|].
  assert (Hocc : Forall (within 0 total) (occ 0 total t').*2 ∧
                 pairwise_apart (occ 0 total t').*2).
  { destruct (inv_shape _ _ _ _ Hinv) as [Hs|(b & ->)].
    - apply occ_ranges; [done|lia].
    - simpl. split; [constructor|done]. }
  destruct Hocc as [Hin Hap]. rewrite <- Hperm in Hin.
  apply (pairwise_apart_perm _ (range <$> als)) in Hap; [|done].
  split.
  - intros al Hal. rewrite Forall_forall in Hin.
    rewrite Forall_forall in Hpos.
    specialize (Hin (range al) ltac:(by apply list_elem_of_fmap_2)).
    specialize (Hpos al Hal). unfold within, range in Hin. simpl in *. lia.
  - intros i j a b Hij Ha Hb.
    apply (pairwise_apart_lookup _ i j (range a) (range b) Hap Hij);
      by rewrite list_lookup_fmap, ?Ha, ?Hb.
Qed.

Lemma allocations_disjoint_witness :
  ∃ m' als,
    run_allocs 11 (buddy_buf_new mem_empty 1024).1
      (buddy_buf_new mem_empty 1024).2 [200; 200; 100; 600; 512] out0
      = Ret (m', als) ∧
    (∀ al, al ∈ als →
       0 ≤ alloc_offset al ∧ 0 < alloc_size al ∧
       alloc_offset al + alloc_size al ≤ 1024) ∧
    (∀ i j a b, i ≠ j → als !! i = Some a → als !! j = Some b →
       alloc_offset a + alloc_size a ≤ alloc_offset b ∨
       alloc_offset b + alloc_size b ≤ alloc_offset a).
Proof.
  apply (allocations_disjoint 1024 [200; 200; 100; 600; 512] 11 out0).
  - unfold SIZE_MAX. lia.
  - repeat constructor; lia.
  - vm_compute. lia.
  - reflexivity.
Defined.

(** C8.  In every reachable state (that is, after every allocation and
    every free that returns) a node that is reached from the root by a
    path of [d] links has size [total / 2 ^ d]; every node of the store is
    reached by such a path; every child has half the size of its parent
    (rounded down), the left child at the parent's offset and the right
    child at the parent's offset plus that half; and this is what
    [buf_node_new] creates below any node of the tree. *)
Theorem node_size_by_depth total m buf :
  0 ≤ total ≤ SIZE_MAX → reachable total m buf →
  (∀ path a n,
     walk (cells m) (Some buf) path = Some a → cells m !! a = Some n →
     node_size n = total / 2 ^ Z.of_nat (length path)) ∧
  (∀ a n, cells m !! a = Some n →
     ∃ path, walk (cells m) (Some buf) path = Some a) ∧
  (∀ a n c, cells m !! a = Some n →
     (node_left n = Some c → ∃ cn, cells m !! c = Some cn ∧
        node_size cn = node_size n / 2 ∧ node_offset cn = node_offset n) ∧
     (node_right n = Some c → ∃ cn, cells m !! c = Some cn ∧
        node_size cn = node_size n / 2 ∧
        node_offset cn = node_offset n + node_size n / 2)) ∧
  (∀ a n (left : bool) m' c, cells m !! a = Some n →
     buf_node_new m (Some a) left = Ret (m', c) →
     cells m' !! c =
       Some (mkNode NODE_TYPE_FREE
               (node_offset n + (if left then 0 else node_size n / 2))
               (node_size n / 2) NULL NULL (Some a))).
Proof.
  intros Htot Hreach.
  destruct (reachable_inv _ _ _ Htot Hreach) as [t [Hroot Hrep Hnd Hlt Hdom _]].
  split_and!.
  - intros path a n Hw Ha. rewrite <- Hroot in Hw. by eapply rep_walk.
  - intros a n Ha. rewrite <- Hroot. eapply rep_walk_to; [done|]. eauto.
  - intros a n c Ha.
    destruct (rep_child _ _ _ _ _ a n Hrep ltac:(eauto) Ha) as [Hl Hr].
    split; intros Hc.
    + destruct (Hl c Hc) as (cn & ? & ? & ? & _). eauto.
    + destruct (Hr c Hc) as (cn & ? & ? & ? & _). eauto.
  - intros a n left m' c Ha Hnew.
    rewrite (buf_node_new_Some _ _ _ _ Ha) in Hnew. injection Hnew as <- <-.
    simpl. rewrite lookup_insert_eq. unfold fresh_node.
    destruct (rep_bounds _ _ _ _ _ a n Hrep ltac:(lia) ltac:(eauto) Ha)
      as (Ho & Hs & Hos).
    rewrite wrap_id; [done|]. destruct left; lia.
Qed.

Lemma node_size_by_depth_witness :
  (∀ path a n,
     walk (cells run2) (Some 0%nat) path = Some a → cells run2 !! a = Some n →
     node_size n = 1024 / 2 ^ Z.of_nat (length path)) ∧
  (∀ a n, cells run2 !! a = Some n →
     ∃ path, walk (cells run2) (Some 0%nat) path = Some a) ∧
  (∀ a n c, cells run2 !! a = Some n →
     (node_left n = Some c → ∃ cn, cells run2 !! c = Some cn ∧
        node_size cn = node_size n / 2 ∧ node_offset cn = node_offset n) ∧
     (node_right n = Some c → ∃ cn, cells run2 !! c = Some cn ∧
        node_size cn = node_size n / 2 ∧
        node_offset cn = node_offset n + node_size n / 2)) ∧
  (∀ a n (left : bool) m' c, cells run2 !! a = Some n →
     buf_node_new run2 (Some a) left = Ret (m', c) →
     cells m' !! c =
       Some (mkNode NODE_TYPE_FREE
               (node_offset n + (if left then 0 else node_size n / 2))
               (node_size n / 2) NULL NULL (Some a))).
Proof.
  apply (node_size_by_depth 1024).
  - unfold SIZE_MAX. lia.
  - exact run2_reachable.
Defined.

(** C9.  In every reachable state an allocation request of a positive
    size that fails (returns 0) leaves no trace: the store after the call
    is the store before it (no node changed its state, none was created)
    and the caller's output variable holds what it held before.  Such a
    call does return, with 0 or 1, once the recursion budget covers the
    depth of the tree. *)
Theorem failed_alloc_no_trace total m buf fuel size out :
  0 ≤ total ≤ SIZE_MAX → reachable total m buf → 1 ≤ size →
  (∀ m' out', buddy_buf_alloc fuel m buf size out = Ret (m', out', 0) →
     m' = m ∧ out' = out) ∧
  ((depth_bound total ≤ fuel)%nat →
   ∃ m' out' r, buddy_buf_alloc fuel m buf size out = Ret (m', out', r) ∧
     ((r = 0 ∧ m' = m ∧ out' = out) ∨ r = 1)).
Proof.
  intros Htot Hreach Hsize. split.
  - intros m' out'. apply alloc_fail_unchanged.
  - intros Hfuel. destruct (reachable_inv _ _ _ Htot Hreach) as [t Hinv].
    destruct (buddy_inv_alloc total m buf t fuel size out)
      as [Hfail|(m' & al & t' & Heq & _)]; [done..| |].
    + exists m, out, 0. split; [done|]. by left.
    + exists m', al, 1. split; [done|]. by right.
Qed.

Lemma failed_alloc_no_trace_witness :
  (∀ m' out', buddy_buf_alloc 11 run2 0 600 out0 = Ret (m', out', 0) →
     m' = run2 ∧ out' = out0) ∧
  ((depth_bound 1024 ≤ 11)%nat →
   ∃ m' out' r, buddy_buf_alloc 11 run2 0 600 out0 = Ret (m', out', r) ∧
     ((r = 0 ∧ m' = run2 ∧ out' = out0) ∨ r = 1)).
Proof.
  apply (failed_alloc_no_trace 1024 run2 0 11 600 out0).
  - unfold SIZE_MAX. lia.
  - exact run2_reachable.
  - lia.
Defined.

(** C10.  In every reachable state an allocation request of a positive
    size returns: a recursion budget logarithmic in the total size is
    always enough, because a call on a node recurses only into children,
    and whenever it does (half the node's size is at least the requested
    size, which is at least 1) the child is strictly smaller than the
    node. *)
Theorem alloc_terminates total m buf fuel size out :
  0 ≤ total ≤ SIZE_MAX → reachable total m buf → 1 ≤ size →
  (depth_bound total ≤ fuel)%nat →
  (∃ m' out' r,
     buddy_buf_alloc fuel m buf size out = Ret (m', out', r) ∧
     (r = 0 ∨ r = 1)) ∧
  (∀ a n c, cells m !! a = Some n →
     node_left n = Some c ∨ node_right n = Some c →
     size ≤ node_size n / 2 →
     ∃ cn, cells m !! c = Some cn ∧ node_size cn = node_size n / 2 ∧
           node_size cn < node_size n).
Proof.
  intros Htot Hreach Hsize Hfuel.
  destruct (reachable_inv _ _ _ Htot Hreach) as [t Hinv]. split.
  - destruct (buddy_inv_alloc total m buf t fuel size out)
      as [Hfail|(m' & al & t' & Heq & _)]; [done..| |]; eauto 10.
  - intros a n c Ha Hc Hhalf.
    destruct Hinv as [Hroot Hrep Hnd Hlt Hdom _].
    destruct (rep_child _ _ _ _ _ a n Hrep ltac:(eauto) Ha) as [Hl Hr].
    destruct Hc as [Hc|Hc].
    + destruct (Hl c Hc) as (cn & ? & ? & _). exists cn. split_and!; [done..|lia].
    + destruct (Hr c Hc) as (cn & ? & ? & _). exists cn. split_and!; [done..|lia].
Qed.

Lemma alloc_terminates_witness :
  (∃ m' out' r,
     buddy_buf_alloc 11 run2 0 100 out0 = Ret (m', out', r) ∧
     (r = 0 ∨ r = 1)) ∧
  (∀ a n c, cells run2 !! a = Some n →
     node_left n = Some c ∨ node_right n = Some c →
     100 ≤ node_size n / 2 →
     ∃ cn, cells run2 !! c = Some cn ∧ node_size cn = node_size n / 2 ∧
           node_size cn < node_size n).
Proof.
  apply (alloc_terminates 1024 run2 0 11 100 out0).
  - unfold SIZE_MAX. lia.
  - exact run2_reachable.
  - lia.
  - vm_compute. lia.
Defined.

(** * Further properties *)

(** ** Occupied partitions are not empty, and the tree is shallow *)

(** Every reachable state satisfies the invariant with a tree whose
    occupied partitions hold at least one unit. *)
Lemma reachable_inv_sized total m buf :
  0 ≤ total ≤ SIZE_MAX → reachable total m buf →
  ∃ t, buddy_inv total m buf t ∧ Forall (λ x, 1 ≤ x.2.2) (occ 0 total t).
Proof.
  intros Htot. induction 1 as
    [m buf Hnew|m buf fuel size out m' out' r _ (t & IH & Hpos) Hsize Hal
    |m buf fuel al a n m' _ (t & IH & Hpos) Hal Ha Hty Hfree].
  - eexists. split; [by apply buddy_inv_new|]. simpl. constructor.
  - set (fuel' := (fuel `max` depth_bound total)%nat).
    apply (alloc_buf_node_mono fuel fuel') in Hal; [|lia].
    destruct (buddy_inv_alloc total m buf t fuel' size out)
      as [Hfail|(m1 & al & t' & Heq & Hinv & Hpost)]; [done|done|done|lia|..];
      unfold buddy_buf_alloc in *.
    + rewrite Hfail in Hal. injection Hal as <- <- <-. eauto.
    + rewrite Heq in Hal. injection Hal as <- <- <-. exists t'.
      split; [done|].
      destruct Hpost as [_ _ _ _ _ _ _ _ _ (c & _ & Hocc) Hgr].
      rewrite Hocc. apply Forall_cons. split; [simpl; lia|done].
  - destruct (buddy_inv_free total m buf t al a n IH Hal Ha Hty)
      as (k & Hk & [(m1 & t' & Heq & Hinv & Hsp)|(_ & mx & Hcrash)]).
    + unfold buddy_buf_free in Hfree, Heq.
      specialize (Heq fuel).
      apply bind_inv in Hfree as (m0 & Hu & Hfree).
      rewrite Hu in Heq. simpl in Heq.
      apply (node_update_mono fuel (k + fuel)) in Hfree; [|lia].
      rewrite Hfree in Heq. injection Heq as <-. exists t'. split; [done|].
      destruct Hsp as [_ _ _ _ _ _ _ _ _ Hocc]. rewrite Hocc.
      rewrite Forall_forall in Hpos. apply Forall_forall. intros [c x] Hx.
      apply occ_mark_sub in Hx as [Hx _]; [|by destruct IH]. by apply Hpos.
    + unfold buddy_buf_free in Hfree, Hcrash.
      specialize (Hcrash (S fuel) ltac:(lia)).
      apply bind_inv in Hfree as (m0 & Hu & Hfree).
      rewrite Hu in Hcrash. simpl in Hcrash.
      apply (node_update_mono fuel (k + S fuel)) in Hfree; [|lia].
      rewrite Hfree in Hcrash. discriminate.
Qed.

(** A settled tree whose occupied partitions are not empty has no node of
    size 0, so it is at most logarithmically deep. *)
Lemma settled_height t : ∀ off sz,
  settled t → Forall (λ x, 1 ≤ x.2.2) (occ off sz t) →
  (is_Some (root_ptr t) → 1 ≤ sz) ∧ (height t ≤ depth_bound sz)%nat.
Proof.
  induction t as [|a ty l IHl r IHr]; intros off sz Hs Hpos; simpl.
  { split; [by intros []|lia]. }
  destruct ty; [done| |]; simpl in Hpos.
  - destruct Hs as (Hsl & Hsr & Hsome).
    apply Forall_app in Hpos as [Hpl Hpr].
    destruct (IHl off (sz / 2) Hsl Hpl) as [Hl1 Hl2].
    destruct (IHr (off + sz / 2) (sz / 2) Hsr Hpr) as [Hr1 Hr2].
    assert (1 ≤ sz / 2) as Hhalf by (destruct Hsome; auto).
    pose proof (depth_bound_half sz Hhalf).
    split; [lia|]. lia.
  - destruct Hs as [-> ->]. simpl in *. apply Forall_cons in Hpos as [Hp _].
    simpl in Hp. split; [done|]. unfold depth_bound. lia.
Qed.

(** In a reachable state the tree is no deeper than [depth_bound total]. *)
Lemma reachable_height total m buf :
  0 ≤ total ≤ SIZE_MAX → reachable total m buf →
  ∃ t, buddy_inv total m buf t ∧ (height t ≤ depth_bound total)%nat.
Proof.
  intros Htot Hreach.
  destruct (reachable_inv_sized _ _ _ Htot Hreach) as (t & Hinv & Hpos).
  exists t. split; [done|].
  destruct (inv_shape _ _ _ _ Hinv) as [Hs|(a & ->)].
  - by destruct (settled_height t 0 total Hs Hpos).
  - simpl. unfold depth_bound. lia.
Qed.

(** ** Teardown *)

(** [destroy_buf_node] on the root releases both subtrees and leaves the
    root, which has no parent, in the store. *)
Lemma destroy_root a ty l r fuel m off sz :
  (height (ANode a ty l r) ≤ fuel)%nat →
  rep (cells m) None off sz (ANode a ty l r) →
  NoDup (addrs (ANode a ty l r)) →
  ∃ m', destroy_buf_node fuel m (Some a) = Ret m' ∧
    brk m' = brk m ∧
    is_Some (cells m' !! a) ∧
    (∀ b, b ∈ addrs l ++ addrs r → cells m' !! b = None) ∧
    (∀ b, b ∉ addrs (ANode a ty l r) → cells m' !! b = cells m !! b).
Proof.
  intros Hfuel (Ha & Hl & Hr) Hnd.
  destruct fuel as [|fuel]; [simpl in Hfuel; lia|]. simpl in Hfuel.
  apply NoDup_cons in Hnd as [Hal Hnd].
  apply NoDup_app in Hnd as (Hndl & Hlr & Hndr).
  rewrite elem_of_app in Hal.
  set (n := mkNode ty off sz (root_ptr l) (root_ptr r) None) in *.
  simpl. rewrite (load_Some _ _ _ Ha). simpl.
  destruct (destroy_spec l fuel m a n off (sz / 2))
    as (m1 & -> & [Hb1 Hg1 Hp1 Hf1]); [lia|done|done|tauto|done|].
  simpl. rewrite (load_Some _ _ _ Hp1). simpl.
  set (n1 := unlink (root_ptr l) n) in *.
  assert (Hn1 : node_right n1 = root_ptr r ∧ node_parent n1 = None).
  { unfold n1, unlink. destruct (root_ptr l) eqn:E; [|done].
    by rewrite bool_decide_eq_true_2. }
  destruct Hn1 as (Hn1r & Hn1p). rewrite Hn1r.
  destruct (destroy_spec r fuel m1 a n1 (off + sz / 2) (sz / 2))
    as (m2 & -> & [Hb2 Hg2 Hp2 Hf2]); [lia| |done|tauto|done|].
  { eapply rep_frame; [exact Hr|]. intros b Hb. apply Hf1; [|set_solver].
    intros Hbl. by apply (Hlr b). }
  simpl. rewrite (load_Some _ _ _ Hp2). simpl.
  set (n2 := unlink (root_ptr r) n1) in *.
  assert (Hn2 : node_parent n2 = None).
  { unfold n2, unlink. destruct (root_ptr r); [|done]. by case_bool_decide. }
  rewrite Hn2. exists m2. split_and!; [done|congruence|eauto| |].
  - intros b Hb. apply elem_of_app in Hb as [Hb|Hb]; [|by apply Hg2].
    rewrite Hf2; [by apply Hg1| |set_solver].
    intros Hbr. by apply (Hlr b).
  - intros b Hb. rewrite Hf2, Hf1 by set_solver. done.
Qed.

(** ** What an allocation does to the other allocations *)

Lemma keeps_occupied_refl m : fresh_brk m → keeps_occupied m m.
Proof. by split. Qed.

Lemma keeps_occupied_trans m1 m2 m3 :
  keeps_occupied m1 m2 → keeps_occupied m2 m3 → keeps_occupied m1 m3.
Proof. intros [_ H12] [H3 H23]. split; eauto. Qed.

Lemma granted_trans m1 m2 m3 size al :
  keeps_occupied m1 m2 → granted m2 m3 size al → granted m1 m3 size al.
Proof.
  intros [_ H12] (c & cn & Hc & Hcn & Hty & Ho & Hs & Hle & Hlt & Hnew).
  exists c, cn. split_and!; try done.
  intros cn0 Hc0 Hty0. by apply (Hnew cn0); [apply H12|].
Qed.

(** Materialising a child below a node that is not occupied. *)
Lemma keeps_occupied_step m m2 a n :
  fresh_brk m → cells m !! a = Some n → node_type n ≠ NODE_TYPE_OCCUPIED →
  brk m2 = S (brk m) →
  (∀ c, c ≠ a → c ≠ brk m → cells m2 !! c = cells m !! c) →
  keeps_occupied m m2.
Proof.
  intros Hfresh Ha Hty Hbrk Hsame. split.
  - intros b Hb. rewrite Hbrk.
    destruct (decide (b = a)) as [->|Hba].
    { specialize (Hfresh a ltac:(eauto)). lia. }
    destruct (decide (b = brk m)) as [->|Hbb]; [lia|].
    rewrite Hsame in Hb by done. specialize (Hfresh b Hb). lia.
  - intros c cn Hc Hcn. rewrite Hsame; [done| |].
    + intros ->. congruence.
    + intros ->. specialize (Hfresh (brk m) ltac:(eauto)). lia.
Qed.

(** The child [buf_node_new] creates and links below [a], then the
    descent into it. *)
Lemma alloc_new_child_keeps fuel m a n (left : bool) size out m' al r :
  (∀ m p size out m' al r,
     fresh_brk m → alloc_buf_node fuel m p size out = Ret (m', al, r) →
     keeps_occupied m m' ∧ (r ≠ 0 → r = 1 ∧ granted m m' size al)) →
  fresh_brk m → cells m !! a = Some n → node_type n ≠ NODE_TYPE_OCCUPIED →
  (buf_node_new m (Some a) left ≫= λ '(m1, new_node),
     update m1 (Some a)
       ((if left then with_left else with_right) (Some new_node)) ≫= λ m2,
     alloc_buf_node fuel m2 (Some new_node) size out) = Ret (m', al, r) →
  keeps_occupied m m' ∧ (r ≠ 0 → r = 1 ∧ granted m m' size al).
Proof.
  intros IH Hfresh Ha Hty H.
  rewrite (buf_node_new_Some _ _ _ _ Ha) in H. simpl in H.
  apply bind_inv in H as (m2 & Hu & H).
  apply update_inv in Hu as (b & nb & [= <-] & Hb & ->). simpl in *.
  match type of H with alloc_buf_node _ ?x _ _ _ = _ => set (m2 := x) in * end.
  assert (Hk : keeps_occupied m m2).
  { apply (keeps_occupied_step m m2 a n); [done..| |]; [done|].
    intros c Hca Hcb. simpl. by rewrite !lookup_insert_ne. }
  apply IH in H as [Hk' Hg]; [|apply Hk].
  split; [by eapply keeps_occupied_trans|].
  intros Hr. destruct (Hg Hr) as [-> Hgr]. split; [done|].
  by eapply granted_trans.
Qed.

Lemma alloc_keeps fuel : ∀ m p size out m' al r,
  fresh_brk m → alloc_buf_node fuel m p size out = Ret (m', al, r) →
  keeps_occupied m m' ∧ (r ≠ 0 → r = 1 ∧ granted m m' size al).
Proof.
  induction fuel as [|fuel IH]; intros m p size out m' al r Hfresh H;
    [discriminate|].
  simpl in H. apply bind_inv in H as (n & Hl & H).
  apply load_inv in Hl as (a & -> & Ha).
  destruct (node_type n) eqn:Hty.
  - destruct (node_size n / 2 >=? size) eqn:Hhalf.
    + rewrite (update_Some _ _ _ _ Ha) in H. simpl in H.
      set (m1 := mkMem (<[a:=with_type NODE_TYPE_SPLIT n]> (cells m)) (brk m))
        in *.
      assert (Hk1 : keeps_occupied m m1).
      { split.
        - intros b Hb. apply Hfresh. simpl in Hb.
          destruct (decide (b = a)) as [->|Hne]; [eauto|].
          by rewrite lookup_insert_ne in Hb.
        - intros c cn Hc Hcn. simpl. rewrite lookup_insert_ne; [done|].
          intros ->. congruence. }
      apply (alloc_new_child_keeps _ _ _ (with_type NODE_TYPE_SPLIT n) true)
        in H; [|done|apply Hk1|apply lookup_insert_eq|done].
      destruct H as [Hk Hg]. split; [by eapply keeps_occupied_trans|].
      intros Hr. destruct (Hg Hr) as [-> Hgr]. split; [done|].
      by eapply granted_trans.
    + destruct (node_size n >=? size) eqn:Hfull.
      * rewrite (update_Some _ _ _ _ Ha) in H. simpl in H.
        erewrite load_Some in H by apply lookup_insert_eq.
        injection H as <- <- <-. simpl.
        rewrite Z.geb_leb in Hhalf, Hfull.
        apply Z.leb_gt in Hhalf. apply Z.leb_le in Hfull.
        split; [split|].
        -- intros b Hb. apply Hfresh. simpl in Hb.
           destruct (decide (b = a)) as [->|Hne]; [eauto|].
           by rewrite lookup_insert_ne in Hb.
        -- intros c cn Hc Hcn. simpl. rewrite lookup_insert_ne; [done|].
           intros ->. congruence.
        -- intros _. split; [done|].
           exists a, (with_type NODE_TYPE_OCCUPIED n). simpl.
           split_and!; try done; [apply lookup_insert_eq|].
           intros cn0 Hc0. congruence.
      * injection H as <- <- <-. split; [by apply keeps_occupied_refl|done].
  - destruct (node_size n / 2 <? size) eqn:Hhalf.
    { injection H as <- <- <-. split; [by apply keeps_occupied_refl|done]. }
    destruct (node_left n) as [l|] eqn:Hleft.
    + apply bind_inv in H as ([[m1 out1] r1] & H1 & H).
      destruct (r1 =? 0) eqn:Hr1; simpl in H.
      * apply Z.eqb_eq in Hr1 as ->.
        apply alloc_fail_unchanged in H1 as [-> ->].
        rewrite (load_Some _ _ _ Ha) in H. simpl in H.
        destruct (node_right n) as [r0|] eqn:Hright.
        -- apply bind_inv in H as ([[m2 out2] r2] & H2 & H).
           apply IH in H2 as [Hk2 Hg2]; [|done].
           destruct (r2 =? 0) eqn:Hr2; simpl in H; injection H as <- <- <-.
           ++ split; [done|]. lia.
           ++ apply Z.eqb_neq in Hr2. split; [done|]. intros _.
              by destruct (Hg2 Hr2).
        -- apply (alloc_new_child_keeps _ _ _ n false) in H; try done.
           congruence.
      * injection H as <- <- <-. apply Z.eqb_neq in Hr1.
        apply IH in H1 as [Hk1 Hg1]; [|done].
        split; [done|]. intros _. by destruct (Hg1 Hr1).
    + apply (alloc_new_child_keeps _ _ _ n true) in H; try done. congruence.
  - injection H as <- <- <-. split; [by apply keeps_occupied_refl|done].
Qed.

(** ** The two outcomes of a free *)

Lemma settled_cell_not_free h par off sz t c cn :
  rep h par off sz t → settled t → c ∈ addrs t → h !! c = Some cn →
  node_type cn ≠ NODE_TYPE_FREE.
Proof.
  revert par off sz. induction t as [|b ty l IHl r IHr]; intros par off sz;
    simpl; [set_solver|].
  intros (Hb & Hl & Hr) Hs Hin Hc.
  destruct (decide (c = b)) as [->|Hne].
  - rewrite Hb in Hc. injection Hc as <-. simpl. by destruct ty.
  - apply elem_of_cons in Hin as [?|Hin]; [done|].
    destruct ty; [done| |destruct Hs as [-> ->]; set_solver].
    destruct Hs as (Hsl & Hsr & _).
    apply elem_of_app in Hin as [Hin|Hin]; eauto.
Qed.

(** A tree that holds an occupied node is settled. *)
Lemma occupied_settled total m buf t a n :
  buddy_inv total m buf t → cells m !! a = Some n →
  node_type n = NODE_TYPE_OCCUPIED → settled t.
Proof.
  intros [Hroot Hrep Hnd Hlt Hdom Hshape] Ha Hty.
  destruct Hshape as [|(b & ->)]; [done|].
  assert (Hin : a ∈ [b]) by (apply Hdom; eauto).
  apply list_elem_of_singleton in Hin as ->.
  destruct Hrep as (Hb & _). rewrite Hb in Ha. injection Ha as <-. done.
Qed.

Lemma free_cases total m buf t al a n :
  buddy_inv total m buf t →
  alloc_node al = Some a → cells m !! a = Some n →
  node_type n = NODE_TYPE_OCCUPIED →
  (∃ m', (∀ fuel, (height t ≤ fuel)%nat → buddy_buf_free fuel m al = Ret m') ∧
         (∃ t', buddy_inv total m' buf t') ∧
         free_post m buf a n m' ∧
         (a = buf ∨ ∃ c cn, c ≠ a ∧ cells m !! c = Some cn ∧
                            node_type cn = NODE_TYPE_OCCUPIED)) ∨
  (a ≠ buf ∧
   (∀ c cn, cells m !! c = Some cn → node_type cn = NODE_TYPE_OCCUPIED →
            c = a) ∧
   ∀ fuel, (height t < fuel)%nat → buddy_buf_free fuel m al = Crash).
Proof.
  intros Hinv Hal Ha Hty.
  pose proof (occupied_settled _ _ _ _ _ _ Hinv Ha Hty) as Hset.
  pose proof Hinv as [Hroot Hrep Hnd Hlt Hdom Hshape].
  assert (Hin : a ∈ addrs t) by (apply Hdom; eauto).
  assert (Hrootfree : a = buf → ∀ f,
    buddy_buf_free (S f) m al = Ret (marked m a n)).
  { intros -> f. rewrite (buddy_buf_free_unfold _ _ _ _ _ Hal Ha).
    destruct t as [|b ty l r]; [done|]. injection Hroot as ->.
    destruct Hrep as (Hb & _). rewrite Hb in Ha. injection Ha as <-.
    eapply node_update_free_root; [simpl; apply lookup_insert_eq|done|done]. }
  destruct (buddy_inv_free total m buf t al a n Hinv Hal Ha Hty)
    as (k & Hk & [(m' & t' & Heq & Hinv' & Hsp)|(Hocc & mx & Hcrash)]).
  - left. exists m'. split_and!; [|by exists t'| |].
    { intros fuel Hfuel. replace fuel with (k + (fuel - k))%nat by lia.
      apply Heq. }
    + pose proof Hinv' as [Hroot' Hrep' Hnd' Hlt' Hdom' Hshape'].
      destruct Hsp as [_ _ Hsh _ Hsub Hbrk Hframe Hgone Hcell Hocc].
      rewrite mark_addrs in *.
      assert (Hmk : ∀ c, c ≠ a → cells (marked m a n) !! c = cells m !! c).
      { intros c Hc. simpl. by rewrite lookup_insert_ne. }
      split.
      * done.
      * intros b Hb. apply Hdom', Hsub in Hb.
        by eapply rep_is_Some.
      * intros c cn Hca Hc Hcn.
        assert (Hct' : c ∈ addrs t').
        { destruct (occ_in (cells (marked m a n)) None 0 total (mark a t) c cn)
            as [x Hx]; [by apply mark_rep|rewrite mark_addrs; eauto
                       |by rewrite Hmk|done|].
          rewrite <- Hocc in Hx. by eapply occ_addr. }
        destruct (Hcell c Hct') as (n0 & Hn0 & Hcases).
        rewrite Hmk, Hc in Hn0 by done. injection Hn0 as <-.
        destruct (occupied_is_leaf _ _ _ _ _ c cn Hrep Hset ltac:(eauto) Hc Hcn)
          as [Hcl Hcr].
        by rewrite with_left_leaf, with_right_leaf in Hcases; intuition.
      * intros c cn Hc Hcn.
        destruct (Hcell c ltac:(eauto)) as (n0 & Hn0 & Hcases).
        assert (Hty0 : node_type n0 = NODE_TYPE_OCCUPIED).
        { destruct Hcases as [H|[H|H]]; rewrite Hc in H; injection H as ->;
            done. }
        assert (Hca : c ≠ a).
        { intros ->. simpl in Hn0. rewrite lookup_insert_eq in Hn0.
          injection Hn0 as <-. done. }
        split; [done|]. rewrite Hmk in Hn0 by done.
        destruct (occupied_is_leaf _ _ _ _ _ c n0 Hrep Hset ltac:(eauto) Hn0
                    Hty0) as [Hcl Hcr].
        rewrite with_left_leaf, with_right_leaf in Hcases by done.
        rewrite Hn0. symmetry. rewrite <- Hc. by intuition.
      * intros b bn' Hba Hb.
        destruct (Hcell b ltac:(eauto)) as (n0 & Hn0 & Hcases).
        rewrite Hmk in Hn0 by done. exists n0. split; [done|].
        rewrite Hb in Hcases.
        destruct Hcases as [[= ->]|[[= ->]|[= ->]]]; auto.
      * intros Hab. apply Hgone; [done|]. intros Hat'.
        destruct (Hcell a Hat') as (n0 & Hn0 & Hcases).
        simpl in Hn0. rewrite lookup_insert_eq in Hn0. injection Hn0 as <-.
        destruct (rep_is_Some _ _ _ _ _ a Hrep' Hat') as [cn' Hcn'].
        assert (node_type cn' = NODE_TYPE_FREE) as Hfree.
        { destruct Hcases as [H|[H|H]]; rewrite Hcn' in H; injection H as ->;
            done. }
        destruct Hshape' as [Hs'|(b & ->)].
        -- by apply (settled_cell_not_free _ _ _ _ _ a cn' Hrep' Hs' Hat').
        -- simpl in Hroot'. apply list_elem_of_singleton in Hat'. congruence.
      * intros Hab. specialize (Hrootfree Hab (k + 0)%nat).
        specialize (Heq 1%nat). replace (k + 1)%nat with (S (k + 0)) in Heq
          by lia. congruence.
    + destruct (decide (a = buf)) as [|Hab]; [by left|right].
      destruct Hsp as [Hroot' Hrep' Hsh _ Hsub Hbrk Hframe Hgone Hcell Hocc].
      rewrite mark_root in Hroot'.
      destruct Hsh as [Hs'|[_ (b & ->)]].
      * apply (settled_occ 0 total) in Hs';
          [|rewrite Hroot', Hroot; by eexists].
        rewrite Hocc in Hs'.
        destruct (occ 0 total (mark a t)) as [|[c x] o] eqn:E; [done|].
        destruct (occ_mark_sub a 0 total t c x Hnd) as [Hcin Hca];
          [rewrite E; by left|].
        destruct (occ_cell _ _ _ _ _ _ _ Hrep Hcin) as (cn & Hc & Hcty & _).
        eauto.
      * exfalso. simpl in Hroot'. rewrite Hroot in Hroot'.
        injection Hroot' as ->.
        destruct (Hcell buf ltac:(set_solver)) as (n0 & Hn0 & Hcases).
        destruct Hrep' as (Hb' & _).
        simpl in Hn0. rewrite lookup_insert_ne in Hn0 by done.
        assert (node_type n0 = NODE_TYPE_FREE) as Hfree.
        { destruct Hcases as [H|[H|H]]; rewrite Hb' in H; injection H as Hx;
            by rewrite <- Hx. }
        apply (settled_cell_not_free _ _ _ _ _ buf n0 Hrep Hset); [|done..].
        apply Hdom. eauto.
  - right.
    assert (Hcr : ∀ fuel, (height t < fuel)%nat →
                          buddy_buf_free fuel m al = Crash).
    { intros fuel Hfuel. replace fuel with (k + S (fuel - k - 1))%nat by lia.
      rewrite Hcrash by lia. apply node_update_null. }
    split_and!; [|  |done].
    + intros Hab. specialize (Hrootfree Hab (height t)).
      rewrite Hcr in Hrootfree by lia. discriminate.
    + intros c cn Hc Hcn. destruct (decide (c = a)) as [|Hca]; [done|].
      destruct (occ_in (cells (marked m a n)) None 0 total (mark a t) c cn)
        as [x Hx]; [by apply mark_rep|rewrite mark_addrs; eauto| |done|].
      { simpl. by rewrite lookup_insert_ne. }
      rewrite Hocc in Hx. set_solver.
Qed.

(** A result of [buddy_buf_free] does not depend on the budget. *)
Lemma buddy_buf_free_mono fuel fuel' m al :
  (fuel ≤ fuel')%nat →
  res_le (buddy_buf_free fuel m al) (buddy_buf_free fuel' m al).
Proof.
  intros Hle. unfold buddy_buf_free. apply res_le_bind; [apply res_le_refl|].
  intros m1. by apply node_update_mono.
Qed.

(** ** When an allocation succeeds *)

(** The value [alloc_buf_node] returns tells whether the tree has room. *)
Lemma alloc_room t : ∀ fuel m par off sz size out m' al r a,
  1 ≤ size → rep (cells m) par off sz t → root_ptr t = Some a →
  alloc_buf_node fuel m (Some a) size out = Ret (m', al, r) →
  r = (if has_room size sz t then 1 else 0).
Proof.
  induction t as [|b ty l IHl r0 IHr]; intros fuel m par off sz size out m' al
    r a Hsize Hrep Hroot H; [done|].
  injection Hroot as ->. destruct Hrep as (Ha & Hl & Hr).
  destruct fuel as [|fuel]; [discriminate|].
  simpl in H. rewrite (load_Some _ _ _ Ha) in H. simpl in H.
  set (n := mkNode ty off sz (root_ptr l) (root_ptr r0) par) in *.
  destruct ty; simpl.
  - destruct (sz / 2 >=? size) eqn:Hhalf.
    + rewrite (update_Some _ _ _ _ Ha) in H. simpl in H.
      apply Z.geb_le in Hhalf.
      apply (alloc_new_child_fits _ _ _ (with_type NODE_TYPE_SPLIT n) true)
        in H; [|apply lookup_insert_eq|done].
      assert (Hle : (size <=? sz) = true) by (apply Z.leb_le; lia).
      by rewrite Hle.
    + rewrite Z.geb_leb in H. destruct (size <=? sz) eqn:Hfull.
      * rewrite (update_Some _ _ _ _ Ha) in H. simpl in H.
        erewrite load_Some in H by apply lookup_insert_eq. by injection H.
      * by injection H.
  - rewrite Z.ltb_antisym in H.
    destruct (size <=? sz / 2) eqn:Hhalf; simpl in *; [|by injection H].
    apply Z.leb_le in Hhalf.
    destruct l as [|bl tyl ll lr]; simpl in H.
    { by apply (alloc_new_child_fits _ _ _ n true) in H. }
    apply bind_inv in H as ([[m1 out1] r1] & H1 & H).
    pose proof (IHl _ _ _ _ _ _ _ _ _ _ _ Hsize Hl eq_refl H1) as Hr1.
    destruct (has_room size (sz / 2) (ANode bl tyl ll lr)).
    { subst r1. simpl in H. by injection H. }
    subst r1. simpl in H. apply alloc_fail_unchanged in H1 as [-> ->].
    rewrite (load_Some _ _ _ Ha) in H. simpl in H.
    destruct r0 as [|br tyr rl rr]; simpl in H.
    { by apply (alloc_new_child_fits _ _ _ n false) in H. }
    apply bind_inv in H as ([[m2 out2] r2] & H2 & H).
    pose proof (IHr _ _ _ _ _ _ _ _ _ _ _ Hsize Hr eq_refl H2) as Hr2.
    destruct (has_room size (sz / 2) (ANode br tyr rl rr)); subst r2;
      simpl in H; by injection H.
  - by injection H.
Qed.

(** Room for a request is room for every smaller one. *)
Lemma has_room_antitone t : ∀ size size' sz,
  size ≤ size' → has_room size' sz t = true → has_room size sz t = true.
Proof.
  induction t as [|b ty l IHl r IHr]; intros size size' sz Hle; simpl; [done|].
  destruct ty; [| |done].
  - rewrite !Z.leb_le. lia.
  - rewrite !andb_true_iff, !orb_true_iff, !Z.leb_le.
    intros [? [?|?]]; split; try lia; eauto.
Qed.

(** A split node with an absent child has room for half its size. *)
Lemma room_at t : ∀ h par off sz size c cn,
  rep h par off sz t → settled t → 0 ≤ sz → c ∈ addrs t → h !! c = Some cn →
  node_type cn = NODE_TYPE_SPLIT →
  node_left cn = None ∨ node_right cn = None →
  size ≤ node_size cn / 2 →
  has_room size sz t = true.
Proof.
  induction t as [|b ty l IHl r IHr]; intros h par off sz size c cn Hrep Hs Hsz
    Hin Hc Hty Hnone Hsize; simpl; [set_solver|].
  pose proof Hrep as (Hb & Hl & Hr).
  destruct (decide (c = b)) as [->|Hne].
  - rewrite Hb in Hc. injection Hc as <-. simpl in *. subst ty.
    assert (Hle : (size <=? sz / 2) = true) by (apply Z.leb_le; lia).
    rewrite Hle. simpl.
    destruct Hnone as [Hn|Hn].
    + destruct l; [done|discriminate].
    + destruct r; [|discriminate]. simpl. apply orb_true_r.
  - apply elem_of_cons in Hin as [?|Hin]; [done|].
    destruct ty; [done| |destruct Hs as [-> ->]; set_solver].
    destruct Hs as (Hsl & Hsr & _).
    apply elem_of_app in Hin as [Hin|Hin].
    + destruct (rep_bounds _ _ _ _ _ c cn Hl ltac:(lia) Hin Hc) as (? & ? & ?).
      assert (Hle : (size <=? sz / 2) = true) by (apply Z.leb_le; lia).
      rewrite Hle. simpl.
      assert (has_room size (sz / 2) l = true) as ->; [|done].
      eapply IHl; [exact Hl|done|lia|exact Hin|exact Hc|done..].
    + destruct (rep_bounds _ _ _ _ _ c cn Hr ltac:(lia) Hin Hc) as (? & ? & ?).
      assert (Hle : (size <=? sz / 2) = true) by (apply Z.leb_le; lia).
      rewrite Hle. simpl.
      assert (has_room size (sz / 2) r = true) as ->; [|apply orb_true_r].
      eapply IHr; [exact Hr|done|lia|exact Hin|exact Hc|done..].
Qed.

(** When a node [a] of the tree is gone from the store [h'] but the root
    of the tree is still there, some node above [a] has lost its link. *)
Lemma cleared_link t : ∀ (h h' : gmap nat BuddyNode) par off sz a n,
  rep h par off sz t → settled t → 0 ≤ sz →
  a ∈ addrs t → h !! a = Some n → h' !! a = None →
  (∀ b, root_ptr t = Some b → is_Some (h' !! b)) →
  (∀ b bn', b ≠ a → h' !! b = Some bn' →
     ∃ bn, h !! b = Some bn ∧
       (bn' = bn ∨ bn' = with_left NULL bn ∨ bn' = with_right NULL bn)) →
  (∀ b bn' c, h' !! b = Some bn' →
     node_left bn' = Some c ∨ node_right bn' = Some c → is_Some (h' !! c)) →
  ∃ c cn', h' !! c = Some cn' ∧ node_type cn' = NODE_TYPE_SPLIT ∧
    (node_left cn' = None ∨ node_right cn' = None) ∧
    node_size n ≤ node_size cn' / 2.
Proof.
  induction t as [|b ty l IHl r IHr]; intros h h' par off sz a n Hrep Hs Hsz
    Hin Ha Ha' Hroot Hvar Hlinks; simpl in *; [set_solver|].
  destruct Hrep as (Hb & Hl & Hr).
  destruct (Hroot b eq_refl) as [bn' Hb'].
  assert (Hba : b ≠ a) by (intros ->; congruence).
  destruct (Hvar b bn' Hba Hb') as (bn & Hbn & Hcases).
  rewrite Hb in Hbn. injection Hbn as <-.
  apply elem_of_cons in Hin as [?|Hin]; [done|].
  destruct ty; [done| |destruct Hs as [-> ->]; set_solver].
  destruct Hs as (Hsl & Hsr & _).
  apply elem_of_app in Hin as [Hin|Hin].
  - destruct (rep_bounds _ _ _ _ _ a n Hl ltac:(lia) Hin Ha) as (? & ? & ?).
    destruct l as [|bl tyl ll lr]; [set_solver|].
    destruct (h' !! bl) as [bln'|] eqn:Hbl.
    + eapply (IHl h h' _ _ _ a n);
        [exact Hl|done|lia|exact Hin|done|done| |done|done].
      intros ? [= <-]. eauto.
    + exists b, bn'. split; [done|].
      destruct Hcases as [-> | [-> | ->]]; simpl.
      * destruct (Hlinks b _ bl Hb') as [? ?]; [by left|congruence].
      * split_and!; [done|by left|lia].
      * destruct (Hlinks b _ bl Hb') as [? ?]; [by left|congruence].
  - destruct (rep_bounds _ _ _ _ _ a n Hr ltac:(lia) Hin Ha) as (? & ? & ?).
    destruct r as [|br tyr rl rr]; [set_solver|].
    destruct (h' !! br) as [brn'|] eqn:Hbr.
    + eapply (IHr h h' _ _ _ a n);
        [exact Hr|done|lia|exact Hin|done|done| |done|done].
      intros ? [= <-]. eauto.
    + exists b, bn'. split; [done|].
      destruct Hcases as [-> | [-> | ->]]; simpl.
      * destruct (Hlinks b _ br Hb') as [? ?]; [by right|congruence].
      * destruct (Hlinks b _ br Hb') as [? ?]; [by right|congruence].
      * split_and!; [done|by right|lia].
Qed.

(** ** Occupied nodes in a state that satisfies the invariant *)

Lemma occupied_apart total m buf t c1 n1 c2 n2 :
  0 ≤ total → buddy_inv total m buf t →
  cells m !! c1 = Some n1 → node_type n1 = NODE_TYPE_OCCUPIED →
  cells m !! c2 = Some n2 → node_type n2 = NODE_TYPE_OCCUPIED →
  c1 ≠ c2 →
  within 0 total (node_offset n1, node_size n1) ∧
  apart (node_offset n1, node_size n1) (node_offset n2, node_size n2).
Proof.
  intros Htot Hinv H1 Ht1 H2 Ht2 Hne.
  pose proof (occupied_settled _ _ _ _ _ _ Hinv H1 Ht1) as Hs.
  destruct Hinv as [Hroot Hrep Hnd Hlt Hdom Hshape].
  destruct (occ_in _ _ _ _ _ c1 n1 Hrep ltac:(eauto) H1 Ht1) as [x1 Hx1].
  destruct (occ_in _ _ _ _ _ c2 n2 Hrep ltac:(eauto) H2 Ht2) as [x2 Hx2].
  destruct (occ_cell _ _ _ _ _ _ _ Hrep Hx1) as (n1' & Hn1 & _ & ->).
  destruct (occ_cell _ _ _ _ _ _ _ Hrep Hx2) as (n2' & Hn2 & _ & ->).
  rewrite H1 in Hn1. injection Hn1 as <-.
  rewrite H2 in Hn2. injection Hn2 as <-.
  destruct (occ_ranges t 0 total Hs Htot) as [Hw Hp].
  split.
  - rewrite Forall_forall in Hw. apply Hw.
    by apply (list_elem_of_fmap_2 snd) in Hx1.
  - apply list_elem_of_lookup in Hx1 as [i Hi].
    apply list_elem_of_lookup in Hx2 as [j Hj].
    eapply (pairwise_apart_lookup _ i j); [exact Hp| | |].
    + intros ->. rewrite Hi in Hj. by injection Hj.
    + by rewrite list_lookup_fmap, Hi.
    + by rewrite list_lookup_fmap, Hj.
Qed.

Lemma occupied_size total m buf t c cn :
  buddy_inv total m buf t → Forall (λ x, 1 ≤ x.2.2) (occ 0 total t) →
  cells m !! c = Some cn → node_type cn = NODE_TYPE_OCCUPIED →
  1 ≤ node_size cn.
Proof.
  intros [Hroot Hrep Hnd Hlt Hdom Hshape] Hpos Hc Hty.
  destruct (occ_in _ _ _ _ _ c cn Hrep ltac:(eauto) Hc Hty) as [x Hx].
  destruct (occ_cell _ _ _ _ _ _ _ Hrep Hx) as (cn' & Hcn & _ & ->).
  rewrite Hc in Hcn. injection Hcn as <-.
  rewrite Forall_forall in Hpos. apply (Hpos _ Hx).
Qed.

Lemma buddy_inv_fresh_brk total m buf t : buddy_inv total m buf t → fresh_brk m.
Proof. intros [_ _ _ Hlt Hdom _] b Hb. auto. Qed.

(** ** More example states *)

Lemma run0_reachable : reachable 1024 run0 0.
Proof. apply reach_new. reflexivity. Qed.

Lemma run1_reachable : reachable 1024 run1 0.
Proof.
  apply (reach_alloc 1024 run0 0 11 200 out0 run1 got1 1);
    [exact run0_reachable|lia|vm_compute; reflexivity].
Qed.

Lemma run3_reachable : reachable 1024 run3 0.
Proof.
  apply (reach_free 1024 run2 0 11 got1 2
           (mkNode NODE_TYPE_OCCUPIED 0 256 NULL NULL (Some 1%nat)) run3);
    [exact run2_reachable|reflexivity|vm_compute; reflexivity|reflexivity
    |vm_compute; reflexivity].
Qed.

Lemma run4_reachable : reachable 1024 run4 0.
Proof.
  apply (reach_alloc 1024 run3 0 11 256 out0 run4 got4 1);
    [exact run3_reachable|lia|vm_compute; reflexivity].
Qed.

(** ** Teardown, requests and frees in reachable states *)

(** X1.  Teardown.  In every reachable state [buddy_buf_destroy] returns
    once the budget covers the depth of the tree, and it leaves the store
    empty: every node of the allocator and the buffer with its root have
    been released, none of them twice, and no cell is left behind. *)
Theorem destroy_releases_everything total m buf fuel :
  0 ≤ total ≤ SIZE_MAX → reachable total m buf →
  (depth_bound total ≤ fuel)%nat →
  buddy_buf_destroy fuel m buf = Ret (mkMem ∅ (brk m)).
Proof.
  intros Htot Hreach Hfuel.
  destruct (reachable_height _ _ _ Htot Hreach) as (t & Hinv & Hh).
  destruct Hinv as [Hroot Hrep Hnd Hlt Hdom Hshape].
  destruct t as [|b ty l r]; [done|]. injection Hroot as ->.
  destruct (destroy_root buf ty l r fuel m 0 total)
    as (m' & Heq & Hbrk & [n' Hb] & Hgone & Hframe); [lia|done|done|].
  unfold buddy_buf_destroy. rewrite Heq. simpl.
  rewrite (mfree_Some _ _ _ Hb). f_equal. rewrite Hbrk. f_equal.
  apply map_eq. intros b. rewrite lookup_empty.
  destruct (decide (b = buf)) as [->|Hne]; [apply lookup_delete_eq|].
  rewrite lookup_delete_ne by done.
  destruct (decide (b ∈ addrs l ++ addrs r)) as [Hin|Hnin]; [by apply Hgone|].
  rewrite Hframe by set_solver.
  destruct (cells m !! b) eqn:E; [|done].
  specialize (Hdom b ltac:(eauto)). set_solver.
Qed.

Lemma destroy_releases_everything_witness :
  buddy_buf_destroy 11 run4 0 = Ret (mkMem ∅ (brk run4)).
Proof.
  apply (destroy_releases_everything 1024 run4 0 11).
  - unfold SIZE_MAX. lia.
  - exact run4_reachable.
  - vm_compute. lia.
Defined.

(** X2.  Exhaustion.  In every reachable state a request for more than
    the whole span fails at the root: the call returns 0 and leaves the
    store and the caller's output variable as they were. *)
Theorem oversize_request_fails total m buf fuel size out :
  0 ≤ total ≤ SIZE_MAX → reachable total m buf → total < size →
  buddy_buf_alloc (S fuel) m buf size out = Ret (m, out, 0).
Proof.
  intros Htot Hreach Hsize.
  destruct (reachable_inv _ _ _ Htot Hreach) as [t Hinv].
  destruct Hinv as [Hroot Hrep Hnd Hlt Hdom Hshape].
  destruct t as [|b ty l r]; [done|]. injection Hroot as ->.
  destruct Hrep as (Hb & _).
  unfold buddy_buf_alloc. simpl. rewrite (load_Some _ _ _ Hb). simpl.
  destruct ty.
  - assert ((total / 2 >=? size) = false) as -> by (rewrite Z.geb_leb; lia).
    by assert ((total >=? size) = false) as -> by (rewrite Z.geb_leb; lia).
  - by assert ((total / 2 <? size) = true) as -> by lia.
  - done.
Qed.

Lemma oversize_request_fails_witness :
  buddy_buf_alloc 1 run3 0 1025 out0 = Ret (run3, out0, 0).
Proof.
  apply (oversize_request_fails 1024 run3 0 0 1025 out0).
  - unfold SIZE_MAX. lia.
  - exact run3_reachable.
  - lia.
Defined.

(** X3.  Live allocations never overlap.  In every reachable state,
    whatever allocations and frees led to it, two different occupied
    nodes cover disjoint ranges; each range holds at least one unit and
    lies within the span of the allocator. *)
Theorem live_allocations_apart total m buf c1 n1 c2 n2 :
  0 ≤ total ≤ SIZE_MAX → reachable total m buf →
  cells m !! c1 = Some n1 → node_type n1 = NODE_TYPE_OCCUPIED →
  cells m !! c2 = Some n2 → node_type n2 = NODE_TYPE_OCCUPIED →
  c1 ≠ c2 →
  1 ≤ node_size n1 ∧
  within 0 total (node_offset n1, node_size n1) ∧
  apart (node_offset n1, node_size n1) (node_offset n2, node_size n2).
Proof.
  intros Htot Hreach H1 Ht1 H2 Ht2 Hne.
  destruct (reachable_inv_sized _ _ _ Htot Hreach) as (t & Hinv & Hpos).
  split; [by eapply occupied_size|].
  eapply occupied_apart; eauto. lia.
Qed.

Lemma live_allocations_apart_witness :
  1 ≤ 256 ∧ within 0 1024 (0, 256) ∧ apart (0, 256) (256, 256).
Proof.
  apply (live_allocations_apart 1024 run4 0
           4 (mkNode NODE_TYPE_OCCUPIED 0 256 NULL NULL (Some 1%nat))
           3 (mkNode NODE_TYPE_OCCUPIED 256 256 NULL NULL (Some 1%nat))).
  - unfold SIZE_MAX. lia.
  - exact run4_reachable.
  - vm_compute. reflexivity.
  - reflexivity.
  - vm_compute. reflexivity.
  - reflexivity.
  - lia.
Defined.

(** X4.  The block a successful request gets.  In every reachable state a
    request of a positive size that does not return 0 returns 1, and the
    handle names a childless occupied node of the new store with the
    handle's offset and size.  The block is large enough, its half would
    be too small, it lies within the span, and its size is the total size
    halved some number of times. *)
Theorem granted_block_fits total m buf fuel size out m' al r :
  0 ≤ total ≤ SIZE_MAX → reachable total m buf → 1 ≤ size →
  buddy_buf_alloc fuel m buf size out = Ret (m', al, r) → r ≠ 0 →
  r = 1 ∧
  ∃ c cn, alloc_node al = Some c ∧ cells m' !! c = Some cn ∧
    node_type cn = NODE_TYPE_OCCUPIED ∧
    node_left cn = None ∧ node_right cn = None ∧
    node_offset cn = alloc_offset al ∧ node_size cn = alloc_size al ∧
    size ≤ alloc_size al ∧ alloc_size al / 2 < size ∧
    0 ≤ alloc_offset al ∧ alloc_offset al + alloc_size al ≤ total ∧
    ∃ d : nat, alloc_size al = total / 2 ^ Z.of_nat d.
Proof.
  intros Htot Hreach Hsize Heq Hr.
  destruct (reachable_inv _ _ _ Htot Hreach) as [t Hinv].
  pose proof (buddy_inv_fresh_brk _ _ _ _ Hinv) as Hfresh.
  destruct (alloc_keeps _ _ _ _ _ _ _ _ Hfresh Heq) as [_ Hg].
  destruct (Hg Hr) as
    [-> (c & cn & Hc & Hcn & Hty & Hoff & Hsz & Hle & Hlt & _)].
  split; [done|]. exists c, cn.
  assert (Hreach' : reachable total m' buf) by (by eapply reach_alloc).
  destruct (reachable_inv _ _ _ Htot Hreach') as [t' Hinv'].
  pose proof (occupied_settled _ _ _ _ _ _ Hinv' Hcn Hty) as Hs'.
  destruct Hinv' as [Hroot' Hrep' Hnd' Hlt' Hdom' Hshape'].
  assert (Hin : c ∈ addrs t') by eauto.
  destruct (occupied_is_leaf _ _ _ _ _ c cn Hrep' Hs' Hin Hcn Hty) as [Hl Hrt].
  destruct (rep_bounds _ _ _ _ _ c cn Hrep' ltac:(lia) Hin Hcn) as (? & ? & ?).
  destruct (rep_walk_to _ _ _ _ _ c Hrep' Hin) as [path Hpath].
  pose proof (rep_walk _ path _ _ _ _ c cn Hrep' Hpath Hcn) as Hdepth.
  split_and!; try done; try lia.
  exists (length path). congruence.
Qed.

Lemma granted_block_fits_witness :
  1 = 1 ∧
  ∃ c cn, alloc_node got4 = Some c ∧ cells run4 !! c = Some cn ∧
    node_type cn = NODE_TYPE_OCCUPIED ∧
    node_left cn = None ∧ node_right cn = None ∧
    node_offset cn = alloc_offset got4 ∧ node_size cn = alloc_size got4 ∧
    256 ≤ alloc_size got4 ∧ alloc_size got4 / 2 < 256 ∧
    0 ≤ alloc_offset got4 ∧ alloc_offset got4 + alloc_size got4 ≤ 1024 ∧
    ∃ d : nat, alloc_size got4 = 1024 / 2 ^ Z.of_nat d.
Proof.
  apply (granted_block_fits 1024 run3 0 11 256 out0 run4 got4 1).
  - unfold SIZE_MAX. lia.
  - exact run3_reachable.
  - lia.
  - vm_compute. reflexivity.
  - lia.
Defined.

(** X5.  An allocation leaves the other allocations alone.  In every
    reachable state, whatever a request returns, every node that was
    occupied before the call is found unchanged after it; and when the
    request is granted, its block is a different node whose range does
    not overlap the range of any of them. *)
Theorem alloc_leaves_others_alone total m buf fuel size out m' al r c cn :
  0 ≤ total ≤ SIZE_MAX → reachable total m buf → 1 ≤ size →
  buddy_buf_alloc fuel m buf size out = Ret (m', al, r) →
  cells m !! c = Some cn → node_type cn = NODE_TYPE_OCCUPIED →
  cells m' !! c = Some cn ∧
  (r ≠ 0 → alloc_node al ≠ Some c ∧
           apart (range al) (node_offset cn, node_size cn)).
Proof.
  intros Htot Hreach Hsize Heq Hc Hty.
  destruct (reachable_inv _ _ _ Htot Hreach) as [t Hinv].
  pose proof (buddy_inv_fresh_brk _ _ _ _ Hinv) as Hfresh.
  destruct (alloc_keeps _ _ _ _ _ _ _ _ Hfresh Heq) as [[_ Hk] Hg].
  split; [by apply Hk|]. intros Hr.
  destruct (Hg Hr) as
    [-> (c0 & cn0 & Hc0 & Hcn0 & Hty0 & Hoff & Hsz & _ & _ & Hnew)].
  assert (Hne : c0 ≠ c).
  { intros ->. by apply (Hnew cn). }
  split; [congruence|].
  assert (Hreach' : reachable total m' buf) by (by eapply reach_alloc).
  destruct (reachable_inv _ _ _ Htot Hreach') as [t' Hinv'].
  destruct (occupied_apart total m' buf t' c0 cn0 c cn) as [_ Hap];
    [lia|done|done|done|by apply Hk|done|done|].
  unfold range. by rewrite <- Hoff, <- Hsz.
Qed.

Lemma alloc_leaves_others_alone_witness :
  cells run4 !! 3%nat =
    Some (mkNode NODE_TYPE_OCCUPIED 256 256 NULL NULL (Some 1%nat)) ∧
  (1 ≠ 0 → alloc_node got4 ≠ Some 3%nat ∧ apart (range got4) (256, 256)).
Proof.
  apply (alloc_leaves_others_alone 1024 run3 0 11 256 out0 run4 got4 1 3
           (mkNode NODE_TYPE_OCCUPIED 256 256 NULL NULL (Some 1%nat))).
  - unfold SIZE_MAX. lia.
  - exact run3_reachable.
  - lia.
  - vm_compute. reflexivity.
  - vm_compute. reflexivity.
  - reflexivity.
Defined.

(** X6.  A free releases the node it is given and nothing else that is in
    use.  In every reachable state, when [buddy_buf_free] on an occupied
    node returns, no node was created, the occupied nodes of the new store
    are the other occupied nodes of the old one, cell by cell; a node
    other than the root is gone from the store, so that a second free
    with the same handle dereferences a released node; the root stays
    and is free again. *)
Theorem free_releases_one total m buf fuel al a n m' :
  0 ≤ total ≤ SIZE_MAX → reachable total m buf →
  alloc_node al = Some a → cells m !! a = Some n →
  node_type n = NODE_TYPE_OCCUPIED →
  buddy_buf_free fuel m al = Ret m' →
  brk m' = brk m ∧
  (∀ b, is_Some (cells m' !! b) → is_Some (cells m !! b)) ∧
  (∀ c cn, node_type cn = NODE_TYPE_OCCUPIED →
     cells m' !! c = Some cn ↔ c ≠ a ∧ cells m !! c = Some cn) ∧
  (a ≠ buf →
     cells m' !! a = None ∧ ∀ fuel', buddy_buf_free fuel' m' al = Crash) ∧
  (a = buf →
     cells m' = <[buf := with_type NODE_TYPE_FREE n]> (cells m)).
Proof.
  intros Htot Hreach Hal Ha Hty Hfree.
  destruct (reachable_inv _ _ _ Htot Hreach) as [t Hinv].
  set (big := (fuel `max` S (height t))%nat).
  apply (buddy_buf_free_mono fuel big) in Hfree; [|lia].
  destruct (free_cases total m buf t al a n Hinv Hal Ha Hty)
    as [(m1 & Heq & _ & Hpost & _)|(_ & _ & Hcrash)].
  - rewrite Heq in Hfree by lia. injection Hfree as ->.
    destruct Hpost as [Hbrk Hsub Hkeep Honly Hcell Hgone Hrootc].
    split_and!; [done|done| | |].
    + intros c cn Hcn. split; [intros ?; by apply Honly|].
      intros [? ?]. by apply Hkeep.
    + intros Hab. specialize (Hgone Hab). split; [done|].
      intros fuel'. unfold buddy_buf_free, update, load.
      by rewrite Hal, Hgone.
    + intros Hab. rewrite (Hrootc Hab). by subst a.
  - rewrite Hcrash in Hfree by lia. discriminate.
Qed.

Lemma free_releases_one_witness :
  brk run3 = brk run2 ∧
  (∀ b, is_Some (cells run3 !! b) → is_Some (cells run2 !! b)) ∧
  (∀ c cn, node_type cn = NODE_TYPE_OCCUPIED →
     cells run3 !! c = Some cn ↔ c ≠ 2%nat ∧ cells run2 !! c = Some cn) ∧
  (2%nat ≠ 0%nat →
     cells run3 !! 2%nat = None ∧
     ∀ fuel', buddy_buf_free fuel' run3 got1 = Crash) ∧
  (2%nat = 0%nat →
     cells run3 =
       <[0%nat := with_type NODE_TYPE_FREE
                    (mkNode NODE_TYPE_OCCUPIED 0 256 NULL NULL (Some 1%nat))]>
         (cells run2)).
Proof.
  apply (free_releases_one 1024 run2 0 11 got1 2
           (mkNode NODE_TYPE_OCCUPIED 0 256 NULL NULL (Some 1%nat)) run3).
  - unfold SIZE_MAX. lia.
  - exact run2_reachable.
  - reflexivity.
  - vm_compute. reflexivity.
  - reflexivity.
  - vm_compute. reflexivity.
Defined.

(** X7.  When a free returns.  In every reachable state a free of an
    occupied node has one of two outcomes.  If the node is the root or
    another node is occupied as well, the call returns, with the same
    store for every budget that covers the depth of the tree, and the
    store it returns is reachable.  If the node is the only occupied one
    and is not the root, the call never returns: with a budget beyond the
    depth of the tree it dereferences [NULL]. *)
Theorem free_returns_or_crashes total m buf al a n :
  0 ≤ total ≤ SIZE_MAX → reachable total m buf →
  alloc_node al = Some a → cells m !! a = Some n →
  node_type n = NODE_TYPE_OCCUPIED →
  ((a = buf ∨ ∃ c cn, c ≠ a ∧ cells m !! c = Some cn ∧
                      node_type cn = NODE_TYPE_OCCUPIED) ∧
   ∃ m', (∀ fuel, (depth_bound total ≤ fuel)%nat →
                  buddy_buf_free fuel m al = Ret m') ∧
         reachable total m' buf) ∨
  (a ≠ buf ∧
   (∀ c cn, cells m !! c = Some cn → node_type cn = NODE_TYPE_OCCUPIED →
            c = a) ∧
   (∀ fuel, (depth_bound total < fuel)%nat →
            buddy_buf_free fuel m al = Crash) ∧
   (∀ fuel m', buddy_buf_free fuel m al ≠ Ret m')).
Proof.
  intros Htot Hreach Hal Ha Hty.
  destruct (reachable_height _ _ _ Htot Hreach) as (t & Hinv & Hh).
  destruct (free_cases total m buf t al a n Hinv Hal Ha Hty)
    as [(m1 & Heq & _ & _ & Hsafe)|(Hab & Hsole & Hcrash)].
  - left. split; [done|]. exists m1. split.
    + intros fuel Hfuel. apply Heq. lia.
    + eapply (reach_free total m buf (depth_bound total)); try done.
      apply Heq. lia.
  - right. split_and!; [done|done| |].
    + intros fuel Hfuel. apply Hcrash. lia.
    + intros fuel m' Hfree.
      apply (buddy_buf_free_mono fuel (fuel `max` S (height t))) in Hfree;
        [|lia].
      rewrite Hcrash in Hfree by lia. discriminate.
Qed.

Lemma free_returns_or_crashes_witness :
  ((3%nat = 0%nat ∨ ∃ c cn, c ≠ 3%nat ∧ cells small2 !! c = Some cn ∧
                      node_type cn = NODE_TYPE_OCCUPIED) ∧
   ∃ m', (∀ fuel, (depth_bound 4 ≤ fuel)%nat →
                  buddy_buf_free fuel small2 small_got = Ret m') ∧
         reachable 4 m' 0) ∨
  (3%nat ≠ 0%nat ∧
   (∀ c cn, cells small2 !! c = Some cn →
            node_type cn = NODE_TYPE_OCCUPIED → c = 3%nat) ∧
   (∀ fuel, (depth_bound 4 < fuel)%nat →
            buddy_buf_free fuel small2 small_got = Crash) ∧
   (∀ fuel m', buddy_buf_free fuel small2 small_got ≠ Ret m')).
Proof.
  apply (free_returns_or_crashes 4 small2 0 small_got 3
           (mkNode NODE_TYPE_OCCUPIED 2 1 NULL NULL (Some 2%nat))).
  - unfold SIZE_MAX. lia.
  - exact small2_reachable.
  - reflexivity.
  - vm_compute. reflexivity.
  - reflexivity.
Defined.

(** X8.  Freed space can be used again.  In every reachable state, once
    a free of an occupied node has returned, a request of any positive
    size up to the size of that node is granted. *)
Theorem freed_space_is_reusable total m buf fuel al a n m' fuel' size out :
  0 ≤ total ≤ SIZE_MAX → reachable total m buf →
  alloc_node al = Some a → cells m !! a = Some n →
  node_type n = NODE_TYPE_OCCUPIED →
  buddy_buf_free fuel m al = Ret m' →
  1 ≤ size ≤ node_size n → (depth_bound total ≤ fuel')%nat →
  ∃ m'' al', buddy_buf_alloc fuel' m' buf size out = Ret (m'', al', 1).
Proof.
  intros Htot Hreach Hal Ha Hty Hfree Hsize Hfuel.
  destruct (reachable_inv _ _ _ Htot Hreach) as [t Hinv].
  apply (buddy_buf_free_mono fuel (fuel `max` S (height t))) in Hfree; [|lia].
  destruct (free_cases total m buf t al a n Hinv Hal Ha Hty)
    as [(m1 & Heq & (t' & Hinv') & Hpost & _)|(_ & _ & Hcrash)];
    [|rewrite Hcrash in Hfree by lia; discriminate].
  rewrite Heq in Hfree by lia. injection Hfree as ->.
  assert (Hroom : has_room size total t' = true).
  { pose proof (occupied_settled _ _ _ _ _ _ Hinv Ha Hty) as Hs.
    destruct Hinv as [Hroot Hrep Hnd Hlt Hdom Hshape].
    destruct Hinv' as [Hroot' Hrep' Hnd' Hlt' Hdom' Hshape'].
    destruct Hpost as [Hbrk Hsub Hkeep Honly Hcell Hgone Hrootc].
    destruct t' as [|b' ty' l' r']; [done|]. injection Hroot' as ->.
    pose proof Hrep' as (Hb' & _).
    destruct (decide (a = buf)) as [->|Hab].
    - rewrite (Hrootc eq_refl) in Hb'. simpl in Hb'.
      rewrite lookup_insert_eq in Hb'. injection Hb' as Hn.
      assert (ty' = NODE_TYPE_FREE ∧ node_size n = total) as [-> Hsz].
      { by rewrite <- Hn. }
      simpl. apply Z.leb_le. lia.
    - destruct (cleared_link t (cells m) (cells m') None 0 total a n)
        as (c & cn' & Hc & Hcty & Hnone & Hhalf); try done;
        [lia|eauto|by apply Hgone| | |].
      + intros b Hb. rewrite Hroot in Hb. injection Hb as <-. eauto.
      + intros b bn' c Hb Hlink.
        destruct (rep_child _ _ _ _ _ b bn' Hrep' ltac:(eauto) Hb) as [Hl Hr].
        destruct Hlink as [Hlink|Hlink].
        * destruct (Hl c Hlink) as (? & ? & _). eauto.
        * destruct (Hr c Hlink) as (? & ? & _). eauto.
      + destruct Hshape' as [Hs'|(b & [= -> -> -> ->])].
        * eapply (room_at _ (cells m') None 0 total size c cn'); eauto; lia.
        * assert (c ∈ [b]) as Hin by (apply Hdom'; eauto).
          apply list_elem_of_singleton in Hin as ->.
          rewrite Hb' in Hc. injection Hc as <-. done. }
  destruct (buddy_inv_alloc total m' buf t' fuel' size out)
    as [Hfail|(m'' & al' & t'' & Halloc & _)]; [done|done|lia|done| |by eauto].
  destruct Hinv' as [Hroot' Hrep' _ _ _ _].
  pose proof (alloc_room t' fuel' m' None 0 total size out m' out 0 buf
                ltac:(lia) Hrep' Hroot' Hfail) as Hr.
  rewrite Hroom in Hr. discriminate.
Qed.

Lemma freed_space_is_reusable_witness :
  ∃ m'' al', buddy_buf_alloc 11 run3 0 256 out0 = Ret (m'', al', 1).
Proof.
  apply (freed_space_is_reusable 1024 run2 0 11 got1 2
           (mkNode NODE_TYPE_OCCUPIED 0 256 NULL NULL (Some 1%nat)) run3 11
           256 out0).
  - unfold SIZE_MAX. lia.
  - exact run2_reachable.
  - reflexivity.
  - vm_compute. reflexivity.
  - reflexivity.
  - vm_compute. reflexivity.
  - simpl. lia.
  - vm_compute. lia.
Defined.

(** X9.  Failure is monotone in the size.  In every reachable state, when
    a request of a positive size fails, every request of a larger size
    fails as well: it returns 0 and changes nothing. *)
Theorem larger_request_fails_too total m buf fuel size out m1 al1 fuel' size'
    out' :
  0 ≤ total ≤ SIZE_MAX → reachable total m buf → 1 ≤ size ≤ size' →
  buddy_buf_alloc fuel m buf size out = Ret (m1, al1, 0) →
  (depth_bound total ≤ fuel')%nat →
  buddy_buf_alloc fuel' m buf size' out' = Ret (m, out', 0).
Proof.
  intros Htot Hreach Hsize Hfail Hfuel.
  assert (Hle : size ≤ size') by lia.
  destruct (reachable_inv _ _ _ Htot Hreach) as [t Hinv].
  destruct (buddy_inv_alloc total m buf t fuel' size' out')
    as [Hfail'|(m2 & al2 & t2 & Halloc & _)]; [done|done|lia|done|done|].
  exfalso. destruct Hinv as [Hroot Hrep _ _ _ _].
  assert (Hs' : 1 ≤ size') by lia. destruct Hsize as [Hs _].
  pose proof (alloc_room t _ _ _ _ _ _ _ _ _ _ _ Hs' Hrep Hroot Halloc) as Hr2.
  pose proof (alloc_room t _ _ _ _ _ _ _ _ _ _ _ Hs Hrep Hroot Hfail) as Hr1.
  destruct (has_room size' total t) eqn:E'; [|done].
  rewrite (has_room_antitone t size size' total) in Hr1; done.
Qed.

Lemma larger_request_fails_too_witness :
  buddy_buf_alloc 11 run2 0 700 out0 = Ret (run2, out0, 0).
Proof.
  apply (larger_request_fails_too 1024 run2 0 11 600 out0 run2 out0 11 700
           out0).
  - unfold SIZE_MAX. lia.
  - exact run2_reachable.
  - lia.
  - exact failed_alloc_example.
  - vm_compute. lia.
Defined.

(** ** A request of size 0 is never granted *)

Lemma alloc_zero_new_child fuel m a n (left : bool) out m' al r :
  fresh_brk m → cells m !! a = Some n → 0 ≤ node_size n →
  (buf_node_new m (Some a) left ≫= λ '(m1, new_node),
     update m1 (Some a)
       ((if left then with_left else with_right) (Some new_node)) ≫= λ m2,
     alloc_buf_node fuel m2 (Some new_node) 0 out) = Ret (m', al, r) →
  False.
Proof.
  intros Hfresh Ha Hsz H.
  rewrite (buf_node_new_Some _ _ _ _ Ha) in H. simpl in H.
  apply bind_inv in H as (m2 & Hu & H).
  apply update_inv in Hu as (b & nb & [= <-] & Hb & ->). simpl in *.
  assert (Hne : a ≠ brk m).
  { intros ->. specialize (Hfresh (brk m) ltac:(eauto)). lia. }
  erewrite (alloc_zero_diverges fuel _ (brk m) (fresh_node a n left)) in H;
    [discriminate| |done|simpl; lia].
  simpl. rewrite lookup_insert_ne by done. apply lookup_insert_eq.
Qed.

Lemma alloc_zero_not_granted fuel : ∀ m p out m' al r,
  fresh_brk m → (∀ b bn, cells m !! b = Some bn → 0 ≤ node_size bn) →
  alloc_buf_node fuel m p 0 out = Ret (m', al, r) → r = 0.
Proof.
  induction fuel as [|fuel IH]; intros m p out m' al r Hfresh Hpos H;
    [discriminate|].
  pose proof H as H0.
  simpl in H. apply bind_inv in H as (n & Hl & H).
  apply load_inv in Hl as (a & -> & Ha).
  pose proof (Hpos a n Ha) as Hsz.
  destruct (node_type n) eqn:Hty.
  - rewrite (alloc_zero_diverges (S fuel) m a n out Ha Hty Hsz) in H0.
    discriminate.
  - assert ((node_size n / 2 <? 0) = false) as Hhalf by lia.
    rewrite Hhalf in H.
    destruct (node_left n) as [l|] eqn:Hleft.
    + apply bind_inv in H as ([[m1 out1] r1] & H1 & H).
      pose proof (IH _ _ _ _ _ _ Hfresh Hpos H1) as ->. simpl in H.
      apply alloc_fail_unchanged in H1 as [-> ->].
      rewrite (load_Some _ _ _ Ha) in H. simpl in H.
      destruct (node_right n) as [r0|] eqn:Hright.
      * apply bind_inv in H as ([[m2 out2] r2] & H2 & H).
        pose proof (IH _ _ _ _ _ _ Hfresh Hpos H2) as ->. simpl in H.
        by injection H.
      * by apply (alloc_zero_new_child _ _ _ n false) in H.
    + by apply (alloc_zero_new_child _ _ _ n true) in H.
  - by injection H.
Qed.

(** ** The shape of the tree *)

Lemma settled_split_child h par off sz t c cn :
  rep h par off sz t → settled t → c ∈ addrs t → h !! c = Some cn →
  node_type cn = NODE_TYPE_SPLIT →
  is_Some (node_left cn) ∨ is_Some (node_right cn).
Proof.
  revert par off sz. induction t as [|b ty l IHl r IHr]; intros par off sz;
    simpl; [set_solver|].
  intros (Hb & Hl & Hr) Hs Hin Hc Hty.
  destruct (decide (c = b)) as [->|Hne].
  - rewrite Hb in Hc. injection Hc as <-. simpl in *. subst ty.
    by destruct Hs as (_ & _ & ?).
  - apply elem_of_cons in Hin as [?|Hin]; [done|].
    destruct ty; [done| |destruct Hs as [-> ->]; set_solver].
    destruct Hs as (Hsl & Hsr & _).
    apply elem_of_app in Hin as [Hin|Hin]; eauto.
Qed.

(** Only the root of a tree has the parent pointer of the tree. *)
Lemma rep_orphan h par off sz t c cn :
  rep h par off sz t → c ∈ addrs t → h !! c = Some cn →
  node_parent cn = None → par = None ∧ root_ptr t = Some c.
Proof.
  revert par off sz. induction t as [|b ty l IHl r IHr]; intros par off sz;
    simpl; [set_solver|].
  intros (Hb & Hl & Hr) Hin Hc Hpar.
  destruct (decide (c = b)) as [->|Hne].
  - rewrite Hb in Hc. injection Hc as <-. done.
  - apply elem_of_cons in Hin as [?|Hin]; [done|].
    apply elem_of_app in Hin as [Hin|Hin].
    + by destruct (IHl _ _ _ Hl Hin Hc Hpar).
    + by destruct (IHr _ _ _ Hr Hin Hc Hpar).
Qed.

(** X10.  A request of size 0.  In every reachable state a request of
    size 0 is never granted: if the call returns at all it returns 0 and
    has changed nothing.  On an allocator whose root is free it does not
    return: it splits for ever and exhausts every budget. *)
Theorem zero_size_request total m buf fuel out :
  0 ≤ total ≤ SIZE_MAX → reachable total m buf →
  (∀ m' al r, buddy_buf_alloc fuel m buf 0 out = Ret (m', al, r) →
     r = 0 ∧ m' = m ∧ al = out) ∧
  (∀ bn, cells m !! buf = Some bn → node_type bn = NODE_TYPE_FREE →
     buddy_buf_alloc fuel m buf 0 out = OutOfFuel).
Proof.
  intros Htot Hreach.
  destruct (reachable_inv _ _ _ Htot Hreach) as [t Hinv].
  pose proof (buddy_inv_fresh_brk _ _ _ _ Hinv) as Hfresh.
  destruct Hinv as [Hroot Hrep Hnd Hlt Hdom Hshape].
  assert (Hpos : ∀ b bn, cells m !! b = Some bn → 0 ≤ node_size bn).
  { intros b bn Hb.
    by destruct (rep_bounds _ _ _ _ _ b bn Hrep ltac:(lia) ltac:(eauto) Hb)
      as (_ & ? & _). }
  split.
  - intros m' al r H. unfold buddy_buf_alloc in H.
    pose proof (alloc_zero_not_granted _ _ _ _ _ _ _ Hfresh Hpos H) as ->.
    by apply alloc_fail_unchanged in H as [-> ->].
  - intros bn Hb Hty. eapply alloc_zero_diverges; eauto.
Qed.

Lemma zero_size_request_witness :
  (∀ m' al r, buddy_buf_alloc 11 run3 0 0 out0 = Ret (m', al, r) →
     r = 0 ∧ m' = run3 ∧ al = out0) ∧
  (∀ bn, cells run3 !! 0%nat = Some bn → node_type bn = NODE_TYPE_FREE →
     buddy_buf_alloc 11 run3 0 0 out0 = OutOfFuel).
Proof.
  apply (zero_size_request 1024 run3 0 11 out0).
  - unfold SIZE_MAX. lia.
  - exact run3_reachable.
Defined.

(** X11.  The shape of the tree between two calls.  In every reachable
    state a free node is the root of an allocator that holds no other
    node; an occupied node has no children; a split node has at least
    one; the root is the only node without a parent; the parent pointer
    of any other node leads to a split node that links back to it; and
    no node lives at an address [malloc] has yet to hand out. *)
Theorem free_nodes_are_not_kept total m buf b bn :
  0 ≤ total ≤ SIZE_MAX → reachable total m buf → cells m !! b = Some bn →
  (node_type bn = NODE_TYPE_FREE →
     b = buf ∧ node_left bn = None ∧ node_right bn = None ∧
     ∀ c, is_Some (cells m !! c) → c = buf) ∧
  (node_type bn = NODE_TYPE_OCCUPIED →
     node_left bn = None ∧ node_right bn = None) ∧
  (node_type bn = NODE_TYPE_SPLIT →
     is_Some (node_left bn) ∨ is_Some (node_right bn)) ∧
  (node_parent bn = None ↔ b = buf) ∧
  (∀ q, node_parent bn = Some q →
     ∃ qn, cells m !! q = Some qn ∧ node_type qn = NODE_TYPE_SPLIT ∧
           (node_left qn = Some b ∨ node_right qn = Some b)) ∧
  (b < brk m)%nat.
Proof.
  intros Htot Hreach Hb.
  destruct (reachable_inv _ _ _ Htot Hreach) as [t Hinv].
  destruct Hinv as [Hroot Hrep Hnd Hlt Hdom Hshape].
  assert (Hin : b ∈ addrs t) by eauto.
  assert (Hpar : node_parent bn = None ↔ b = buf).
  { split.
    - intros Hp. destruct (rep_orphan _ _ _ _ _ b bn Hrep Hin Hb Hp). congruence.
    - intros ->. destruct t as [|x ty l r]; [done|]. injection Hroot as ->.
      destruct Hrep as (Hx & _). rewrite Hx in Hb. by injection Hb as <-. }
  destruct Hshape as [Hs|(x & ->)].
  - split_and!; [| | |done| |auto].
    + intros Hty. by destruct (settled_cell_not_free _ _ _ _ _ b bn Hrep Hs Hin Hb).
    + by apply (occupied_is_leaf _ _ _ _ _ b bn Hrep Hs Hin Hb).
    + by apply (settled_split_child _ _ _ _ _ b bn Hrep Hs Hin Hb).
    + intros q Hq.
      destruct (rep_parent _ _ _ _ _ b bn q Hrep Hin Hb Hq)
        as [[_ ?]|(Hqt & qn & Hqn & Hlink)]; [done|].
      exists qn. split_and!; [done| |done].
      destruct (node_type qn) eqn:Hqty; [| done |].
      * by destruct (settled_cell_not_free _ _ _ _ _ q qn Hrep Hs Hqt Hqn).
      * destruct (occupied_is_leaf _ _ _ _ _ q qn Hrep Hs Hqt Hqn Hqty).
        destruct Hlink; congruence.
  - simpl in Hroot. injection Hroot as ->.
    apply list_elem_of_singleton in Hin as ->.
    destruct Hrep as (Hx & _). rewrite Hx in Hb. injection Hb as <-. simpl.
    split_and!; try done.
    + intros _. split_and!; try done. intros c Hc. apply Hdom in Hc.
      by apply list_elem_of_singleton in Hc.
    + apply Hlt. set_solver.
Qed.

Lemma free_nodes_are_not_kept_witness :
  let bn := mkNode NODE_TYPE_SPLIT 0 512 NULL (Some 3%nat) (Some 0%nat) in
  (node_type bn = NODE_TYPE_FREE →
     1%nat = 0%nat ∧ node_left bn = None ∧ node_right bn = None ∧
     ∀ c, is_Some (cells run3 !! c) → c = 0%nat) ∧
  (node_type bn = NODE_TYPE_OCCUPIED →
     node_left bn = None ∧ node_right bn = None) ∧
  (node_type bn = NODE_TYPE_SPLIT →
     is_Some (node_left bn) ∨ is_Some (node_right bn)) ∧
  (node_parent bn = None ↔ 1%nat = 0%nat) ∧
  (∀ q, node_parent bn = Some q →
     ∃ qn, cells run3 !! q = Some qn ∧ node_type qn = NODE_TYPE_SPLIT ∧
           (node_left qn = Some 1%nat ∨ node_right qn = Some 1%nat)) ∧
  (1 < brk run3)%nat.
Proof.
  apply (free_nodes_are_not_kept 1024 run3 0 1).
  - unfold SIZE_MAX. lia.
  - exact run3_reachable.
  - vm_compute. reflexivity.
Defined.

(** ** What an allocation does to the links *)

Lemma cell_grown_refl m bn : cell_grown m bn bn.
Proof. unfold cell_grown, link_grown. split_and!; auto. Qed.

Lemma link_grown_trans m1 m2 p p2 p3 :
  (brk m1 ≤ brk m2)%nat →
  link_grown m1 p p2 → link_grown m2 p2 p3 → link_grown m1 p p3.
Proof.
  unfold link_grown. intros Hb [->|(-> & x & -> & Hx)].
  - intros [->|(-> & y & -> & Hy)]; [by left|right].
    split; [done|]. exists y. split; [done|lia].
  - intros [->|(? & _)]; [|done]. right. eauto.
Qed.

Lemma grows_refl m : tidy m → grows m m.
Proof.
  intros Ht. split; [done|lia| |].
  - intros b bn Hb. exists bn. split; [done|apply cell_grown_refl].
  - intros b bn1 Hb Hn. congruence.
Qed.

Lemma grows_trans m1 m2 m3 : grows m1 m2 → grows m2 m3 → grows m1 m3.
Proof.
  intros [_ Hb12 Ho12 Hn12] [Ht3 Hb23 Ho23 Hn23]. split; [done|lia| |].
  - intros b bn Hb.
    destruct (Ho12 b bn Hb) as (bn2 & Hb2 & Ho & Hs & Hp & Hty & Hl & Hr).
    destruct (Ho23 b bn2 Hb2)
      as (bn3 & Hb3 & Ho' & Hs' & Hp' & Hty' & Hl' & Hr').
    exists bn3. split; [done|]. split_and!; try congruence.
    + intros Hne. rewrite Hty'; [by apply Hty|]. by rewrite Hty.
    + by eapply link_grown_trans.
    + by eapply link_grown_trans.
  - intros b bn3 Hb3 Hb1.
    destruct (cells m2 !! b) as [bn2|] eqn:Hb2.
    + destruct (Hn12 b bn2 Hb2 Hb1) as [Hge Hlinks]. split; [done|].
      destruct (Ho23 b bn2 Hb2) as (bn3' & Hb3' & _ & _ & _ & _ & Hl & Hr).
      rewrite Hb3 in Hb3'. injection Hb3' as <-.
      intros x [Hx|Hx].
      * destruct Hl as [Hl|(_ & y & Hy & ?)].
        -- apply Hlinks. left. congruence.
        -- rewrite Hx in Hy. injection Hy as ->. lia.
      * destruct Hr as [Hr|(_ & y & Hy & ?)].
        -- apply Hlinks. right. congruence.
        -- rewrite Hx in Hy. injection Hy as ->. lia.
    + destruct (Hn23 b bn3 Hb3 Hb2) as [Hge Hlinks]. split; [lia|].
      intros x Hx. specialize (Hlinks x Hx). lia.
Qed.

(** A free node changes its state. *)
Lemma grows_retype m a n ty :
  tidy m → cells m !! a = Some n → node_type n = NODE_TYPE_FREE →
  ty ≠ NODE_TYPE_FREE →
  grows m (mkMem (<[a := with_type ty n]> (cells m)) (brk m)).
Proof.
  intros [Hfresh Hfree] Ha Hn Hty. split; simpl.
  - split.
    + intros b Hb. apply Hfresh. simpl in Hb.
      destruct (decide (b = a)) as [->|Hne]; [eauto|].
      by rewrite lookup_insert_ne in Hb.
    + intros b bn Hb Hbty. simpl in Hb.
      destruct (decide (b = a)) as [->|Hne].
      * rewrite lookup_insert_eq in Hb. by injection Hb as <-.
      * rewrite lookup_insert_ne in Hb by done. eauto.
  - lia.
  - intros b bn Hb. destruct (decide (b = a)) as [->|Hne].
    + rewrite lookup_insert_eq. eexists. split; [done|].
      rewrite Ha in Hb. injection Hb as <-.
      unfold cell_grown, link_grown. simpl. split_and!; auto. congruence.
    + rewrite lookup_insert_ne by done. exists bn.
      split; [done|apply cell_grown_refl].
  - intros b bn1 Hb Hn1. destruct (decide (b = a)) as [->|Hne]; [congruence|].
    rewrite lookup_insert_ne in Hb by done. congruence.
Qed.

(** A child is created below a node that is not free, in place of a
    [NULL] link. *)
Lemma grows_new_child m a n (left : bool) :
  tidy m → cells m !! a = Some n → node_type n ≠ NODE_TYPE_FREE →
  (if left then node_left n else node_right n) = None →
  grows m
    (mkMem (<[a := (if left then with_left else with_right) (Some (brk m)) n]>
              (<[brk m := fresh_node a n left]> (cells m)))
           (S (brk m))).
Proof.
  intros [Hfresh Hfree] Ha Hn Hnone.
  assert (Hab : a ≠ brk m).
  { intros ->. specialize (Hfresh (brk m) ltac:(eauto)). lia. }
  split; simpl.
  - split.
    + intros b Hb. simpl in *.
      destruct (decide (b = a)) as [->|Hne].
      { specialize (Hfresh a ltac:(eauto)). lia. }
      rewrite lookup_insert_ne in Hb by done.
      destruct (decide (b = brk m)) as [->|Hne']; [lia|].
      rewrite lookup_insert_ne in Hb by done.
      specialize (Hfresh b Hb). lia.
    + intros b bn Hb Hbty. simpl in Hb.
      destruct (decide (b = a)) as [->|Hne].
      { rewrite lookup_insert_eq in Hb. injection Hb as <-.
        by destruct left. }
      rewrite lookup_insert_ne in Hb by done.
      destruct (decide (b = brk m)) as [->|Hne'].
      { rewrite lookup_insert_eq in Hb. by injection Hb as <-. }
      rewrite lookup_insert_ne in Hb by done. eauto.
  - lia.
  - intros b bn Hb. destruct (decide (b = a)) as [->|Hne].
    + rewrite lookup_insert_eq. eexists. split; [done|].
      rewrite Ha in Hb. injection Hb as <-.
      unfold cell_grown, link_grown.
      destruct left; simpl; split_and!; auto; right; eauto.
    + rewrite lookup_insert_ne by done.
      assert (b ≠ brk m).
      { intros ->. specialize (Hfresh (brk m) ltac:(eauto)). lia. }
      rewrite lookup_insert_ne by done. exists bn.
      split; [done|apply cell_grown_refl].
  - intros b bn1 Hb Hn1. destruct (decide (b = a)) as [->|Hne]; [congruence|].
    rewrite lookup_insert_ne in Hb by done.
    destruct (decide (b = brk m)) as [->|Hne'].
    + rewrite lookup_insert_eq in Hb. injection Hb as <-. split; [lia|].
      simpl. by intros x [?|?].
    + rewrite lookup_insert_ne in Hb by done. congruence.
Qed.

Lemma alloc_new_child_grows fuel m a n (left : bool) size out m' al r :
  (∀ m p size out m' al r,
     tidy m → alloc_buf_node fuel m p size out = Ret (m', al, r) →
     grows m m') →
  tidy m → cells m !! a = Some n → node_type n ≠ NODE_TYPE_FREE →
  (if left then node_left n else node_right n) = None →
  (buf_node_new m (Some a) left ≫= λ '(m1, new_node),
     update m1 (Some a)
       ((if left then with_left else with_right) (Some new_node)) ≫= λ m2,
     alloc_buf_node fuel m2 (Some new_node) size out) = Ret (m', al, r) →
  grows m m'.
Proof.
  intros IH Ht Ha Hty Hnone H.
  pose proof (grows_new_child m a n left Ht Ha Hty Hnone) as Hg.
  assert (Hab : a ≠ brk m).
  { intros ->. destruct Ht as [Hfresh _].
    specialize (Hfresh (brk m) ltac:(eauto)). lia. }
  rewrite (buf_node_new_Some _ _ _ _ Ha) in H. simpl in H.
  erewrite update_Some in H
    by (simpl; rewrite lookup_insert_ne by congruence; exact Ha).
  simpl in H. apply IH in H; [|by destruct Hg].
  by eapply grows_trans.
Qed.

Lemma alloc_grows fuel : ∀ m p size out m' al r,
  tidy m → alloc_buf_node fuel m p size out = Ret (m', al, r) → grows m m'.
Proof.
  induction fuel as [|fuel IH]; intros m p size out m' al r Ht H;
    [discriminate|].
  simpl in H. apply bind_inv in H as (n & Hl & H).
  apply load_inv in Hl as (a & -> & Ha).
  destruct (node_type n) eqn:Hty.
  - destruct (proj2 Ht a n Ha Hty) as [Hnl Hnr].
    destruct (node_size n / 2 >=? size) eqn:Hhalf.
    + rewrite (update_Some _ _ _ _ Ha) in H. simpl in H.
      pose proof (grows_retype m a n NODE_TYPE_SPLIT Ht Ha Hty ltac:(done))
        as Hg1.
      apply (alloc_new_child_grows _ _ _ (with_type NODE_TYPE_SPLIT n) true)
        in H; [|done|by destruct Hg1|apply lookup_insert_eq|done|done].
      by eapply grows_trans.
    + destruct (node_size n >=? size) eqn:Hfull.
      * rewrite (update_Some _ _ _ _ Ha) in H. simpl in H.
        erewrite load_Some in H by apply lookup_insert_eq.
        injection H as <- <- <-. by apply grows_retype.
      * injection H as <- <- <-. by apply grows_refl.
  - destruct (node_size n / 2 <? size) eqn:Hhalf.
    { injection H as <- <- <-. by apply grows_refl. }
    destruct (node_left n) as [l|] eqn:Hleft.
    + apply bind_inv in H as ([[m1 out1] r1] & H1 & H).
      destruct (r1 =? 0) eqn:Hr1; simpl in H.
      * apply Z.eqb_eq in Hr1 as ->.
        apply alloc_fail_unchanged in H1 as [-> ->].
        rewrite (load_Some _ _ _ Ha) in H. simpl in H.
        destruct (node_right n) as [r0|] eqn:Hright.
        -- apply bind_inv in H as ([[m2 out2] r2] & H2 & H).
           apply IH in H2; [|done].
           by destruct (r2 =? 0); simpl in H; injection H as <- <- <-.
        -- apply (alloc_new_child_grows _ _ _ n false) in H; try done.
           congruence.
      * injection H as <- <- <-. by apply IH in H1.
    + apply (alloc_new_child_grows _ _ _ n true) in H; try done. congruence.
  - injection H as <- <- <-. by apply grows_refl.
Qed.

(** ** Allocation followed by a free of the same block *)

Lemma node_eq bn bn' :
  node_type bn' = node_type bn → node_offset bn' = node_offset bn →
  node_size bn' = node_size bn → node_left bn' = node_left bn →
  node_right bn' = node_right bn → node_parent bn' = node_parent bn →
  bn' = bn.
Proof. destruct bn, bn'. simpl. congruence. Qed.

(** The fix-up only ever clears links. *)
Lemma cleared_fields bn bn' :
  bn' = bn ∨ bn' = with_left NULL bn ∨ bn' = with_right NULL bn →
  node_type bn' = node_type bn ∧ node_offset bn' = node_offset bn ∧
  node_size bn' = node_size bn ∧ node_parent bn' = node_parent bn ∧
  (node_left bn' = node_left bn ∨ node_left bn' = None) ∧
  (node_right bn' = node_right bn ∨ node_right bn' = None).
Proof. intros [-> | [-> | ->]]; simpl; split_and!; auto. Qed.

Lemma rep_links_differ h par off sz t b bn x :
  rep h par off sz t → NoDup (addrs t) → b ∈ addrs t → h !! b = Some bn →
  node_left bn = Some x → node_right bn = Some x → False.
Proof.
  revert par off sz. induction t as [|a ty l IHl r IHr]; intros par off sz;
    simpl; [set_solver|].
  intros (Ha & Hl & Hr) Hnd Hin Hb Hlx Hrx.
  apply NoDup_cons in Hnd as [Hal Hnd].
  apply NoDup_app in Hnd as (Hndl & Hlr & Hndr).
  destruct (decide (b = a)) as [->|Hne].
  - rewrite Ha in Hb. injection Hb as <-. simpl in *.
    destruct l as [|xl ? ? ?]; [done|]. destruct r as [|xr ? ? ?]; [done|].
    injection Hlx as ->. injection Hrx as ->.
    apply (Hlr x); set_solver.
  - apply elem_of_cons in Hin as [?|Hin]; [done|].
    apply elem_of_app in Hin as [Hin|Hin]; eauto.
Qed.

(** A settled tree whose occupied nodes are older than [k], and in which
    nodes that are not link to such nodes only, holds no node that is
    not older than [k]. *)
Lemma no_new_node (h : gmap nat BuddyNode) (k : nat) s : ∀ par off sz,
  rep h par off sz s → settled s →
  (∀ o on, h !! o = Some on → node_type on = NODE_TYPE_OCCUPIED →
           (o < k)%nat) →
  (∀ b bn x, h !! b = Some bn → (k ≤ b)%nat →
             node_left bn = Some x ∨ node_right bn = Some x → (k ≤ x)%nat) →
  ∀ b, b ∈ addrs s → (b < k)%nat.
Proof.
  induction s as [|a ty l IHl r IHr]; intros par off sz Hrep Hs
    Hocc Hlinks b Hb; [set_solver|].
  destruct Hrep as (Ha & Hl & Hr). destruct ty; [done| |].
  - destruct Hs as (Hsl & Hsr & Hsome).
    assert (Hroot : (a < k)%nat).
    { destruct (decide (a < k)%nat) as [|Hge]; [done|exfalso].
      destruct Hsome as [[x Hx]|[x Hx]].
      - assert (k ≤ x)%nat as Hkx.
        { eapply (Hlinks a _ x Ha); [lia|left; done]. }
        assert (x ∈ addrs l) as Hxl.
        { destruct l; [done|]. injection Hx as ->. set_solver. }
        specialize (IHl _ _ _ Hl Hsl Hocc Hlinks x Hxl). lia.
      - assert (k ≤ x)%nat as Hkx.
        { eapply (Hlinks a _ x Ha); [lia|right; done]. }
        assert (x ∈ addrs r) as Hxr.
        { destruct r; [done|]. injection Hx as ->. set_solver. }
        specialize (IHr _ _ _ Hr Hsr Hocc Hlinks x Hxr). lia. }
    simpl in Hb. apply elem_of_cons in Hb as [->|Hb]; [done|].
    apply elem_of_app in Hb as [Hb|Hb]; eauto.
  - destruct Hs as [-> ->]. simpl in Hb.
    apply list_elem_of_singleton in Hb as ->. by eapply Hocc.
Qed.

(** When the occupied nodes of a settled tree are found in a second
    store, and with every node of that store the node its parent pointer
    names, then all nodes of the tree are found there. *)
Lemma old_nodes_survive (h h2 : gmap nat BuddyNode) s : ∀ par off sz,
  rep h par off sz s → settled s →
  (∀ o on, h !! o = Some on → node_type on = NODE_TYPE_OCCUPIED →
           is_Some (h2 !! o)) →
  (∀ x xn q, h !! x = Some xn → node_parent xn = Some q →
             is_Some (h2 !! x) → is_Some (h2 !! q)) →
  ∀ b, b ∈ addrs s → is_Some (h2 !! b).
Proof.
  induction s as [|a ty l IHl r IHr]; intros par off sz Hrep Hs
    Hocc Hpar b Hb; [set_solver|].
  destruct Hrep as (Ha & Hl & Hr). destruct ty; [done| |].
  - destruct Hs as (Hsl & Hsr & Hsome).
    assert (Hroot : is_Some (h2 !! a)).
    { destruct Hsome as [[x Hx]|[x Hx]].
      - destruct l as [|x' tyl ll lr]; [done|]. injection Hx as ->.
        pose proof Hl as (Hxc & _).
        eapply (Hpar x _ a Hxc); [done|].
        eapply IHl; eauto. set_solver.
      - destruct r as [|x' tyr rl rr]; [done|]. injection Hx as ->.
        pose proof Hr as (Hxc & _).
        eapply (Hpar x _ a Hxc); [done|].
        eapply IHr; eauto. set_solver. }
    simpl in Hb. apply elem_of_cons in Hb as [->|Hb]; [done|].
    apply elem_of_app in Hb as [Hb|Hb]; eauto.
  - destruct Hs as [-> ->]. simpl in Hb.
    apply list_elem_of_singleton in Hb as ->. by eapply Hocc.
Qed.

Lemma buddy_inv_tidy total m buf t : buddy_inv total m buf t → tidy m.
Proof.
  intros Hinv. split; [by eapply buddy_inv_fresh_brk|].
  destruct Hinv as [Hroot Hrep Hnd Hlt Hdom Hshape].
  intros b bn Hb Hty. destruct Hshape as [Hs|(x & ->)].
  - by destruct (settled_cell_not_free _ _ _ _ _ b bn Hrep Hs ltac:(eauto) Hb).
  - assert (b ∈ [x]) as Hin by eauto.
    apply list_elem_of_singleton in Hin as ->.
    destruct Hrep as (Hx & _). rewrite Hx in Hb. by injection Hb as <-.
Qed.

(** The nodes the allocation created are released again by the free of
    the block, and the links it set are cleared. *)
Lemma free_undoes_alloc total m buf t m1 t1 m2 t2 c cn :
  buddy_inv total m buf t → settled t →
  buddy_inv total m1 buf t1 → buddy_inv total m2 buf t2 →
  grows m m1 → keeps_occupied m m1 →
  (∀ o on, cells m1 !! o = Some on → node_type on = NODE_TYPE_OCCUPIED →
           o = c ∨ cells m !! o = Some on) →
  cells m !! c = None →
  free_post m1 buf c cn m2 →
  cells m2 = cells m.
Proof.
  intros Hinv Hs Hinv1 Hinv2 [_ Hbrk Hold Hnew] [_ Hkeep] Hocc1 Hc Hpost.
  pose proof (buddy_inv_fresh_brk _ _ _ _ Hinv) as Hfresh.
  destruct Hinv as [Hroot Hrep Hnd Hlt Hdom Hshape].
  destruct Hinv1 as [Hroot1 Hrep1 Hnd1 Hlt1 Hdom1 Hshape1].
  destruct Hinv2 as [Hroot2 Hrep2 Hnd2 Hlt2 Hdom2 Hshape2].
  destruct Hpost as [_ Hsub Hfkeep Honly Hcell Hgone _].
  assert (Hbuf : is_Some (cells m !! buf)).
  { eapply rep_is_Some; [exact Hrep|]. destruct t; [done|].
    injection Hroot as ->. set_solver. }
  assert (Hcb : c ≠ buf) by (intros ->; destruct Hbuf; congruence).
  specialize (Hgone Hcb).
  (* a cell of the last store, next to the cell it comes from *)
  assert (Hfrom : ∀ b bn2, cells m2 !! b = Some bn2 →
            ∃ bn1, cells m1 !! b = Some bn1 ∧
              node_type bn2 = node_type bn1 ∧
              node_offset bn2 = node_offset bn1 ∧
              node_size bn2 = node_size bn1 ∧
              node_parent bn2 = node_parent bn1 ∧
              (node_left bn2 = node_left bn1 ∨ node_left bn2 = None) ∧
              (node_right bn2 = node_right bn1 ∨ node_right bn2 = None)).
  { intros b bn2 Hb2.
    assert (Hbc : b ≠ c) by (intros ->; congruence).
    destruct (Hcell b bn2 Hbc Hb2) as (bn1 & Hb1 & Hcases).
    exists bn1. split; [done|]. by apply cleared_fields. }
  (* no node of the last store was created by the allocation *)
  assert (G1 : ∀ b, is_Some (cells m2 !! b) → (b < brk m)%nat).
  { intros b Hb. apply Hdom2 in Hb.
    destruct Hshape2 as [Hs2|(x & ->)].
    - eapply (no_new_node (cells m2) (brk m) t2); eauto.
      + intros o on Ho Hty. destruct (Honly o on Ho Hty) as [Hoc Ho1].
        destruct (Hocc1 o on Ho1 Hty) as [?|Hom]; [done|].
        apply Hfresh. eauto.
      + intros b0 bn2 x Hb2 Hge Hlink.
        destruct (Hfrom b0 bn2 Hb2) as (bn1 & Hb1 & _ & _ & _ & _ & Hl & Hr).
        assert (Hb0 : cells m !! b0 = None).
        { destruct (cells m !! b0) eqn:E; [|done].
          specialize (Hfresh b0 ltac:(eauto)). lia. }
        destruct (Hnew b0 bn1 Hb1 Hb0) as [_ Hlinks]. apply Hlinks.
        destruct Hlink as [Hx|Hx]; [left|right].
        * destruct Hl as [Hl|Hl]; congruence.
        * destruct Hr as [Hr|Hr]; congruence.
    - simpl in Hroot2. injection Hroot2 as ->.
      apply list_elem_of_singleton in Hb as ->. by apply Hfresh. }
  (* every node of the first store is in the last one *)
  assert (G2 : ∀ b, b ∈ addrs t → is_Some (cells m2 !! b)).
  { eapply (old_nodes_survive (cells m) (cells m2) t); eauto.
    - intros o on Ho Hty. pose proof (Hkeep o on Ho Hty) as Ho1.
      assert (Hoc : o ≠ c) by (intros ->; congruence).
      specialize (Hfkeep o on Hoc Ho1 Hty). eauto.
    - intros x xn q Hx Hq [xn2 Hx2].
      destruct (Hfrom x xn2 Hx2) as (xn1 & Hx1 & _ & _ & _ & Hp & _).
      destruct (Hold x xn Hx) as (xn1' & Hx1' & _ & _ & Hp' & _).
      rewrite Hx1 in Hx1'. injection Hx1' as <-.
      destruct (rep_parent _ _ _ _ _ x xn2 q Hrep2 ltac:(eauto) Hx2
                  ltac:(congruence)) as [[_ ?]|(Hqt & _)]; [done|].
      by eapply rep_is_Some. }
  apply map_eq. intros b.
  destruct (cells m !! b) as [bn|] eqn:Hb.
  - destruct (G2 b ltac:(eauto)) as [bn2 Hb2]. rewrite Hb2. f_equal.
    destruct (Hfrom b bn2 Hb2)
      as (bn1 & Hb1 & Hty2 & Ho2 & Hs2 & Hp2 & Hl2 & Hr2).
    destruct (Hold b bn Hb)
      as (bn1' & Hb1' & Ho1 & Hs1 & Hp1 & Hty1 & Hl1 & Hr1).
    rewrite Hb1 in Hb1'. injection Hb1' as <-.
    assert (Hbt : b ∈ addrs t) by eauto.
    assert (Hnf : node_type bn ≠ NODE_TYPE_FREE).
    { by eapply (settled_cell_not_free _ _ _ _ _ b bn Hrep Hs). }
    destruct (rep_child _ _ _ _ _ b bn Hrep Hbt Hb) as [Hchl Hchr].
    destruct (rep_child _ _ _ _ _ b bn2 Hrep2 ltac:(eauto) Hb2)
      as [Hchl2 Hchr2].
    (* a child of [b] in the first store is still linked in the last *)
    assert (Hstill : ∀ x, node_left bn = Some x ∨ node_right bn = Some x →
              node_left bn2 = Some x ∨ node_right bn2 = Some x).
    { intros x Hx.
      assert (∃ xn, cells m !! x = Some xn ∧ node_parent xn = Some b)
        as (xn & Hxn & Hxp).
      { destruct Hx as [Hx|Hx].
        - destruct (Hchl x Hx) as (xn & ? & _ & _ & ?). eauto.
        - destruct (Hchr x Hx) as (xn & ? & _ & _ & ?). eauto. }
      destruct (G2 x ltac:(eauto)) as [xn2 Hx2].
      destruct (Hfrom x xn2 Hx2) as (xn1 & Hx1 & _ & _ & _ & Hxp2 & _).
      destruct (Hold x xn Hxn) as (xn1' & Hx1' & _ & _ & Hxp1 & _).
      rewrite Hx1 in Hx1'. injection Hx1' as <-.
      destruct (rep_parent _ _ _ _ _ x xn2 b Hrep2 ltac:(eauto) Hx2
                  ltac:(congruence)) as [[_ ?]|(_ & bn2' & Hb2' & Hlink)];
        [done|].
      rewrite Hb2 in Hb2'. by injection Hb2' as <-. }
    (* a link of [b] in the last store leads to a node of the first *)
    assert (Hback : ∀ x, node_left bn2 = Some x ∨ node_right bn2 = Some x →
              (x < brk m)%nat).
    { intros x Hx. apply G1. destruct Hx as [Hx|Hx].
      - destruct (Hchl2 x Hx) as (? & ? & _). eauto.
      - destruct (Hchr2 x Hx) as (? & ? & _). eauto. }
    assert (Hdiff : ∀ x, node_left bn1 = Some x → node_right bn1 = Some x →
              False).
    { intros x. by eapply (rep_links_differ _ _ _ _ t1 b bn1 x Hrep1); eauto. }
    apply node_eq; try congruence.
    + rewrite Hty2. by apply Hty1.
    + destruct (node_left bn) as [x|] eqn:Hlx.
      * destruct Hl1 as [Hl1|(? & _)]; [|done].
        destruct Hl2 as [Hl2|Hl2]; [congruence|].
        destruct (Hstill x ltac:(by left)) as [?|Hrx]; [congruence|].
        destruct Hr2 as [Hr2|Hr2]; [|congruence].
        destruct (Hdiff x); congruence.
      * destruct Hl2 as [Hl2|Hl2]; [|done].
        destruct Hl1 as [Hl1|(_ & x & Hx & Hge)]; [congruence|].
        specialize (Hback x ltac:(left; congruence)). lia.
    + destruct (node_right bn) as [x|] eqn:Hrx.
      * destruct Hr1 as [Hr1|(? & _)]; [|done].
        destruct Hr2 as [Hr2|Hr2]; [congruence|].
        destruct (Hstill x ltac:(by right)) as [Hlx|?]; [|congruence].
        destruct Hl2 as [Hl2|Hl2]; [|congruence].
        destruct (Hdiff x); congruence.
      * destruct Hr2 as [Hr2|Hr2]; [|done].
        destruct Hr1 as [Hr1|(_ & x & Hx & Hge)]; [congruence|].
        specialize (Hback x ltac:(right; congruence)). lia.
  - destruct (cells m2 !! b) as [bn2|] eqn:Hb2; [exfalso|done].
    specialize (G1 b ltac:(eauto)).
    destruct (Hsub b ltac:(eauto)) as [bn1 Hb1].
    destruct (Hnew b bn1 Hb1 Hb) as [Hge _]. lia.
Qed.

(** X12.  Allocation and free cancel.  In every reachable state, when a
    request of a positive size is granted and a free of the block it
    returned comes back, the store holds the cells it held before the
    request: the nodes the allocation created are released, the links it
    set are cleared, a root it occupied is free again, and no other node
    has changed. *)
Theorem alloc_then_free_restores total m buf fuel size out m1 al fuel' m2 :
  0 ≤ total ≤ SIZE_MAX → reachable total m buf → 1 ≤ size →
  buddy_buf_alloc fuel m buf size out = Ret (m1, al, 1) →
  buddy_buf_free fuel' m1 al = Ret m2 →
  cells m2 = cells m ∧ brk m2 = brk m1.
Proof.
  intros Htot Hreach Hsize Halloc Hfree.
  destruct (reachable_inv _ _ _ Htot Hreach) as [t Hinv].
  pose proof (buddy_inv_tidy _ _ _ _ Hinv) as Htidy.
  pose proof (alloc_grows _ _ _ _ _ _ _ _ Htidy Halloc) as Hgrows.
  destruct (alloc_keeps _ _ _ _ _ _ _ _ (proj1 Htidy) Halloc) as [Hkeeps Hg].
  destruct (Hg ltac:(done))
    as [_ (c & cn & Hc & Hcn & Hcty & _ & _ & _ & _ & Hcnew)].
  (* the tree after the allocation *)
  set (big := (fuel `max` depth_bound total)%nat).
  pose proof Halloc as Hbig.
  apply (alloc_buf_node_mono fuel big) in Hbig; [|lia].
  destruct (buddy_inv_alloc total m buf t big size out)
    as [Hfail|(m1' & al' & t1 & Heq & Hinv1 & Hpost)]; [done|done|done|lia|..];
    unfold buddy_buf_alloc in *.
  { rewrite Hfail in Hbig. discriminate. }
  rewrite Heq in Hbig. injection Hbig as -> ->.
  assert (Hocc1 : ∀ o on, cells m1 !! o = Some on →
            node_type on = NODE_TYPE_OCCUPIED →
            o = c ∨ cells m !! o = Some on).
  { intros o on Ho Hty.
    destruct Hpost as [_ _ _ _ _ _ _ _ _ (c' & Hc' & Hperm) _].
    rewrite Hc in Hc'. injection Hc' as <-.
    destruct (occ_in _ _ _ _ _ o on (inv_rep _ _ _ _ Hinv1)
                (inv_dom _ _ _ _ Hinv1 o ltac:(eauto)) Ho Hty) as [x Hx].
    rewrite Hperm in Hx. apply elem_of_cons in Hx as [[= -> _]|Hx];
      [by left|right].
    destruct (occ_cell _ _ _ _ _ _ _ (inv_rep _ _ _ _ Hinv) Hx)
      as (on' & Hon' & Hty' & _).
    destruct Hkeeps as [_ Hk]. pose proof (Hk o on' Hon' Hty') as Ho1.
    congruence. }
  (* the free *)
  apply (buddy_buf_free_mono fuel' (fuel' `max` S (height t1))) in Hfree;
    [|lia].
  destruct (free_cases total m1 buf t1 al c cn Hinv1 Hc Hcn Hcty)
    as [(m2' & Hfeq & (t2 & Hinv2) & Hfpost & Hsafe)|(_ & _ & Hcrash)];
    [|rewrite Hcrash in Hfree by lia; discriminate].
  rewrite Hfeq in Hfree by lia. injection Hfree as ->.
  split; [|by destruct Hfpost].
  destruct (inv_shape _ _ _ _ Hinv) as [Hs|(x & ->)].
  - (* some node was occupied before: the block is a new node *)
    eapply (free_undoes_alloc total m buf t m1 t1 m2 t2 c cn); try done.
    destruct (cells m !! c) as [cn0|] eqn:Hc0; [exfalso|done].
    assert (Hct : c ∈ addrs t) by (eapply inv_dom; eauto).
    pose proof (settled_cell_not_free _ _ _ _ _ c cn0
                  (inv_rep _ _ _ _ Hinv) Hs Hct Hc0) as Hnf.
    destruct (gr_old _ _ Hgrows c cn0 Hc0)
      as (cn1 & Hc1 & _ & _ & _ & Hty & _).
    rewrite Hcn in Hc1. injection Hc1 as <-.
    apply (Hcnew cn0 eq_refl). rewrite <- Hty by done. done.
  - (* the allocator was empty: the block is the root *)
    destruct Hinv as [Hroot Hrep Hnd Hlt Hdom _]. simpl in Hroot.
    injection Hroot as ->. destruct Hrep as (Hb & _).
    assert (Hcb : c = buf).
    { destruct Hsafe as [?|(o & on & Hoc & Ho & Hty)]; [done|].
      destruct (Hocc1 o on Ho Hty) as [?|Ho0]; [done|].
      assert (o ∈ [buf]) as Hin by eauto.
      apply list_elem_of_singleton in Hin as ->.
      rewrite Hb in Ho0. injection Ho0 as <-. done. }
    subst c. rewrite (fp_root _ _ _ _ _ Hfpost eq_refl). simpl.
    pose proof (occupied_settled _ _ _ _ _ _ Hinv1 Hcn Hcty) as Hs1.
    destruct Hinv1 as [Hroot1 Hrep1 Hnd1 Hlt1 Hdom1 _].
    destruct t1 as [|b1 ty1 l1 r1]; [done|]. injection Hroot1 as ->.
    pose proof Hrep1 as (Hb1 & _). rewrite Hcn in Hb1. injection Hb1 as ->.
    simpl in Hcty. subst ty1. destruct Hs1 as [-> ->].
    apply map_eq. intros b. destruct (decide (b = buf)) as [->|Hne].
    + by rewrite lookup_insert_eq, Hb.
    + rewrite lookup_insert_ne by done.
      destruct (cells m1 !! b) eqn:E1.
      { specialize (Hdom1 b ltac:(eauto)). set_solver. }
      destruct (cells m !! b) eqn:E.
      { specialize (Hdom b ltac:(eauto)). set_solver. }
      done.
Qed.

Lemma alloc_then_free_restores_witness :
  cells run5 = cells run3 ∧ brk run5 = brk run4.
Proof.
  apply (alloc_then_free_restores 1024 run3 0 11 256 out0 run4 got4 11 run5).
  - unfold SIZE_MAX. lia.
  - exact run3_reachable.
  - lia.
  - vm_compute. reflexivity.
  - vm_compute. reflexivity.
Defined.

(** ** Teardown of a subtree *)

(** The subtree below a node that is not the root of the tree. *)
Lemma subtree_at t : ∀ (h : gmap nat BuddyNode) par off sz b bn q,
  rep h par off sz t → NoDup (addrs t) → b ∈ addrs t → h !! b = Some bn →
  node_parent bn = Some q → root_ptr t ≠ Some b →
  ∃ s off' sz',
    rep h (Some q) off' sz' s ∧ root_ptr s = Some b ∧ NoDup (addrs s) ∧
    (q ∉ addrs s) ∧ q ∈ addrs t ∧ (∀ x, x ∈ addrs s → x ∈ addrs t) ∧
    (height s < height t)%nat.
Proof.
  induction t as [|a ty l IHl r IHr]; intros h par off sz b bn q Hrep Hnd Hin
    Hb Hq Hroot; [set_solver|].
  destruct Hrep as (Ha & Hl & Hr). simpl in Hnd.
  apply NoDup_cons in Hnd as [Hal Hnd].
  apply NoDup_app in Hnd as (Hndl & Hlr & Hndr).
  rewrite elem_of_app in Hal. simpl in Hin.
  apply elem_of_cons in Hin as [->|Hin]; [done|].
  apply elem_of_app in Hin as [Hin|Hin].
  - destruct (decide (root_ptr l = Some b)) as [Hlb|Hlb].
    + destruct l as [|b' tyl ll lr]; [done|]. injection Hlb as ->.
      pose proof Hl as (Hb' & _). rewrite Hb in Hb'. injection Hb' as ->.
      simpl in Hq. injection Hq as <-.
      exists (ANode b tyl ll lr), off, (sz / 2).
      split_and!; try done; [tauto|set_solver|set_solver|simpl; lia].
    + destruct (IHl h _ _ _ b bn q Hl Hndl Hin Hb Hq Hlb)
        as (s & off' & sz' & ? & ? & ? & ? & ? & Hsub & ?).
      exists s, off', sz'. split_and!; try done; [set_solver| |simpl; lia].
      intros x Hx. apply Hsub in Hx. set_solver.
  - destruct (decide (root_ptr r = Some b)) as [Hrb|Hrb].
    + destruct r as [|b' tyr rl rr]; [done|]. injection Hrb as ->.
      pose proof Hr as (Hb' & _). rewrite Hb in Hb'. injection Hb' as ->.
      simpl in Hq. injection Hq as <-.
      exists (ANode b tyr rl rr), (off + sz / 2), (sz / 2).
      split_and!; try done; [tauto|set_solver|set_solver|simpl; lia].
    + destruct (IHr h _ _ _ b bn q Hr Hndr Hin Hb Hq Hrb)
        as (s & off' & sz' & ? & ? & ? & ? & ? & Hsub & ?).
      exists s, off', sz'. split_and!; try done; [set_solver| |simpl; lia].
      intros x Hx. apply Hsub in Hx. set_solver.
Qed.

(** A path of links that starts at the root of a tree stays in it. *)
Lemma walk_in_tree h path : ∀ par off sz s x,
  rep h par off sz s → walk h (root_ptr s) path = Some x → x ∈ addrs s.
Proof.
  induction path as [|d path IH]; intros par off sz s x Hrep Hw.
  - simpl in Hw. destruct s; [done|]. injection Hw as ->. set_solver.
  - destruct s as [|a ty l r]; [done|]. destruct Hrep as (Ha & Hl & Hr).
    simpl in Hw. rewrite Ha in Hw. simpl in Hw. destruct d.
    + apply (IH _ _ _ _ _ Hl) in Hw. set_solver.
    + apply (IH _ _ _ _ _ Hr) in Hw. set_solver.
Qed.

(** X13.  Teardown of a subtree.  In every reachable state
    [destroy_buf_node] on a node that has a parent returns once the
    budget covers the depth of the tree.  It releases the node and
    everything that can be reached from it by links, clears the one link
    of the parent that led to the node, and leaves every other cell as
    it was. *)
Theorem destroy_releases_subtree total m buf b bn q fuel :
  0 ≤ total ≤ SIZE_MAX → reachable total m buf →
  cells m !! b = Some bn → node_parent bn = Some q →
  (depth_bound total ≤ fuel)%nat →
  ∃ m' qn,
    destroy_buf_node fuel m (Some b) = Ret m' ∧
    cells m !! q = Some qn ∧ cells m' !! q = Some (unlink (Some b) qn) ∧
    brk m' = brk m ∧
    (∀ x, cells m' !! x = None ↔
          cells m !! x = None ∨ ∃ path, walk (cells m) (Some b) path = Some x) ∧
    (∀ x, x ≠ q → is_Some (cells m' !! x) → cells m' !! x = cells m !! x).
Proof.
  intros Htot Hreach Hb Hq Hfuel.
  destruct (reachable_height _ _ _ Htot Hreach) as (t & Hinv & Hh).
  destruct Hinv as [Hroot Hrep Hnd Hlt Hdom Hshape].
  assert (Hbt : b ∈ addrs t) by eauto.
  assert (Hnr : root_ptr t ≠ Some b).
  { intros Hrb. destruct t as [|a ty l r]; [done|]. injection Hrb as ->.
    destruct Hrep as (Ha & _). rewrite Ha in Hb. by injection Hb as <-. }
  destruct (subtree_at t _ _ _ _ b bn q Hrep Hnd Hbt Hb Hq Hnr)
    as (s & off & sz & Hs & Hsb & Hnds & Hqs & Hqt & Hsub & Hhs).
  destruct (rep_is_Some _ _ _ _ _ q Hrep Hqt) as [qn Hqn].
  destruct (destroy_spec s fuel m q qn off sz) as (m' & Heq & Hpost);
    [lia|done..|].
  rewrite Hsb in Heq. destruct Hpost as [Hbrk Hgone Hpar Hframe].
  rewrite Hsb in Hpar.
  exists m', qn. split_and!; try done.
  - intros x. split.
    + intros Hx. destruct (decide (x ∈ addrs s)) as [Hxs|Hxs].
      * right. rewrite <- Hsb. by eapply rep_walk_to.
      * left. rewrite <- Hframe; [done..|]. intros ->. congruence.
    + intros [Hx|[path Hx]].
      * rewrite Hframe; [done| |].
        -- intros Hxs. destruct (rep_is_Some _ _ _ _ _ x Hs Hxs). congruence.
        -- intros ->. congruence.
      * apply Hgone. rewrite <- Hsb in Hx. by eapply walk_in_tree.
  - intros x Hxq [xn Hx]. apply Hframe; [|done].
    intros Hxs. rewrite Hgone in Hx by done. discriminate.
Qed.

Lemma destroy_releases_subtree_witness :
  ∃ m' qn,
    destroy_buf_node 11 run2 (Some 1%nat) = Ret m' ∧
    cells run2 !! 0%nat = Some qn ∧
    cells m' !! 0%nat = Some (unlink (Some 1%nat) qn) ∧
    brk m' = brk run2 ∧
    (∀ x, cells m' !! x = None ↔
          cells run2 !! x = None ∨
          ∃ path, walk (cells run2) (Some 1%nat) path = Some x) ∧
    (∀ x, x ≠ 0%nat → is_Some (cells m' !! x) →
          cells m' !! x = cells run2 !! x).
Proof.
  apply (destroy_releases_subtree 1024 run2 0 1
           (mkNode NODE_TYPE_SPLIT 0 512 (Some 2%nat) (Some 3%nat)
              (Some 0%nat)) 0 11).
  - unfold SIZE_MAX. lia.
  - exact run2_reachable.
  - vm_compute. reflexivity.
  - reflexivity.
  - vm_compute. lia.
Defined.

(** ** The output variable *)

(** X14.  The caller's output variable is write-only.  Whatever store and
    node [alloc_buf_node] is run on, its return value and the store it
    leaves do not depend on what the output variable held; a granted
    request overwrites the variable, a failed one leaves it alone. *)
Theorem output_variable_is_not_read fuel : ∀ m p size out out2 m' al r,
  alloc_buf_node fuel m p size out = Ret (m', al, r) →
  alloc_buf_node fuel m p size out2 =
    Ret (m', (if r =? 0 then out2 else al), r).
Proof.
  induction fuel as [|fuel IH]; intros m p size out out2 m' al r H;
    [discriminate|].
  simpl in H |- *. apply bind_inv in H as (n & Hl & H).
  rewrite Hl. simpl. destruct (node_type n).
  - destruct (node_size n / 2 >=? size) eqn:Hhalf.
    + apply bind_inv in H as (m1 & Hu & H). rewrite Hu. simpl.
      apply bind_inv in H as ([m2 c] & Hnew & H). rewrite Hnew. simpl.
      apply bind_inv in H as (m3 & Hu3 & H). rewrite Hu3. simpl.
      by apply (IH _ _ _ out).
    + destruct (node_size n >=? size).
      * apply bind_inv in H as (m1 & Hu & H). rewrite Hu. simpl.
        apply bind_inv in H as (n1 & Hl1 & H). rewrite Hl1. simpl.
        by injection H as <- <- <-.
      * by injection H as <- <- <-.
  - destruct (node_size n / 2 <? size); [by injection H as <- <- <-|].
    destruct (node_left n) as [l|].
    + apply bind_inv in H as ([[m1 out1] r1] & H1 & H).
      rewrite (IH _ _ _ _ out2 _ _ _ H1). simpl.
      destruct (r1 =? 0) eqn:Hr1; simpl in *.
      * apply Z.eqb_eq in Hr1. subst r1.
        apply alloc_fail_unchanged in H1 as [-> ->].
        apply bind_inv in H as (n1 & Hl1 & H). rewrite Hl1. simpl.
        destruct (node_right n1) as [r0|].
        -- apply bind_inv in H as ([[m2 out2'] r2] & H2 & H).
           rewrite (IH _ _ _ _ out2 _ _ _ H2). simpl.
           destruct (r2 =? 0) eqn:Hr2; simpl in *; by injection H as <- <- <-.
        -- apply bind_inv in H as ([m2 c] & Hnew & H). rewrite Hnew. simpl.
           apply bind_inv in H as (m3 & Hu3 & H). rewrite Hu3. simpl.
           by apply (IH _ _ _ out).
      * by injection H as <- <- <-.
    + apply bind_inv in H as ([m2 c] & Hnew & H). rewrite Hnew. simpl.
      apply bind_inv in H as (m3 & Hu3 & H). rewrite Hu3. simpl.
      by apply (IH _ _ _ out).
  - by injection H as <- <- <-.
Qed.

Lemma output_variable_is_not_read_witness :
  alloc_buf_node 11 run3 (Some 0%nat) 256 got1 =
    Ret (run4, (if 1 =? 0 then got1 else got4), 1).
Proof.
  apply (output_variable_is_not_read 11 run3 (Some 0%nat) 256 out0 got1 run4
           got4 1).
  vm_compute. reflexivity.
Defined.

(** ** The allocator never hands out more than it has *)

Lemma units_filter h (P : nat → Prop) `{∀ x, Decision (P x)} cs :
  units h cs = units h (filter P cs) + units h (filter (λ c, ¬ P c) cs).
Proof.
  induction cs as [|c cs IH]; [done|].
  rewrite !filter_cons. destruct (decide (P c)) as [Hp|Hp].
  - destruct (decide (¬ P c)) as [?|_]; [done|]. simpl. rewrite IH. lia.
  - destruct (decide (¬ P c)) as [_|?]; [|done]. simpl. rewrite IH. lia.
Qed.

Lemma units_settled t : ∀ h par off sz cs,
  rep h par off sz t → settled t → 0 ≤ sz → NoDup cs →
  (∀ c, c ∈ cs → c ∈ addrs t ∧
        ∃ cn, h !! c = Some cn ∧ node_type cn = NODE_TYPE_OCCUPIED) →
  units h cs ≤ sz.
Proof.
  induction t as [|a ty l IHl r IHr]; intros h par off sz cs Hrep Hs Hsz Hnd
    Hcs.
  { destruct cs as [|c cs]; [done|].
    destruct (Hcs c ltac:(left)) as [Hc _]. set_solver. }
  destruct Hrep as (Ha & Hl & Hr). destruct ty; [done| |].
  - destruct Hs as (Hsl & Hsr & _).
    rewrite (units_filter h (λ c, c ∈ addrs l)).
    assert (units h (filter (λ c, c ∈ addrs l) cs) ≤ sz / 2) as H1.
    { eapply IHl; [exact Hl|done|lia|by apply NoDup_filter|].
      intros c Hc. apply list_elem_of_filter in Hc as [Hcl Hc].
      split; [done|]. by destruct (Hcs c Hc). }
    assert (units h (filter (λ c, ¬ c ∈ addrs l) cs) ≤ sz / 2) as H2.
    { eapply IHr; [exact Hr|done|lia|by apply NoDup_filter|].
      intros c Hc. apply list_elem_of_filter in Hc as [Hcl Hc].
      destruct (Hcs c Hc) as [Hct (cn & Hcn & Hty)]. split; [|eauto].
      simpl in Hct. apply elem_of_cons in Hct as [->|Hct].
      - rewrite Ha in Hcn. injection Hcn as <-. done.
      - apply elem_of_app in Hct as [?|?]; done. }
    lia.
  - destruct Hs as [-> ->]. simpl in Hcs.
    assert (Hall : ∀ c, c ∈ cs → c = a).
    { intros c Hc. destruct (Hcs c Hc) as [Hin _]. set_solver. }
    destruct cs as [|c cs]; [simpl; lia|].
    rewrite (Hall c ltac:(left)) in *.
    destruct cs as [|c' cs].
    + simpl. rewrite Ha. simpl. lia.
    + rewrite (Hall c' ltac:(right; left)) in Hnd.
      apply NoDup_cons in Hnd as [Hn _]. set_solver.
Qed.

(** X15.  The allocator never hands out more than it has.  In every
    reachable state the sizes of any set of occupied nodes add up to at
    most the total size. *)
Theorem occupied_units_bounded total m buf cs :
  0 ≤ total ≤ SIZE_MAX → reachable total m buf → NoDup cs →
  (∀ c, c ∈ cs →
        ∃ cn, cells m !! c = Some cn ∧ node_type cn = NODE_TYPE_OCCUPIED) →
  units (cells m) cs ≤ total.
Proof.
  intros Htot Hreach Hnd Hcs.
  destruct (reachable_inv _ _ _ Htot Hreach) as [t Hinv].
  destruct cs as [|c0 cs0] eqn:E; [simpl; lia|]. rewrite <- E in *.
  destruct (Hcs c0 ltac:(rewrite E; left)) as (cn0 & Hc0 & Hty0).
  pose proof (occupied_settled _ _ _ _ _ _ Hinv Hc0 Hty0) as Hs.
  destruct Hinv as [Hroot Hrep Hndt Hlt Hdom Hshape].
  eapply units_settled; [exact Hrep|done|lia|done|].
  intros c Hc. destruct (Hcs c Hc) as (cn & Hcn & Hty). eauto 6.
Qed.

Lemma occupied_units_bounded_witness :
  units (cells run4) [3%nat; 4%nat] ≤ 1024.
Proof.
  apply (occupied_units_bounded 1024 run4 0 [3%nat; 4%nat]).
  - unfold SIZE_MAX. lia.
  - exact run4_reachable.
  - apply (bool_decide_unpack _). vm_compute. exact I.
  - intros c Hc. apply elem_of_cons in Hc as [->|Hc].
    + eexists. split; [vm_compute; reflexivity|reflexivity].
    + apply list_elem_of_singleton in Hc as ->.
      eexists. split; [vm_compute; reflexivity|reflexivity].
Defined.

(** ** Alignment when the total size is a power of two *)

Lemma aligned_tree t : ∀ (h : gmap nat BuddyNode) par off sz j c cn,
  rep h par off sz t → settled t →
  Forall (λ x, 1 ≤ x.2.2) (occ off sz t) →
  0 ≤ j → sz = 2 ^ j → (2 ^ j | off) →
  c ∈ addrs t → h !! c = Some cn →
  ∃ i, 0 ≤ i ≤ j ∧ node_size cn = 2 ^ i ∧ (node_size cn | node_offset cn).
Proof.
  induction t as [|a ty l IHl r IHr]; intros h par off sz j c cn Hrep Hs Hpos
    Hj Hsz Hdiv Hin Hc; [set_solver|].
  destruct Hrep as (Ha & Hl & Hr).
  destruct (decide (c = a)) as [->|Hne].
  { rewrite Ha in Hc. injection Hc as <-. simpl. exists j.
    split_and!; [lia|lia|done|by rewrite Hsz]. }
  simpl in Hin. apply elem_of_cons in Hin as [?|Hin]; [done|].
  destruct ty; [done| |destruct Hs as [-> ->]; set_solver].
  destruct Hs as (Hsl & Hsr & _). simpl in Hpos.
  apply Forall_app in Hpos as [Hpl Hpr].
  assert (Hstep : 1 ≤ sz / 2 →
            0 ≤ j - 1 ∧ sz / 2 = 2 ^ (j - 1) ∧ (2 ^ (j - 1) | off) ∧
            (2 ^ (j - 1) | off + sz / 2)).
  { intros Hhalf.
    assert (1 ≤ j) as Hj1.
    { destruct (decide (j = 0)) as [->|?]; [|lia].
      rewrite Hsz in Hhalf. simpl in Hhalf. change (1 / 2) with 0 in Hhalf.
      lia. }
    assert (Hpow : 2 ^ j = 2 * 2 ^ (j - 1)).
    { rewrite <- Z.pow_succ_r by lia. f_equal. lia. }
    assert (Hh : sz / 2 = 2 ^ (j - 1)).
    { rewrite Hsz, Hpow, Z.mul_comm. apply Z.div_mul. lia. }
    assert (Hd : (2 ^ (j - 1) | off)).
    { eapply Z.divide_trans; [|exact Hdiv]. rewrite Hpow.
      apply Z.divide_factor_r. }
    split_and!; [lia|done|done|].
    apply Z.divide_add_r; [done|]. by rewrite Hh. }
  apply elem_of_app in Hin as [Hin|Hin].
  - destruct (settled_height l off (sz / 2) Hsl Hpl) as [Hl1 _].
    destruct Hstep as (? & ? & ? & ?).
    { apply Hl1. destruct l; [set_solver|by eexists]. }
    destruct (IHl h _ _ _ (j - 1) c cn Hl Hsl Hpl) as (i & ? & ? & ?);
      try done.
    exists i. split_and!; [lia|lia|done|done].
  - destruct (settled_height r (off + sz / 2) (sz / 2) Hsr Hpr) as [Hr1 _].
    destruct Hstep as (? & ? & ? & ?).
    { apply Hr1. destruct r; [set_solver|by eexists]. }
    destruct (IHr h _ _ _ (j - 1) c cn Hr Hsr Hpr) as (i & ? & ? & ?);
      try done.
    exists i. split_and!; [lia|lia|done|done].
Qed.

(** X16.  Alignment.  When the total size is a power of two, in every
    reachable state the size of every node, and so of every block that is
    handed out, is a power of two, and the offset of the node is a
    multiple of its size. *)
Theorem blocks_are_aligned total k m buf c cn :
  0 ≤ total ≤ SIZE_MAX → 0 ≤ k → total = 2 ^ k → reachable total m buf →
  cells m !! c = Some cn →
  ∃ i, 0 ≤ i ≤ k ∧ node_size cn = 2 ^ i ∧ (node_size cn | node_offset cn).
Proof.
  intros Htot Hk Hpow Hreach Hc.
  destruct (reachable_inv_sized _ _ _ Htot Hreach) as (t & Hinv & Hpos).
  destruct Hinv as [Hroot Hrep Hnd Hlt Hdom Hshape].
  destruct Hshape as [Hs|(x & ->)].
  - eapply (aligned_tree t (cells m) None 0 total k c cn); eauto.
    apply Z.divide_0_r.
  - assert (c ∈ [x]) as Hin by eauto.
    apply list_elem_of_singleton in Hin as ->.
    destruct Hrep as (Hx & _). rewrite Hx in Hc. injection Hc as <-. simpl.
    exists k. split_and!; [lia|lia|done|apply Z.divide_0_r].
Qed.

Lemma blocks_are_aligned_witness :
  ∃ i, 0 ≤ i ≤ 10 ∧ 256 = 2 ^ i ∧ (256 | 256).
Proof.
  apply (blocks_are_aligned 1024 10 run4 0 3
           (mkNode NODE_TYPE_OCCUPIED 256 256 NULL NULL (Some 1%nat))).
  - unfold SIZE_MAX. lia.
  - lia.
  - reflexivity.
  - exact run4_reachable.
  - vm_compute. reflexivity.
Defined.

(** ** The lowest offset first *)

Lemma half_pow sz (d : nat) :
  sz / 2 / 2 ^ Z.of_nat d = sz / 2 ^ Z.of_nat (S d).
Proof.
  rewrite Nat2Z.inj_succ, Z.pow_succ_r by lia. rewrite Z.div_div by lia. done.
Qed.

Lemma pow_le sz (d : nat) : 0 ≤ sz → 0 ≤ sz / 2 ^ Z.of_nat d ≤ sz.
Proof.
  intros Hsz. assert (0 < 2 ^ Z.of_nat d) by (apply Z.pow_pos_nonneg; lia).
  split; [by apply Z.div_pos|]. apply Z.div_le_upper_bound; [done|]. nia.
Qed.

Lemma slot_within d : ∀ off sz x,
  0 ≤ sz → slot off sz d x →
  off ≤ x ∧ x + sz / 2 ^ Z.of_nat d ≤ off + sz.
Proof.
  induction d as [|d IH]; intros off sz x Hsz Hx.
  - simpl in Hx. subst x. simpl. rewrite Z.div_1_r. lia.
  - rewrite <- half_pow. destruct Hx as [Hx|Hx].
    + destruct (IH off (sz / 2) x ltac:(lia) Hx). lia.
    + destruct (IH (off + sz / 2) (sz / 2) x ltac:(lia) Hx). lia.
Qed.

Lemma slot_left d : ∀ off sz, slot off sz d off.
Proof. induction d as [|d IH]; intros off sz; simpl; auto. Qed.

(** A range of at least one unit inside an occupied partition. *)
Lemma blocked_inside l c off sz x g :
  (c, (off, sz)) ∈ l → 1 ≤ g → off ≤ x → x + g ≤ off + sz →
  blocked l (x, g).
Proof.
  intros Hin Hg Hx Hxg. exists (c, (off, sz)). split; [done|].
  unfold apart. simpl. lia.
Qed.

(** The range of a settled tree overlaps the occupied partitions in it. *)
Lemma blocked_whole off sz t :
  settled t → is_Some (root_ptr t) → 0 ≤ sz →
  Forall (λ x, 1 ≤ x.2.2) (occ off sz t) →
  blocked (occ off sz t) (off, sz).
Proof.
  intros Hs Hroot Hsz Hpos.
  pose proof (settled_occ off sz t Hs Hroot) as Hne.
  destruct (occ_ranges t off sz Hs Hsz) as [Hw _].
  destruct (occ off sz t) as [|e o] eqn:E; [done|].
  apply Forall_cons in Hpos as [Hp _].
  rewrite fmap_cons in Hw. apply Forall_cons in Hw as [[Hw1 Hw2] _].
  exists e. split; [by left|]. unfold apart. simpl in *. lia.
Qed.

Lemma blocked_mono l l' x : (∀ e, e ∈ l → e ∈ l') → blocked l x → blocked l' x.
Proof. intros Hsub (e & He & Hx). exists e. auto. Qed.

(** The block a fresh child is split into. *)
Lemma alloc_new_child_grant fuel m a n (left : bool) size out m' al r :
  cells m !! a = Some n → a ≠ brk m → 1 ≤ size ≤ node_size n / 2 →
  0 ≤ node_offset n → node_offset n + node_size n ≤ SIZE_MAX →
  (buf_node_new m (Some a) left ≫= λ '(m1, new_node),
     update m1 (Some a)
       ((if left then with_left else with_right) (Some new_node)) ≫= λ m2,
     alloc_buf_node fuel m2 (Some new_node) size out) = Ret (m', al, r) →
  r = 1 ∧ ∃ k : nat,
    alloc_offset al = node_offset n + (if left then 0 else node_size n / 2) ∧
    alloc_size al = node_size n / 2 / 2 ^ Z.of_nat k ∧
    size ≤ alloc_size al.
Proof.
  intros Ha Hab Hsize Hoff Hmax H.
  rewrite (buf_node_new_Some _ _ _ _ Ha) in H. simpl in H.
  erewrite update_Some in H
    by (simpl; rewrite lookup_insert_ne by congruence; exact Ha).
  simpl in H.
  match type of H with alloc_buf_node _ ?x _ _ _ = _ => set (m2 := x) in * end.
  set (y := fresh_node a n left).
  assert (Hy : cells m2 !! brk m = Some y).
  { simpl. rewrite lookup_insert_ne by done. apply lookup_insert_eq. }
  assert (Hyo : node_offset y =
                node_offset n + (if left then 0 else node_size n / 2)).
  { simpl. apply wrap_id. destruct left; lia. }
  set (big := (fuel `max` depth_bound (node_size y))%nat).
  apply (alloc_buf_node_mono fuel big) in H; [|lia].
  destruct (alloc_fresh_grant big m2 (brk m) y size out Hy eq_refl)
    as (m'' & c & k & Heq & Hk & Hle & _); [simpl; lia|rewrite Hyo; destruct left; lia|lia|].
  rewrite Heq in H. injection H as <- <- <-. split; [done|].
  exists (Z.to_nat k). simpl. rewrite Z2Nat.id by done.
  split_and!; [by apply wrap_id; destruct left; lia|done|done].
Qed.

(** The descent tries the partitions of the size it grants from left to
    right: when it fails, every partition that is large enough overlaps an
    occupied one; when it succeeds, every partition of the granted depth
    to the left of the granted one does. *)
Lemma alloc_first_fit t : ∀ fuel m par off sz size out m' al r a,
  1 ≤ size → alloc_pre m par off sz t →
  Forall (λ x, 1 ≤ x.2.2) (occ off sz t) → root_ptr t = Some a →
  alloc_buf_node fuel m (Some a) size out = Ret (m', al, r) →
  (r = 0 → ∀ d x, slot off sz d x → size ≤ sz / 2 ^ Z.of_nat d →
     blocked (occ off sz t) (x, sz / 2 ^ Z.of_nat d)) ∧
  (r ≠ 0 → ∃ d : nat,
     alloc_size al = sz / 2 ^ Z.of_nat d ∧ size ≤ alloc_size al ∧
     slot off sz d (alloc_offset al) ∧
     ∀ x, slot off sz d x → x < alloc_offset al →
       blocked (occ off sz t) (x, sz / 2 ^ Z.of_nat d)).
Proof.
  induction t as [|b ty l IHl r0 IHr]; intros fuel m par off sz size out m' al
    r a Hsize Hpre Hpos Hroot H; [done|].
  injection Hroot as ->.
  destruct Hpre as [Hrep Hnd Hbelow Hshape Hoff Hsz Hmax].
  pose proof Hrep as (Ha & Hl & Hr).
  set (n := mkNode ty off sz (root_ptr l) (root_ptr r0) par) in *.
  assert (Hab : a ≠ brk m).
  { specialize (Hbelow a ltac:(set_solver)). lia. }
  destruct ty.
  - (* a free node *)
    destruct (decide (size ≤ sz)) as [Hfit|Hbig].
    + set (big := (fuel `max` depth_bound sz)%nat).
      apply (alloc_buf_node_mono fuel big) in H; [|lia].
      destruct (alloc_fresh_grant big m a n size out Ha eq_refl)
        as (m'' & c & k & Heq & Hk & Hle & _); [simpl; lia|simpl; lia|simpl; lia|].
      rewrite Heq in H. injection H as <- <- <-. simpl in *.
      split; [done|]. intros _. exists (Z.to_nat k).
      rewrite Z2Nat.id by done. split_and!; [done|done|apply slot_left|].
      intros x Hx Hlt. destruct (slot_within _ _ _ _ Hsz Hx). lia.
    + split.
      * intros _ d x Hx Hle. pose proof (pow_le sz d Hsz). lia.
      * intros Hrne. exfalso. destruct fuel as [|fuel]; [discriminate|].
        simpl in H. rewrite (load_Some _ _ _ Ha) in H. simpl in H.
        assert ((sz / 2 >=? size) = false) as E1 by (rewrite Z.geb_leb; lia).
        assert ((sz >=? size) = false) as E2 by (rewrite Z.geb_leb; lia).
        rewrite E1, E2 in H. by injection H as _ _ <-.
  - (* a split node *)
    destruct Hshape as [Hs|(x & [=])]. destruct Hs as (Hsl & Hsr & Hsome).
    assert (Hwhole : blocked (occ off sz (ANode a NODE_TYPE_SPLIT l r0))
                       (off, sz)).
    { apply blocked_whole; [by split_and!|by eexists|done|done]. }
    simpl in Hpos. apply Forall_app in Hpos as [Hpl Hpr].
    simpl in Hnd. apply NoDup_cons in Hnd as [Hal Hnd].
    apply NoDup_app in Hnd as (Hndl & Hlr & Hndr).
    assert (Hprel : alloc_pre m (Some a) off (sz / 2) l).
    { split; try done; [|by left|lia|lia]. intros x Hx. apply Hbelow.
      set_solver. }
    assert (Hprer : alloc_pre m (Some a) (off + sz / 2) (sz / 2) r0).
    { split; try done; [|by left|lia|lia|lia]. intros x Hx. apply Hbelow.
      set_solver. }
    assert (Hupl : ∀ x, blocked (occ off (sz / 2) l) x →
                        blocked (occ off sz (ANode a NODE_TYPE_SPLIT l r0)) x).
    { intros x. apply blocked_mono. intros e He. simpl. set_solver. }
    assert (Hupr : ∀ x, blocked (occ (off + sz / 2) (sz / 2) r0) x →
                        blocked (occ off sz (ANode a NODE_TYPE_SPLIT l r0)) x).
    { intros x. apply blocked_mono. intros e He. simpl. set_solver. }
    (* a slot of the right half is not to the left of one of the left *)
    assert (Hside : ∀ d o x, 1 ≤ sz / 2 / 2 ^ Z.of_nat d →
              slot off (sz / 2) d o → slot (off + sz / 2) (sz / 2) d x →
              x < o → False).
    { intros d o x Hg Ho Hx Hlt.
      destruct (slot_within d off (sz / 2) o ltac:(lia) Ho).
      destruct (slot_within d (off + sz / 2) (sz / 2) x ltac:(lia) Hx). lia. }
    destruct fuel as [|fuel]; [discriminate|].
    simpl in H. rewrite (load_Some _ _ _ Ha) in H. simpl in H.
    destruct (sz / 2 <? size) eqn:Hhalf.
    { injection H as <- <- <-. split; [|done].
      intros _ d x Hx Hle. destruct d as [|d].
      - simpl in Hx. subst x. simpl. by rewrite Z.div_1_r.
      - exfalso. rewrite <- half_pow in Hle.
        pose proof (pow_le (sz / 2) d ltac:(lia)). lia. }
    apply Z.ltb_ge in Hhalf.
    destruct l as [|bl tyl ll lr]; simpl in H.
    { (* no left child yet *)
      destruct (alloc_new_child_grant fuel m a n true size out m' al r Ha Hab
                  ltac:(simpl; lia) ltac:(simpl; lia) ltac:(simpl; lia) H)
        as (-> & k & Ho & Hg & Hle).
      simpl in Ho, Hg. split; [done|]. intros _. exists (S k).
      rewrite <- half_pow. split_and!; [done|done| |].
      - left. rewrite Ho, Z.add_0_r. apply slot_left.
      - intros x Hx Hlt. destruct (slot_within _ _ _ _ Hsz Hx). lia. }
    apply bind_inv in H as ([[m1 out1] r1] & H1 & H).
    destruct (IHl fuel m (Some a) off (sz / 2) size out m1 out1 r1 bl Hsize
                Hprel Hpl eq_refl H1) as [Hl0 Hl1].
    destruct (r1 =? 0) eqn:Hr1; simpl in H.
    2:{ (* granted in the left half *)
      apply Z.eqb_neq in Hr1. injection H as <- <- <-.
      split; [done|]. intros _.
      destruct (Hl1 Hr1) as (d & Hg & Hle & Hslot & Hleft).
      exists (S d). rewrite <- half_pow.
      split_and!; [done|done|by left|].
      intros x [Hx|Hx] Hlt; [by apply Hupl, Hleft|].
      exfalso. eapply (Hside d (alloc_offset out1) x); [|done..].
      rewrite <- Hg. lia. }
    apply Z.eqb_eq in Hr1. subst r1. specialize (Hl0 eq_refl).
    apply alloc_fail_unchanged in H1 as [-> ->].
    rewrite (load_Some _ _ _ Ha) in H. simpl in H.
    destruct r0 as [|br tyr rl rr]; simpl in H.
    { (* no right child yet *)
      destruct (alloc_new_child_grant fuel m a n false size out m' al r Ha Hab
                  ltac:(simpl; lia) ltac:(simpl; lia) ltac:(simpl; lia) H)
        as (-> & k & Ho & Hg & Hle).
      simpl in Ho, Hg. split; [done|]. intros _. exists (S k).
      rewrite <- half_pow. split_and!; [done|done| |].
      - right. rewrite Ho. apply slot_left.
      - intros x [Hx|Hx] Hlt.
        + apply Hupl, Hl0; [done|]. by rewrite <- Hg.
        + destruct (slot_within k (off + sz / 2) (sz / 2) x ltac:(lia) Hx).
          lia. }
    apply bind_inv in H as ([[m2 out2] r2] & H2 & H).
    destruct (IHr fuel m (Some a) (off + sz / 2) (sz / 2) size out m2 out2 r2
                br Hsize Hprer Hpr eq_refl H2) as [Hr0 Hr1].
    destruct (r2 =? 0) eqn:Hr2; simpl in H; injection H as <- <- <-.
    + (* both halves are full *)
      apply Z.eqb_eq in Hr2. subst r2. specialize (Hr0 eq_refl).
      split; [|done]. intros _ d x Hx Hle. destruct d as [|d].
      * simpl in Hx. subst x. simpl. by rewrite Z.div_1_r.
      * rewrite <- half_pow in Hle |- *. destruct Hx as [Hx|Hx].
        -- by apply Hupl, Hl0.
        -- by apply Hupr, Hr0.
    + (* granted in the right half *)
      apply Z.eqb_neq in Hr2. split; [done|]. intros _.
      destruct (Hr1 Hr2) as (d & Hg & Hle & Hslot & Hleft).
      exists (S d). rewrite <- half_pow.
      split_and!; [done|done|by right|].
      intros x [Hx|Hx] Hlt.
      * apply Hupl, Hl0; [done|]. by rewrite <- Hg.
      * by apply Hupr, Hleft.
  - (* an occupied node *)
    destruct Hshape as [Hs|(x & [=])]. destruct Hs as [-> ->].
    destruct fuel as [|fuel]; [discriminate|].
    simpl in H. rewrite (load_Some _ _ _ Ha) in H. simpl in H.
    injection H as <- <- <-. split; [|done].
    intros _ d x Hx Hle. destruct (slot_within _ _ _ _ Hsz Hx).
    eapply (blocked_inside _ a off sz); [simpl; set_solver|lia..].
Qed.

(** An overlap with an occupied partition of the tree is an overlap with
    an occupied node of the store. *)
Lemma blocked_cell h par off sz t x :
  rep h par off sz t → blocked (occ off sz t) x →
  ∃ c cn, h !! c = Some cn ∧ node_type cn = NODE_TYPE_OCCUPIED ∧
          ¬ apart x (node_offset cn, node_size cn).
Proof.
  intros Hrep ([c e] & He & Hx).
  destruct (occ_cell _ _ _ _ _ _ _ Hrep He) as (cn & Hc & Hty & ->). eauto.
Qed.

(** What the descent from the root establishes in a reachable state. *)
Lemma reachable_first_fit total m buf fuel size out m' al r :
  0 ≤ total ≤ SIZE_MAX → reachable total m buf → 1 ≤ size →
  buddy_buf_alloc fuel m buf size out = Ret (m', al, r) →
  ∃ t, rep (cells m) None 0 total t ∧
    (r = 0 → ∀ d x, slot 0 total d x → size ≤ total / 2 ^ Z.of_nat d →
       blocked (occ 0 total t) (x, total / 2 ^ Z.of_nat d)) ∧
    (r ≠ 0 → ∃ d : nat,
       alloc_size al = total / 2 ^ Z.of_nat d ∧ size ≤ alloc_size al ∧
       slot 0 total d (alloc_offset al) ∧
       ∀ x, slot 0 total d x → x < alloc_offset al →
         blocked (occ 0 total t) (x, total / 2 ^ Z.of_nat d)).
Proof.
  intros Htot Hreach Hsize H.
  destruct (reachable_inv_sized _ _ _ Htot Hreach) as (t & Hinv & Hpos).
  destruct (buddy_inv_pre _ _ _ _ Htot Hinv) as (ty & l & r0 & -> & Hpre).
  eexists. split; [exact (inv_rep _ _ _ _ Hinv)|].
  by eapply alloc_first_fit.
Qed.

(** A granted block does not overlap a node that was occupied before. *)
Lemma granted_apart total m buf fuel size out m' al r c cn :
  0 ≤ total ≤ SIZE_MAX → reachable total m buf → 1 ≤ size →
  buddy_buf_alloc fuel m buf size out = Ret (m', al, r) → r ≠ 0 →
  cells m !! c = Some cn → node_type cn = NODE_TYPE_OCCUPIED →
  apart (range al) (node_offset cn, node_size cn).
Proof.
  intros Htot Hreach Hsize Heq Hr Hc Hty.
  destruct (reachable_inv _ _ _ Htot Hreach) as [t Hinv].
  pose proof (buddy_inv_fresh_brk _ _ _ _ Hinv) as Hfresh.
  destruct (alloc_keeps _ _ _ _ _ _ _ _ Hfresh Heq) as [[_ Hk] Hg].
  destruct (Hg Hr) as
    [-> (c0 & cn0 & Hc0 & Hcn0 & Hty0 & Hoff & Hsz & _ & _ & Hnew)].
  assert (Hne : c0 ≠ c) by (intros ->; by apply (Hnew cn)).
  assert (Hreach' : reachable total m' buf) by (by eapply reach_alloc).
  destruct (reachable_inv _ _ _ Htot Hreach') as [t' Hinv'].
  destruct (occupied_apart total m' buf t' c0 cn0 c cn) as [_ Hap];
    [lia|done|done|done|by apply Hk|done|done|].
  unfold range. by rewrite <- Hoff, <- Hsz.
Qed.

(** X17.  The lowest offset first.  In every reachable state the block a
    granted request gets is the leftmost one that is available: it is one
    of the partitions that some number [d] of halvings cut out of the
    whole span, and every such partition at a lower offset overlaps a node
    that was occupied before the call. *)
Theorem lowest_offset_first total m buf fuel size out m' al r :
  0 ≤ total ≤ SIZE_MAX → reachable total m buf → 1 ≤ size →
  buddy_buf_alloc fuel m buf size out = Ret (m', al, r) → r ≠ 0 →
  ∃ d : nat,
    alloc_size al = total / 2 ^ Z.of_nat d ∧
    slot 0 total d (alloc_offset al) ∧
    ∀ x, slot 0 total d x → x < alloc_offset al →
      ∃ c cn, cells m !! c = Some cn ∧ node_type cn = NODE_TYPE_OCCUPIED ∧
              ¬ apart (x, alloc_size al) (node_offset cn, node_size cn).
Proof.
  intros Htot Hreach Hsize H Hr.
  destruct (reachable_first_fit _ _ _ _ _ _ _ _ _ Htot Hreach Hsize H)
    as (t & Hrep & _ & Hgrant).
  destruct (Hgrant Hr) as (d & Hg & _ & Hslot & Hleft).
  exists d. split_and!; [done|done|].
  intros x Hx Hlt. rewrite Hg. eapply blocked_cell; eauto.
Qed.

Lemma lowest_offset_first_witness :
  ∃ d : nat,
    alloc_size got2 = 1024 / 2 ^ Z.of_nat d ∧
    slot 0 1024 d (alloc_offset got2) ∧
    ∀ x, slot 0 1024 d x → x < alloc_offset got2 →
      ∃ c cn, cells run1 !! c = Some cn ∧ node_type cn = NODE_TYPE_OCCUPIED ∧
              ¬ apart (x, alloc_size got2) (node_offset cn, node_size cn).
Proof.
  apply (lowest_offset_first 1024 run1 0 11 200 out0 run2 got2 1).
  - unfold SIZE_MAX. lia.
  - exact run1_reachable.
  - lia.
  - vm_compute. reflexivity.
  - lia.
Defined.

(** X18.  No false failure.  In every reachable state a request of a
    positive size fails only when no partition is left for it: every
    partition that halvings cut out of the whole span and that is large
    enough for the request overlaps an occupied node. *)
Theorem failure_means_no_room total m buf fuel size out m' al d x :
  0 ≤ total ≤ SIZE_MAX → reachable total m buf → 1 ≤ size →
  buddy_buf_alloc fuel m buf size out = Ret (m', al, 0) →
  slot 0 total d x → size ≤ total / 2 ^ Z.of_nat d →
  ∃ c cn, cells m !! c = Some cn ∧ node_type cn = NODE_TYPE_OCCUPIED ∧
    ¬ apart (x, total / 2 ^ Z.of_nat d) (node_offset cn, node_size cn).
Proof.
  intros Htot Hreach Hsize H Hx Hle.
  destruct (reachable_first_fit _ _ _ _ _ _ _ _ _ Htot Hreach Hsize H)
    as (t & Hrep & Hfail & _).
  eapply blocked_cell; eauto.
Qed.

Lemma failure_means_no_room_witness :
  ∃ c cn, cells run2 !! c = Some cn ∧ node_type cn = NODE_TYPE_OCCUPIED ∧
    ¬ apart (0, 1024 / 2 ^ Z.of_nat 0) (node_offset cn, node_size cn).
Proof.
  apply (failure_means_no_room 1024 run2 0 11 600 out0 run2 out0 0 0).
  - unfold SIZE_MAX. lia.
  - exact run2_reachable.
  - lia.
  - exact failed_alloc_example.
  - reflexivity.
  - vm_compute. discriminate.
Defined.

(** X19.  Equal requests move to the right.  In every reachable state,
    when two requests of the same positive size are granted one after the
    other, with no free in between, the two blocks have the same size and
    the second lies at a higher offset. *)
Theorem equal_requests_ascend total m buf fuel size out m1 al1 r1 fuel' out'
    m2 al2 r2 :
  0 ≤ total ≤ SIZE_MAX → reachable total m buf → 1 ≤ size →
  buddy_buf_alloc fuel m buf size out = Ret (m1, al1, r1) → r1 ≠ 0 →
  buddy_buf_alloc fuel' m1 buf size out' = Ret (m2, al2, r2) → r2 ≠ 0 →
  alloc_size al2 = alloc_size al1 ∧ alloc_offset al1 < alloc_offset al2.
Proof.
  intros Htot Hreach Hsize H1 Hr1 H2 Hr2.
  assert (Hreach1 : reachable total m1 buf) by (by eapply reach_alloc).
  destruct (reachable_inv _ _ _ Htot Hreach) as [t Hinv].
  destruct (reachable_inv _ _ _ Htot Hreach1) as [t1 Hinv1].
  destruct (alloc_keeps _ _ _ _ _ _ _ _ (buddy_inv_fresh_brk _ _ _ _ Hinv) H1)
    as [[_ Hk1] Hg1].
  destruct (Hg1 Hr1) as
    [_ (c1 & cn1 & Hc1 & Hcn1 & Hty1 & Ho1 & Hs1 & Hle1 & Hlt1 & _)].
  destruct (alloc_keeps _ _ _ _ _ _ _ _ (buddy_inv_fresh_brk _ _ _ _ Hinv1) H2)
    as [_ Hg2].
  destruct (Hg2 Hr2) as [_ (c2 & cn2 & _ & _ & _ & _ & _ & Hle2 & Hlt2 & _)].
  destruct (reachable_first_fit _ _ _ _ _ _ _ _ _ Htot Hreach Hsize H1)
    as (t' & Hrep & _ & Hgrant1).
  destruct (Hgrant1 Hr1) as (d1 & Hsz1 & _ & Hslot1 & Hleft1).
  destruct (reachable_first_fit _ _ _ _ _ _ _ _ _ Htot Hreach1 Hsize H2)
    as (t1' & Hrep1 & _ & Hgrant2).
  destruct (Hgrant2 Hr2) as (d2 & Hsz2 & _ & Hslot2 & _).
  (* the two blocks lie at the same depth *)
  assert (Hdeeper : ∀ d d' : nat, (d < d')%nat →
            total / 2 ^ Z.of_nat d' ≤ total / 2 ^ Z.of_nat d / 2).
  { intros d d' Hdd.
    replace (total / 2 ^ Z.of_nat d / 2) with (total / 2 ^ Z.of_nat (S d)).
    - apply halving_antitone; lia.
    - rewrite Nat2Z.inj_succ, Z.pow_succ_r by lia.
      assert (0 < 2 ^ Z.of_nat d) by (apply Z.pow_pos_nonneg; lia).
      rewrite Z.mul_comm, <- Z.div_div by lia. done. }
  assert (d1 = d2) as <-.
  { destruct (lt_eq_lt_dec d1 d2) as [[Hlt|?]|Hlt]; [exfalso|done|exfalso].
    - specialize (Hdeeper d1 d2 Hlt). lia.
    - specialize (Hdeeper d2 d1 Hlt). lia. }
  split; [congruence|].
  destruct (Z_lt_le_dec (alloc_offset al1) (alloc_offset al2)) as [|Hge];
    [done|exfalso].
  pose proof (granted_apart _ _ _ _ _ _ _ _ _ c1 cn1 Htot Hreach1 Hsize H2
                Hr2 Hcn1 Hty1) as Hap1.
  destruct (decide (alloc_offset al2 = alloc_offset al1)) as [Heq|Hne].
  - unfold apart, range in Hap1. simpl in Hap1. lia.
  - destruct (Hleft1 (alloc_offset al2) Hslot2 ltac:(lia)) as (e & He & Hov).
    destruct e as [c e].
    destruct (occ_cell _ _ _ _ _ _ _ Hrep He) as (cn & Hc & Hty & ->).
    pose proof (granted_apart _ _ _ _ _ _ _ _ _ c cn Htot Hreach1 Hsize H2
                  Hr2 (Hk1 c cn Hc Hty) Hty) as Hap.
    apply Hov. simpl. rewrite <- Hsz2. exact Hap.
Qed.

Lemma equal_requests_ascend_witness :
  alloc_size got2 = alloc_size got1 ∧ alloc_offset got1 < alloc_offset got2.
Proof.
  apply (equal_requests_ascend 1024 run0 0 11 200 out0 run1 got1 1 11 out0
           run2 got2 1).
  - unfold SIZE_MAX. lia.
  - exact run0_reachable.
  - lia.
  - vm_compute. reflexivity.
  - lia.
  - vm_compute. reflexivity.
  - lia.
Defined.

(** ** Nothing is left to merge, and the tree is shallow *)

(** Below the root of a settled tree every node holds at least one
    unit. *)
Lemma settled_node_size t : ∀ (h : gmap nat BuddyNode) par off sz c cn,
  rep h par off sz t → settled t →
  Forall (λ x, 1 ≤ x.2.2) (occ off sz t) →
  c ∈ addrs t → h !! c = Some cn → 1 ≤ node_size cn.
Proof.
  induction t as [|a ty l IHl r IHr]; intros h par off sz c cn Hrep Hs Hpos
    Hin Hc; [set_solver|].
  pose proof (settled_height _ off sz Hs Hpos) as [Hroot _].
  destruct Hrep as (Ha & Hl & Hr).
  destruct (decide (c = a)) as [->|Hne].
  { rewrite Ha in Hc. injection Hc as <-. simpl. apply Hroot. by eexists. }
  simpl in Hin. apply elem_of_cons in Hin as [?|Hin]; [done|].
  destruct ty; [done| |destruct Hs as [-> ->]; set_solver].
  destruct Hs as (Hsl & Hsr & _). simpl in Hpos.
  apply Forall_app in Hpos as [Hpl Hpr].
  apply elem_of_app in Hin as [Hin|Hin]; eauto.
Qed.

(** X20.  Nothing is left to merge.  In every reachable state the fix-up
    finds nothing to do at any node: [node_update] called on a node of
    the store returns at once and leaves the store as it is. *)
Theorem fixup_has_nothing_to_do total m buf b bn fuel :
  0 ≤ total ≤ SIZE_MAX → reachable total m buf → cells m !! b = Some bn →
  node_update (S fuel) m (Some b) = Ret m.
Proof.
  intros Htot Hreach Hb.
  destruct (reachable_inv _ _ _ Htot Hreach) as [t Hinv].
  destruct Hinv as [Hroot Hrep Hnd Hlt Hdom Hshape].
  assert (Hin : b ∈ addrs t) by eauto.
  destruct (node_type bn) eqn:Hty.
  - (* a free node is the root *)
    destruct Hshape as [Hs|(x & ->)].
    { by destruct (settled_cell_not_free _ _ _ _ _ b bn Hrep Hs Hin Hb). }
    apply list_elem_of_singleton in Hin as ->.
    destruct Hrep as (Hx & _). rewrite Hx in Hb. injection Hb as <-.
    by eapply node_update_free_root.
  - (* a split node has a child, and no child is free *)
    assert (Hs : settled t).
    { destruct Hshape as [|(x & ->)]; [done|].
      apply list_elem_of_singleton in Hin as ->.
      destruct Hrep as (Hx & _). rewrite Hx in Hb. by injection Hb as <-. }
    destruct (rep_child _ _ _ _ _ b bn Hrep Hin Hb) as [Hchl Hchr].
    assert (Hbusy : ∀ c, node_left bn = Some c ∨ node_right bn = Some c →
              ∃ cn, cells m !! c = Some cn ∧ node_type cn ≠ NODE_TYPE_FREE).
    { intros c [Hc|Hc].
      - destruct (Hchl c Hc) as (cn & Hcn & _). exists cn. split; [done|].
        eapply (settled_cell_not_free _ _ _ _ _ c cn Hrep Hs); eauto.
      - destruct (Hchr c Hc) as (cn & Hcn & _). exists cn. split; [done|].
        eapply (settled_cell_not_free _ _ _ _ _ c cn Hrep Hs); eauto. }
    rewrite (node_update_split _ _ _ _ Hb Hty).
    destruct (node_left bn) as [c|] eqn:Hl.
    + destruct (Hbusy c ltac:(by left)) as (cn & Hcn & Hnf).
      rewrite (null_or_free_Some _ _ _ Hcn). simpl.
      by rewrite bool_decide_eq_false_2.
    + rewrite null_or_free_None. simpl.
      destruct (settled_split_child _ _ _ _ _ b bn Hrep Hs Hin Hb Hty)
        as [[? ?]|[c Hr]]; [congruence|].
      destruct (Hbusy c ltac:(by right)) as (cn & Hcn & Hnf).
      rewrite Hr, (null_or_free_Some _ _ _ Hcn). simpl.
      by rewrite bool_decide_eq_false_2.
  - simpl. rewrite (load_Some _ _ _ Hb). simpl. by rewrite Hty.
Qed.

Lemma fixup_has_nothing_to_do_witness :
  node_update (S 0) run4 (Some 1%nat) = Ret run4.
Proof.
  apply (fixup_has_nothing_to_do 1024 run4 0 1
           (mkNode NODE_TYPE_SPLIT 0 512 (Some 4%nat) (Some 3%nat)
              (Some 0%nat)) 0).
  - unfold SIZE_MAX. lia.
  - exact run4_reachable.
  - vm_compute. reflexivity.
Defined.

(** X21.  The tree is shallow.  In every reachable state every node
    other than the root holds at least one unit, and a node that is
    reached from the root by a path of links lies at most
    [log2 total] links deep. *)
Theorem depth_is_logarithmic total m buf path a n :
  0 ≤ total ≤ SIZE_MAX → reachable total m buf →
  walk (cells m) (Some buf) path = Some a → cells m !! a = Some n →
  (a ≠ buf → 1 ≤ node_size n) ∧
  (length path ≤ Z.to_nat (Z.log2 total))%nat.
Proof.
  intros Htot Hreach Hw Ha.
  destruct (reachable_inv_sized _ _ _ Htot Hreach) as (t & Hinv & Hpos).
  destruct Hinv as [Hroot Hrep Hnd Hlt Hdom Hshape].
  assert (Hin : a ∈ addrs t) by eauto.
  destruct Hshape as [Hs|(x & ->)].
  - pose proof (settled_node_size t _ _ _ _ a n Hrep Hs Hpos Hin Ha) as Hsz.
    split; [done|].
    rewrite <- Hroot in Hw.
    pose proof (rep_walk _ path _ _ _ _ a n Hrep Hw Ha) as Hdepth.
    rewrite Hdepth in Hsz.
    assert (0 < 2 ^ Z.of_nat (length path)) as Hp
      by (apply Z.pow_pos_nonneg; lia).
    assert (2 ^ Z.of_nat (length path) ≤ total) as Hle.
    { destruct (Z_lt_le_dec total (2 ^ Z.of_nat (length path))) as [Hlt'|];
        [|done].
      rewrite Z.div_small in Hsz by lia. lia. }
    apply Z.log2_le_pow2 in Hle; lia.
  - simpl in Hroot. injection Hroot as ->.
    apply list_elem_of_singleton in Hin as ->. split; [done|].
    destruct path as [|d path]; [simpl; lia|].
    destruct Hrep as (Hx & _). simpl in Hw. rewrite Hx in Hw. simpl in Hw.
    destruct d; by destruct path.
Qed.

Lemma depth_is_logarithmic_witness :
  (4%nat ≠ 0%nat → 1 ≤ 256) ∧
  (length [true; true] ≤ Z.to_nat (Z.log2 1024))%nat.
Proof.
  apply (depth_is_logarithmic 1024 run4 0 [true; true] 4
           (mkNode NODE_TYPE_OCCUPIED 0 256 NULL NULL (Some 1%nat))).
  - unfold SIZE_MAX. lia.
  - exact run4_reachable.
  - vm_compute. reflexivity.
  - vm_compute. reflexivity.
Defined.
